(** * tyssue: quasistatic solver and collision correction

    A shallow embedding of [tyssue/collisions/solvers.py] and
    [tyssue/solvers/quasistatic.py], with the properties of the
    relaxation engine that the specification states about them.

    Conventions of the embedding

    - A numpy [float64] is the type [float64] below: the rational that a
      finite double holds, one of the two infinities, or NaN.  Addition,
      subtraction, multiplication and division round their exact result to
      the nearest double, ties to even, and overflow to an infinity, as
      IEEE 754 binary64 does; the infinities and NaN follow IEEE 754 too.
      A zero carries no sign: the two zeros of IEEE 754 are one value here.
    - A pandas [DataFrame] indexed by vertex (or edge) labels is an
      association list of (label, row): row order and repeated labels are
      kept, because the code depends on both.
    - A Python exception is a [Raise] in the [result] type. *)

From Stdlib Require Import QArith Qfield List Bool Arith Lia Lqa.
Import ListNotations.

Set Implicit Arguments.

(** ** Exceptions *)

Inductive exn :=
| KeyError
| ValueError
| ZeroDivisionError
| TopologyChangeError.

Inductive result (A : Type) :=
| Ok (a : A)
| Raise (e : exn).

Arguments Ok {A} a.
Arguments Raise {A} e.

Definition bind {A B} (m : result A) (k : A -> result B) : result B :=
  match m with
  | Ok a => k a
  | Raise e => Raise e
  end.

Notation "x <- m ;; k" := (bind m (fun x => k))
  (at level 61, m at next level, right associativity).
Notation "' pat <- m ;; k" := (bind m (fun x => match x with pat => k end))
  (at level 61, pat pattern, m at next level, right associativity).

(** ** numpy scalars *)

Module NP.

Inductive float64 :=
| NaN
| NInf
| Fin (q : Q)
| PInf.

Definition inf : float64 := PInf.
Definition zero : float64 := Fin 0.

Definition Qsgn (q : Q) : comparison := (q ?= 0)%Q.

Definition neg (a : float64) : float64 :=
  match a with
  | NaN => NaN
  | NInf => PInf
  | Fin q => Fin (- q)
  | PInf => NInf
  end.

(** *** Rounding to binary64

    A finite double other than zero is [m * 2^e] with [2^52 <= |m| < 2^53]
    and [-1074 <= e <= 971], or a subnormal [m * 2^-1074] with
    [|m| < 2^52].  An operation gives its exact result rounded to the
    nearest such value, ties to the even mantissa; a result that rounds to
    [2^1024] or beyond is an infinity, and one that rounds to nothing is
    zero. *)

Definition pow2 (e : Z) : Q :=
  if (0 <=? e)%Z then inject_Z (2 ^ e) else 1 # Z.to_pos (2 ^ (- e)).

(** [floor (log2 (n / d))] *)
Definition ilog2 (n d : positive) : Z :=
  let l := (Z.log2 (Zpos n) - Z.log2 (Zpos d))%Z in
  if Qle_bool (pow2 l) (Zpos n # d) then l else (l - 1)%Z.

(** the double nearest to [n / d] *)
Definition round_pos (n d : positive) : float64 :=
  let e := Z.max (ilog2 n d - 52) (-1074) in
  let num := (if e <? 0 then Zpos n * 2 ^ (- e) else Zpos n)%Z in
  let den := (if e <? 0 then Zpos d else Zpos d * 2 ^ e)%Z in
  let m0 := (num / den)%Z in
  let r := (num mod den)%Z in
  let m := match (2 * r ?= den)%Z with
           | Lt => m0
           | Gt => (m0 + 1)%Z
           | Eq => if Z.even m0 then m0 else (m0 + 1)%Z
           end in
  let v := Qred (inject_Z m * pow2 e) in
  if Qle_bool (pow2 1024) v then PInf else Fin v.

Definition round64 (q : Q) : float64 :=
  match Qnum q with
  | Z0 => Fin 0
  | Zpos n => round_pos n (Qden q)
  | Zneg n => neg (round_pos n (Qden q))
  end.

Definition add (a b : float64) : float64 :=
  match a, b with
  | NaN, _ | _, NaN => NaN
  | Fin p, Fin q => round64 (p + q)
  | PInf, NInf | NInf, PInf => NaN
  | PInf, _ | _, PInf => PInf
  | NInf, _ | _, NInf => NInf
  end.

Definition sub (a b : float64) : float64 := add a (neg b).

(** an infinity scaled by the sign of a finite factor *)
Definition scale_inf (pos_inf : bool) (s : comparison) : float64 :=
  match s with
  | Eq => NaN
  | Gt => if pos_inf then PInf else NInf
  | Lt => if pos_inf then NInf else PInf
  end.

Definition mul (a b : float64) : float64 :=
  match a, b with
  | NaN, _ | _, NaN => NaN
  | Fin p, Fin q => round64 (p * q)
  | PInf, PInf | NInf, NInf => PInf
  | PInf, NInf | NInf, PInf => NInf
  | PInf, Fin q | Fin q, PInf => scale_inf true (Qsgn q)
  | NInf, Fin q | Fin q, NInf => scale_inf false (Qsgn q)
  end.

(** numpy division: a finite value over zero is an infinity (a warning,
    not an exception), [0/0] is NaN. *)
Definition div (a b : float64) : float64 :=
  match a, b with
  | NaN, _ | _, NaN => NaN
  | Fin p, Fin q =>
      match Qsgn q with
      | Eq => scale_inf true (Qsgn p)
      | _ => round64 (p / q)
      end
  | Fin _, _ => Fin 0
  | _, PInf | _, NInf => NaN
  | PInf, Fin q => match Qsgn q with Lt => NInf | _ => PInf end
  | NInf, Fin q => match Qsgn q with Lt => PInf | _ => NInf end
  end.

(** [a < b]; every comparison with NaN is false *)
Definition ltb (a b : float64) : bool :=
  match a, b with
  | NaN, _ | _, NaN => false
  | _, NInf => false
  | NInf, _ => true
  | PInf, _ => false
  | Fin _, PInf => true
  | Fin p, Fin q => match (p ?= q)%Q with Lt => true | _ => false end
  end.

(** [a <= b] *)
Definition leb (a b : float64) : bool :=
  match a, b with
  | NaN, _ | _, NaN => false
  | NInf, _ => true
  | _, PInf => true
  | _, NInf => false
  | PInf, _ => false
  | Fin p, Fin q => match (p ?= q)%Q with Gt => false | _ => true end
  end.

(** [np.sign] *)
Definition sign (a : float64) : float64 :=
  match a with
  | NaN => NaN
  | NInf => Fin (-1)
  | PInf => Fin 1
  | Fin q => match Qsgn q with Lt => Fin (-1) | Eq => Fin 0 | Gt => Fin 1 end
  end.

Definition isfinite (a : float64) : bool :=
  match a with
  | Fin _ => true
  | _ => false
  end.

(** [np.minimum] and [np.maximum]: element-wise, NaN wins *)
Definition minimum (a b : float64) : float64 :=
  match a, b with
  | NaN, _ | _, NaN => NaN
  | _, _ => if leb a b then a else b
  end.

Definition maximum (a b : float64) : float64 :=
  match a, b with
  | NaN, _ | _, NaN => NaN
  | _, _ => if leb b a then a else b
  end.

(** [Series.min()] and [Series.max()] of pandas skip NaN; a column with
    nothing else is NaN. *)
Definition nanmin2 (a b : float64) : float64 :=
  match a, b with
  | NaN, c | c, NaN => c
  | _, _ => minimum a b
  end.

Definition nanmax2 (a b : float64) : float64 :=
  match a, b with
  | NaN, c | c, NaN => c
  | _, _ => maximum a b
  end.

Definition nanmin (l : list float64) : float64 := fold_left nanmin2 l NaN.
Definition nanmax (l : list float64) : float64 := fold_left nanmax2 l NaN.

End NP.

Import NP.

(** ** Tables of the mesh *)

Definition vert_id := nat.
Definition edge_id := nat.
Definition face_id := nat.

(** the coordinate columns ["x"], ["y"], ["z"] *)
Inductive coord := cx | cy | cz.

Definition coord_eqb (a b : coord) : bool :=
  match a, b with
  | cx, cx | cy, cy | cz, cz => true
  | _, _ => false
  end.

(** [list("xyz")] *)
Definition xyz : list coord := [cx; cy; cz].

(** one row of coordinate columns *)
Record Vec3 := mkVec3 { vx : float64; vy : float64; vz : float64 }.

Definition get (c : coord) (r : Vec3) : float64 :=
  match c with
  | cx => vx r
  | cy => vy r
  | cz => vz r
  end.

Definition set (c : coord) (a : float64) (r : Vec3) : Vec3 :=
  match c with
  | cx => mkVec3 a (vy r) (vz r)
  | cy => mkVec3 (vx r) a (vz r)
  | cz => mkVec3 (vx r) (vy r) a
  end.

Definition vec_const (a : float64) : Vec3 := mkVec3 a a a.

Definition vec_map2 (f : float64 -> float64 -> float64) (a b : Vec3) : Vec3 :=
  mkVec3 (f (vx a) (vx b)) (f (vy a) (vy b)) (f (vz a) (vz b)).

(** A DataFrame as an association list of (label, row). *)
Module Frame.

Section Rows.

Context {A : Type}.

Definition index (df : list (nat * A)) : list nat := map fst df.

(** [df.loc[k]]: the row labelled [k] (labels of the mesh tables and of
    the bounds tables are unique) *)
Fixpoint loc1 (df : list (nat * A)) (k : nat) : result A :=
  match df with
  | [] => Raise KeyError
  | (k', a) :: tl => if k' =? k then Ok a else loc1 tl k
  end.

(** [df.loc[ks]]: the rows in the order of [ks], [KeyError] when a label
    is missing *)
Fixpoint loc (df : list (nat * A)) (ks : list nat) : result (list A) :=
  match ks with
  | [] => Ok []
  | k :: tl =>
      a <- loc1 df k ;;
      r <- loc df tl ;;
      Ok (a :: r)
  end.

(** write one row: every row labelled [k] is replaced through [f] *)
Definition write1 (f : A -> A) (k : nat) (df : list (nat * A)) : list (nat * A) :=
  map (fun kr => if fst kr =? k then (fst kr, f (snd kr)) else kr) df.

(** [df.loc[ks, cols] = values], the labels already checked: rows are
    written one after the other, so that a label present twice in [ks]
    keeps the row written last. *)
Definition assign (write : A -> A -> A) (df : list (nat * A)) (rows : list (nat * A))
  : list (nat * A) :=
  fold_left (fun d kr => write1 (write (snd kr)) (fst kr) d) rows df.

End Rows.

End Frame.

(** [Series.unique()]: first occurrences, in order *)
Fixpoint unique (l : list nat) : list nat :=
  match l with
  | [] => []
  | a :: tl => a :: filter (fun b => negb (b =? a)) (unique tl)
  end.

Fixpoint insert_sorted (a : nat) (l : list nat) : list nat :=
  match l with
  | [] => [a]
  | b :: tl => if a <=? b then a :: l else b :: insert_sorted a tl
  end.

(** the sorted group keys of a [groupby] *)
Definition sorted_keys (l : list nat) : list nat :=
  fold_right insert_sorted [] (unique l).

Definition mem_nat (a : nat) (l : list nat) : bool := existsb (Nat.eqb a) l.
Definition mem_coord (c : coord) (l : list coord) : bool := existsb (coord_eqb c) l.

(** a row of [sheet.edge_df]: source and target vertex, owning face and
    the position of the source vertex as the geometry wrote it *)
Record EdgeRow := mkEdge {
  srce : vert_id;
  trgt : vert_id;
  face : face_id;
  sx : float64;
  sy : float64;
  sz : float64
}.

(** [rows[["sx", "sy", "sz"]]] of one edge *)
Definition spoint (e : EdgeRow) : Vec3 := mkVec3 (sx e) (sy e) (sz e).

(** The mesh handle.  [active_verts] is a property of the mesh class, kept
    here as a field; [shyness_setting] is [sheet.settings.get("shyness")]. *)
Record Sheet := mkSheet {
  vert_df : list (vert_id * Vec3);
  edge_df : list (edge_id * EdgeRow);
  coords : list coord;
  active_verts : list vert_id;
  shyness_setting : option float64
}.

Definition with_vert_df (s : Sheet) (v : list (vert_id * Vec3)) : Sheet :=
  mkSheet v (edge_df s) (coords s) (active_verts s) (shyness_setting s).

(** [df.loc[ks, cols] = values]: only the columns [cols] of a row are
    overwritten *)
Definition write_cols (cols : list coord) (new old : Vec3) : Vec3 :=
  fold_left (fun r c => set c (get c new) r) cols old.

(** Modelled from the spec: [Sheet.upcast_srce], a method of the mesh class
    that is not part of the sources; the spec has the boxes computed from
    the edges "with resolved source-vertex positions (current or
    snapshot)": one row per edge, holding the row of its source vertex in
    the given vertex table. *)
Fixpoint upcast_srce (edges : list (edge_id * EdgeRow)) (df : list (vert_id * Vec3))
  : result (list (edge_id * Vec3)) :=
  match edges with
  | [] => Ok []
  | (e, row) :: tl =>
      p <- Frame.loc1 df (srce row) ;;
      r <- upcast_srce tl df ;;
      Ok ((e, p) :: r)
  end.

(** ** tyssue/collisions/solvers.py *)

Module Collisions.

(** a bounding box: the columns ["l"] and ["h"] of a frame indexed by
    [x], [y], [z] *)
Record BBox := mkBBox { bb_l : Vec3; bb_h : Vec3 }.

(** [points.min(axis=0)] and [points.max(axis=0)]: numpy refuses to reduce
    an empty array *)
Definition min_axis0 (points : list Vec3) : result Vec3 :=
  match points with
  | [] => Raise ValueError
  | p :: tl => Ok (fold_left (vec_map2 minimum) tl p)
  end.

Definition max_axis0 (points : list Vec3) : result Vec3 :=
  match points with
  | [] => Raise ValueError
  | p :: tl => Ok (fold_left (vec_map2 maximum) tl p)
  end.

Definition _face_bbox (points : list Vec3) : result BBox :=
  lower <- min_axis0 points ;;
  upper <- max_axis0 points ;;
  Ok (mkBBox lower upper).

(** [bb0c - bb0p] *)
Definition bbox_sub (a b : BBox) : BBox :=
  mkBBox (vec_map2 sub (bb_l a) (bb_l b)) (vec_map2 sub (bb_h a) (bb_h b)).

(** The frames [lower_bound] and [upper_bound] of [_collision_plane]: an
    index of source vertices and, for each flagged axis, one column holding
    the same scalar in every row. *)
Record PlaneFrame := mkPlaneFrame {
  pf_index : list vert_id;
  pf_columns : list (coord * float64)
}.

Record CollidingBoxes := mkBoxes {
  sheet : Sheet;
  edge_pairs : list (edge_id * edge_id);
  face_pairs : list (face_id * face_id);
  edge_buffer : list (edge_id * Vec3)
}.

(** [frozenset(row)] of a row of two face labels: one label when both edges
    belong to the same face.  The iteration order of a Python set is left to
    the implementation; the embedding lists the smaller label first. *)
Definition frozenset (p : face_id * face_id) : list face_id :=
  let (a, b) := p in
  if a =? b then [a] else [Nat.min a b; Nat.max a b].

Definition list_nat_eqb (a b : list nat) : bool :=
  if list_eq_dec Nat.eq_dec a b then true else false.

(** [set(...)]: one element per value, here in order of first occurrence *)
Fixpoint set_of (l : list (list nat)) : list (list nat) :=
  match l with
  | [] => []
  | a :: tl => a :: filter (fun b => negb (list_nat_eqb b a)) (set_of tl)
  end.

(** [[*pair] for pair in unique_pairs if len(pair) == 2] *)
Definition unpack_pairs (unique_pairs : list (list face_id)) : list (face_id * face_id) :=
  flat_map (fun pair =>
              match pair with
              | [a; b] => [(a, b)]
              | _ => []
              end) unique_pairs.

Definition flatten (pairs : list (nat * nat)) : list nat :=
  flat_map (fun p => [fst p; snd p]) pairs.

(** [.values.reshape((-1, 2))] of an even number of labels *)
Fixpoint reshape2 (l : list nat) : list (nat * nat) :=
  match l with
  | a :: b :: tl => (a, b) :: reshape2 tl
  | _ => []
  end.

Definition _get_intersecting_faces (sh : Sheet) (pairs : list (edge_id * edge_id))
  : result (list (face_id * face_id)) :=
  rows <- Frame.loc (edge_df sh) (flatten pairs) ;;
  let _face_pairs := reshape2 (map face rows) in
  let unique_pairs := set_of (map frozenset _face_pairs) in
  Ok (unpack_pairs unique_pairs).

(** [sheet.vert_df[sheet.coords].copy()]: the coordinate columns, in the
    order of [sheet.coords], and the rows *)
Record PositionBuffer := mkBuffer {
  pb_columns : list coord;
  pb_rows : list (vert_id * Vec3)
}.

Definition position_copy (sh : Sheet) : PositionBuffer :=
  mkBuffer (coords sh) (vert_df sh).

(** [CollidingBoxes.__init__]; renaming the columns of the buffer to
    [sx], [sy], [sz] goes by position and needs three of them *)
Definition init (sh : Sheet) (position_buffer : PositionBuffer)
  (intersecting_edges : list (edge_id * edge_id)) : result CollidingBoxes :=
  fp <- _get_intersecting_faces sh intersecting_edges ;;
  buf <- upcast_srce (edge_df sh) (pb_rows position_buffer) ;;
  match pb_columns position_buffer with
  | [a; b; c] =>
      Ok (mkBoxes sh intersecting_edges fp
            (map (fun er => (fst er, mkVec3 (get a (snd er)) (get b (snd er)) (get c (snd er))))
                 buf))
  | _ => Raise ValueError
  end.

(** rows of [edge_df] owned by face [f] *)
Definition face_edges (sh : Sheet) (f : face_id) : list EdgeRow :=
  map snd (filter (fun er => face (snd er) =? f) (edge_df sh)).

(** [edge_buffer[edge_df["face"] == f]]: the rows of the buffer at the
    positions where the edge table has face [f] *)
Definition face_buffer (self : CollidingBoxes) (f : face_id) : list Vec3 :=
  map snd (filter (fun er => face (snd (fst er)) =? f)
                  (combine (edge_df (sheet self)) (map snd (edge_buffer self)))).

(** [np.sign((a1.l - a0.h) * (b1.l - b0.h)) < 0] on one axis *)
Definition sign_change (c0 c1 p0 p1 : BBox) (c : coord) : bool :=
  ltb (sign (mul (sub (get c (bb_l c1)) (get c (bb_h c0)))
                 (sub (get c (bb_l p1)) (get c (bb_h p0))))) zero.

(** [(p0.h * d1.l - p1.l * d0.h) / (d1.l - d0.h)] on one axis *)
Definition plane_coord (p0 p1 d0 d1 : BBox) (c : coord) : float64 :=
  div (sub (mul (get c (bb_h p0)) (get c (bb_l d1)))
           (mul (get c (bb_l p1)) (get c (bb_h d0))))
      (sub (get c (bb_l d1)) (get c (bb_h d0))).

Definition two : float64 := Fin 2.

(** the loop [for c in coll_ax] *)
Definition bound_columns (offset : float64 -> float64) (coll_ax : list coord)
  (plane_coords : coord -> float64) : list (coord * float64) :=
  map (fun c => (c, offset (plane_coords c))) coll_ax.

Definition _collision_plane (self : CollidingBoxes) (face_pair : face_id * face_id)
  (shyness : float64) : result (option (PlaneFrame * PlaneFrame)) :=
  let (f0, f1) := face_pair in
  let fe0c := face_edges (sheet self) f0 in
  let fe1c := face_edges (sheet self) f1 in
  let fe0p := face_buffer self f0 in
  let fe1p := face_buffer self f1 in
  bb0c <- _face_bbox (map spoint fe0c) ;;
  bb1c <- _face_bbox (map spoint fe1c) ;;
  bb0p <- _face_bbox fe0p ;;
  bb1p <- _face_bbox fe1p ;;
  let dr0 := bbox_sub bb0c bb0p in
  let dr1 := bbox_sub bb1c bb1p in
  let sign_change_l1h0 := sign_change bb0c bb1c bb0p bb1p in
  let sign_change_l0h1 := sign_change bb1c bb0c bb1p bb0p in
  let lower_of p := add p (div shyness two) in
  let upper_of p := sub p (div shyness two) in
  if existsb sign_change_l1h0 xyz then
    let coll_ax := filter sign_change_l1h0 xyz in
    let plane_coords := plane_coord bb0p bb1p dr0 dr1 in
    Ok (Some (mkPlaneFrame (map srce fe1c) (bound_columns lower_of coll_ax plane_coords),
              mkPlaneFrame (map srce fe0c) (bound_columns upper_of coll_ax plane_coords)))
  else if existsb sign_change_l0h1 xyz then
    let coll_ax := filter sign_change_l0h1 xyz in
    let plane_coords := plane_coord bb1p bb0p dr1 dr0 in
    Ok (Some (mkPlaneFrame (map srce fe0c) (bound_columns lower_of coll_ax plane_coords),
              mkPlaneFrame (map srce fe1c) (bound_columns upper_of coll_ax plane_coords)))
  else
    Ok None.

(** [get_limits]: one result per face pair, in order *)
Definition get_limits (self : CollidingBoxes) (shyness : float64)
  : list (result (option (PlaneFrame * PlaneFrame))) :=
  map (fun face_pair => _collision_plane self face_pair shyness) (face_pairs self).

(** what a Python call hands back: an [int] or [None] *)
Inductive retval :=
| RetInt (n : Z)
| RetNone.

(** a table with one row per vertex, every column set to [a] *)
Definition bounds_table (verts : list vert_id) (a : float64) : list (vert_id * Vec3) :=
  map (fun v => (v, vec_const a)) verts.

(** [edge_df[edge_df["face"].isin(face_pairs.ravel())]["srce"].unique()] *)
Definition colliding_verts (self : CollidingBoxes) : list vert_id :=
  unique (map (fun er => srce (snd er))
              (filter (fun er => mem_nat (face (snd er)) (flatten (face_pairs self)))
                      (edge_df (sheet self)))).

(** [np.maximum(sub, bound)] (or [np.minimum]) on the columns of [bound] *)
Definition merge_row (op : float64 -> float64 -> float64)
  (columns : list (coord * float64)) (r : Vec3) : Vec3 :=
  fold_left (fun acc ca => set (fst ca) (op (get (fst ca) r) (snd ca)) acc) columns r.

(** [table.loc[b.index, b.columns] = op(table.loc[b.index, b.columns], b)] *)
Definition merge_bounds (op : float64 -> float64 -> float64) (cds : list coord)
  (table : list (vert_id * Vec3)) (b : PlaneFrame) : result (list (vert_id * Vec3)) :=
  if forallb (fun c => mem_coord c cds) (map fst (pf_columns b)) then
    sub_rows <- Frame.loc table (pf_index b) ;;
    let new_rows := map (merge_row op (pf_columns b)) sub_rows in
    Ok (Frame.assign (write_cols (map fst (pf_columns b))) table
                     (combine (pf_index b) new_rows))
  else Raise KeyError.

(** the state of the loop over [get_limits]:
    [plane_found], [lower_bounds], [upper_bounds] *)
Definition loop_state : Type := bool * list (vert_id * Vec3) * list (vert_id * Vec3).

Fixpoint fold_limits (cds : list coord)
  (limits : list (result (option (PlaneFrame * PlaneFrame)))) (st : loop_state)
  : result loop_state :=
  match limits with
  | [] => Ok st
  | lim :: tl =>
      r <- lim ;;
      match r with
      | None => fold_limits cds tl st
      | Some (lower, upper) =>
          let '(_, lower_bounds, upper_bounds) := st in
          lb <- merge_bounds maximum cds lower_bounds lower ;;
          ub <- merge_bounds minimum cds upper_bounds upper ;;
          fold_limits cds tl (true, lb, ub)
      end
  end.

(** the first part of [solve_collisions]: the two tables, at minus and
    plus infinity, and the loop that folds the bounds of every plane in *)
Definition aggregate_bounds (self : CollidingBoxes) (shyness : float64)
  : result loop_state :=
  let verts := colliding_verts self in
  let upper_bounds := bounds_table verts inf in
  let lower_bounds := bounds_table verts (neg inf) in
  fold_limits (coords (sheet self)) (get_limits self shyness)
              (false, lower_bounds, upper_bounds).

(** [table[np.isfinite(table.values.astype(float))]]: a two-dimensional
    boolean mask takes the rows at [mask.nonzero()[0]], that is each row
    once per finite entry *)
Definition count_finite (cds : list coord) (r : Vec3) : nat :=
  length (filter (fun c => isfinite (get c r)) cds).

Definition take_finite (cds : list coord) (table : list (vert_id * Vec3))
  : list (vert_id * Vec3) :=
  flat_map (fun vr => repeat vr (count_finite cds (snd vr))) table.

(** [.groupby("vert").apply(min)]: one row per label, labels sorted;
    pandas applies the numpy reduction in place of the builtin, so that each
    column is reduced over the rows of the group *)
Definition groupby_apply (agg : list float64 -> float64) (cds : list coord)
  (table : list (vert_id * Vec3)) : list (vert_id * Vec3) :=
  map (fun k =>
         let group := map snd (filter (fun vr => fst vr =? k) table) in
         (k, fold_left (fun acc c => set c (agg (map (get c) group)) acc)
                       cds (vec_const NaN)))
      (sorted_keys (Frame.index table)).

(** [op(vert_df.loc[bounds.index, coords], bounds.values)] *)
Definition correction (op : float64 -> float64 -> float64)
  (vdf bounds : list (vert_id * Vec3)) : result (list (vert_id * Vec3)) :=
  cur <- Frame.loc vdf (Frame.index bounds) ;;
  Ok (map (fun pb => (fst (snd pb), vec_map2 op (fst pb) (snd (snd pb))))
          (combine cur bounds)).

(** [CollidingBoxes.solve_collisions]: the sheet after the call and the
    returned value *)
Definition solve_collisions (self : CollidingBoxes) (shyness : float64)
  : result (Sheet * retval) :=
  let sh := sheet self in
  let cds := coords sh in
  st <- aggregate_bounds self shyness ;;
  let '(plane_found, lower_bounds, upper_bounds) := st in
  let plane_found := if length upper_bounds =? 0 then false else plane_found in
  if negb plane_found then Ok (sh, RetInt 0)
  else
    let upper_bounds := groupby_apply nanmin cds (take_finite cds upper_bounds) in
    let lower_bounds := groupby_apply nanmax cds (take_finite cds lower_bounds) in
    correction_upper <- correction minimum (vert_df sh) upper_bounds ;;
    correction_lower <- correction maximum (vert_df sh) lower_bounds ;;
    let corrections := correction_lower ++ correction_upper in
    Ok (with_vert_df sh (Frame.assign (write_cols cds) (vert_df sh) corrections),
        RetNone).

(** *** The decorator [solve_collisions(fun)] *)

(** a geometry class: [geom.update_all(sheet)] recomputes the derived
    columns of the mesh in place *)
Record Geom := mkGeom { update_all : Sheet -> Sheet }.

(** [tyssue.collisions.intersection.self_intersections]: the pairs of
    edges that cross, one row per pair *)
Class Intersection := { self_intersections : Sheet -> list (edge_id * edge_id) }.

(** A call that mutates the mesh in place and may raise: the mesh it
    leaves behind, and the value or the exception. *)
Definition call (R : Type) : Type := Sheet * result R.

(** a position-update function: [fun(sheet, geom, *args)] *)
Definition updater (Args R : Type) : Type := Sheet -> Geom -> Args -> call R.

(** [1e-10]: the double nearest to 10^-10 *)
Definition default_shyness : float64 := round64 (1 # 10000000000).

(** [sheet.settings.get("shyness", 1e-10)] *)
Definition get_shyness (sh : Sheet) : float64 :=
  match shyness_setting sh with
  | Some s => s
  | None => default_shyness
  end.

Section Decorator.

Context {detector : Intersection}.

(** the block [if intersecting_edges.shape[0]: ...] of the wrapper *)
Definition correct_collisions (position_buffer : PositionBuffer) (sh : Sheet)
  : result Sheet :=
  let intersecting_edges := self_intersections sh in
  if negb (length intersecting_edges =? 0) then
    let shyness := get_shyness sh in
    boxes <- init sh position_buffer intersecting_edges ;;
    out <- solve_collisions boxes shyness ;;
    Ok (fst out)
  else Ok sh.

(** [solve_collisions(fun)] returns this function *)
Definition with_collision_correction {Args R} (fun_ : updater Args R)
  : updater Args R :=
  fun sh geom args =>
    let position_buffer := position_copy sh in
    match fun_ sh geom args with
    | (s1, Raise e) => (s1, Raise e)
    | (s1, Ok res) =>
        match correct_collisions position_buffer s1 with
        | Raise e => (s1, Raise e)
        | Ok s2 => (update_all geom s2, Ok res)
        end
    end.

End Decorator.

(** *** [revert_positions] *)

(** what [df.loc[labels, cds] = snapshot_rows] writes in a row: the value
    is aligned on the column names, and a column of [cds] that the
    snapshot does not have is written as NaN *)
Definition aligned (buf_cols cds : list coord) (snap old : Vec3) : Vec3 :=
  fold_left (fun r c => set c (if mem_coord c buf_cols then get c snap else NaN) r)
            cds old.

(** [revert_positions]; [np.unique] gives the distinct labels, sorted *)
Definition revert_positions (sh : Sheet) (position_buffer : PositionBuffer)
  (intersecting_edges : list (edge_id * edge_id)) : result Sheet :=
  let unique_edges := sorted_keys (flatten intersecting_edges) in
  rows <- Frame.loc (edge_df sh) unique_edges ;;
  let unique_verts := sorted_keys (flat_map (fun r => [srce r; trgt r]) rows) in
  snap <- Frame.loc (pb_rows position_buffer) unique_verts ;;
  _ <- Frame.loc (vert_df sh) unique_verts ;;
  Ok (with_vert_df sh
        (Frame.assign (aligned (pb_columns position_buffer) (coords sh))
                      (vert_df sh) (combine unique_verts snap))).

End Collisions.

(** ** tyssue/solvers/quasistatic.py *)

Module Quasistatic.

Import Collisions.

(** a model class; the gradient is a frame with one row per vertex *)
Record Model := mkModel {
  compute_energy : Sheet -> result float64;
  compute_gradient : Sheet -> result (list (vert_id * list float64))
}.

(** The topology operators of [tyssue.topology], which change the mesh
    (and possibly its set of active vertices) in place. *)
Class Topology := {
  type1_transitions : Sheet -> Geom -> Sheet;
  type3_transitions : Sheet -> Geom -> Sheet
}.

(** What [scipy.optimize.minimize] does with its callbacks: it hands back
    a result, asks for the objective or for the jacobian at a trial vector
    and goes on with the answer, or raises by itself.  The tree is finite:
    an optimizer run stops (on convergence or on its iteration limit). *)
Inductive Optimizer (Res : Type) :=
| Return (res : Res)
| Abort (e : exn)
| EvalFun (x : list float64) (k : float64 -> Optimizer Res)
| EvalJac (x : list float64) (k : list float64 -> Optimizer Res).

Arguments Return {Res} res.
Arguments Abort {Res} e.
Arguments EvalFun {Res} x k.
Arguments EvalJac {Res} x k.

(** [scipy.optimize.minimize(fun, x0, jac=..., **kwargs)] and the settings
    table [config.solvers.quasistatic()] with its [update] *)
Class Scipy := {
  OptimizeResult : Type;
  Settings : Type;
  minimize : Settings -> list float64 -> Optimizer OptimizeResult;
  quasistatic_settings : Settings;
  update_settings : Settings -> Settings -> Settings
}.

Record QSSolver := mkSolver {
  set_pos : updater (list float64) retval;
  restart : bool;
  rearange : bool
}.

(** rows of [ndims] values cut from a flat vector: [pos.reshape((-1, ndims))] *)
Fixpoint reshape_rows (fuel ndims : nat) (pos : list float64) : list (list float64) :=
  match fuel with
  | O => []
  | S n => firstn ndims pos :: reshape_rows n ndims (skipn ndims pos)
  end.

(** the columns [cds] of a row are overwritten by [vals], in order *)
Fixpoint write_values (cds : list coord) (vals : list float64) (r : Vec3) : Vec3 :=
  match cds, vals with
  | c :: cds', a :: vals' => write_values cds' vals' (set c a r)
  | _, _ => r
  end.

(** [.values.flatten()] of the rows [verts] restricted to [cds] *)
Definition flatten_rows (cds : list coord) (rows : list Vec3) : list float64 :=
  flat_map (fun r => map (fun c => get c r) cds) rows.

(** [eptm.vert_df.loc[eptm.active_verts, eptm.coords].values.flatten()] *)
Definition active_positions (eptm : Sheet) : result (list float64) :=
  rows <- Frame.loc (vert_df eptm) (active_verts eptm) ;;
  Ok (flatten_rows (coords eptm) rows).

(** the rows of [values] as an assignment to [n] rows takes them: as they
    are when there are [n] of them, one row repeated for every target row
    (numpy broadcasting), and refused otherwise *)
Definition broadcast_rows (n : nat) (values : list (list float64))
  : option (list (list float64)) :=
  if length values =? n then Some values
  else match values with
       | [row] => Some (repeat row n)
       | _ => None
       end.

(** [QSSolver._set_pos]: [reshape] refuses a vector that does not fill
    rows of [ndims] values, and the assignment refuses rows that are neither
    one per active vertex nor a single row *)
Definition _set_pos : updater (list float64) retval :=
  fun eptm geom pos =>
    let ndims := length (coords eptm) in
    if ndims =? 0 then (eptm, Raise ZeroDivisionError)
    else
      let num_p := Nat.div (length pos) ndims in
      if negb (num_p * ndims =? length pos) then (eptm, Raise ValueError)
      else
        match Frame.loc (vert_df eptm) (active_verts eptm) with
        | Raise e => (eptm, Raise e)
        | Ok _ =>
            match broadcast_rows (length (active_verts eptm))
                                 (reshape_rows num_p ndims pos) with
            | None => (eptm, Raise ValueError)
            | Some values =>
                let rows := combine (active_verts eptm) values in
                let vdf := fold_left
                             (fun d kr => Frame.write1 (write_values (coords eptm) (snd kr))
                                                       (fst kr) d)
                             rows (vert_df eptm) in
                (update_all geom (with_vert_df eptm vdf), Ok RetNone)
            end
        end.

Section Solver.

Context {detector : Intersection} {topology : Topology} {scipy : Scipy}.

(** Modelled from the spec: [auto_t1] and [auto_t3] of [tyssue.topology],
    decorators that are not part of the sources; the spec has each of them
    as an "external operator, applied after the wrapped call": the wrapped
    function runs, then the operator runs on the mesh and the geometry, and
    the value of the wrapped function is handed back. *)
Definition auto_t1 {Args R} (fun_ : updater Args R) : updater Args R :=
  fun sh geom args =>
    match fun_ sh geom args with
    | (s1, Raise e) => (s1, Raise e)
    | (s1, Ok res) => (type1_transitions s1 geom, Ok res)
    end.

Definition auto_t3 {Args R} (fun_ : updater Args R) : updater Args R :=
  fun sh geom args =>
    match fun_ sh geom args with
    | (s1, Raise e) => (s1, Raise e)
    | (s1, Ok res) => (type3_transitions s1 geom, Ok res)
    end.

(** [QSSolver.__init__] *)
Definition QSSolver_init (with_collisions with_t1 with_t3 : bool) : QSSolver :=
  let set_pos := _set_pos in
  let set_pos := if with_collisions then with_collision_correction set_pos else set_pos in
  let set_pos := if with_t1 then auto_t1 set_pos else set_pos in
  let set_pos := if with_t3 then auto_t3 set_pos else set_pos in
  mkSolver set_pos true (with_t1 || with_t3).

(** [pos.size // len(eptm.coords) != eptm.active_verts.size], evaluated
    only when [self.rearange] holds *)
Definition topology_changed (self : QSSolver) (pos : list float64) (eptm : Sheet)
  : result bool :=
  if rearange self then
    if length (coords eptm) =? 0 then Raise ZeroDivisionError
    else Ok (negb (Nat.div (length pos) (length (coords eptm)) =? length (active_verts eptm)))
  else Ok false.

Definition _opt_energy (self : QSSolver) (pos : list float64) (eptm : Sheet)
  (geom : Geom) (model : Model) : call float64 :=
  match topology_changed self pos eptm with
  | Raise e => (eptm, Raise e)
  | Ok true => (eptm, Raise TopologyChangeError)
  | Ok false =>
      match set_pos self eptm geom pos with
      | (e1, Raise e) => (e1, Raise e)
      | (e1, Ok _) => (e1, compute_energy model e1)
      end
  end.

Definition _opt_grad (self : QSSolver) (pos : list float64) (eptm : Sheet)
  (geom : Geom) (model : Model) : call (list float64) :=
  match topology_changed self pos eptm with
  | Raise e => (eptm, Raise e)
  | Ok true => (eptm, Raise TopologyChangeError)
  | Ok false =>
      (eptm,
       grad_i <- compute_gradient model eptm ;;
       rows <- Frame.loc grad_i (active_verts eptm) ;;
       Ok (concat rows))
  end.

(** one run of the optimizer over the callbacks; an exception raised by a
    callback leaves through [minimize] *)
Fixpoint run_optimizer (self : QSSolver) (o : Optimizer OptimizeResult)
  (eptm : Sheet) (geom : Geom) (model : Model) : call OptimizeResult :=
  match o with
  | Return res => (eptm, Ok res)
  | Abort e => (eptm, Raise e)
  | EvalFun x k =>
      match _opt_energy self x eptm geom model with
      | (e1, Ok v) => run_optimizer self (k v) e1 geom model
      | (e1, Raise e) => (e1, Raise e)
      end
  | EvalJac x k =>
      match _opt_grad self x eptm geom model with
      | (e1, Ok g) => run_optimizer self (k g) e1 geom model
      | (e1, Raise e) => (e1, Raise e)
      end
  end.

(** the body of the [while True] loop up to its [except] clause: read
    [pos0] from the mesh and run the optimizer from it *)
Definition attempt (self : QSSolver) (eptm : Sheet) (geom : Geom) (model : Model)
  (kwargs : Settings) : call OptimizeResult :=
  match active_positions eptm with
  | Raise e => (eptm, Raise e)
  | Ok pos0 => run_optimizer self (minimize kwargs pos0) eptm geom model
  end.

(** [QSSolver._minimize]; [fuel] bounds the number of turns of the
    [while True] loop, [None] when it is used up *)
Fixpoint _minimize (fuel : nat) (self : QSSolver) (eptm : Sheet) (geom : Geom)
  (model : Model) (kwargs : Settings) : option (call OptimizeResult) :=
  match fuel with
  | O => None
  | S n =>
      match attempt self eptm geom model kwargs with
      | (e1, Raise TopologyChangeError) => _minimize n self e1 geom model kwargs
      | out => Some out
      end
  end.

(** [QSSolver.find_energy_min] *)
Definition find_energy_min (fuel : nat) (self : QSSolver) (eptm : Sheet)
  (geom : Geom) (model : Model) (minimize_kw : Settings)
  : option (call OptimizeResult) :=
  let settings := update_settings quasistatic_settings minimize_kw in
  _minimize fuel self eptm geom model settings.

End Solver.

End Quasistatic.

(** ** Meshes used as concrete inputs *)

Module Examples.

Import Collisions.

Definition P (a b c : Q) : Vec3 := mkVec3 (Fin a) (Fin b) (Fin c).

(** the position of a vertex in a vertex table (the origin when absent) *)
Definition pos_of (df : list (vert_id * Vec3)) (v : vert_id) : Vec3 :=
  match Frame.loc1 df v with
  | Ok p => p
  | Raise _ => P 0 0 0
  end.

(** an edge whose source columns are those of the vertex table *)
Definition E (df : list (vert_id * Vec3)) (s t f : nat) : EdgeRow :=
  let p := pos_of df s in
  mkEdge s t f (vx p) (vy p) (vz p).

(** three triangles, faces 0, 1 and 2, on the vertices 0-2, 3-5 and 6-8 *)
Definition triangles (df : list (vert_id * Vec3)) : list (edge_id * EdgeRow) :=
  [(0, E df 0 1 0); (1, E df 1 2 0); (2, E df 2 0 0);
   (3, E df 3 4 1); (4, E df 4 5 1); (5, E df 5 3 1);
   (6, E df 6 7 2); (7, E df 7 8 2); (8, E df 8 6 2)]%nat.

(** Before the step the three faces lie side by side along x: face 0 on
    [0, 1], face 1 on [2, 3], face 2 on [4, 5]. *)
Definition side_by_side : list (vert_id * Vec3) :=
  [(0, P 0 0 0); (1, P 1 0 0); (2, P 0 1 0);
   (3, P 2 0 0); (4, P 3 0 0); (5, P 2 1 0);
   (6, P 4 0 0); (7, P 5 0 0); (8, P 4 1 0)]%nat.

(** After the step face 1 is stretched to [1/2, 9/2] and overlaps both
    neighbours, which have not moved. *)
Definition stretched : list (vert_id * Vec3) :=
  [(0, P 0 0 0); (1, P 1 0 0); (2, P 0 1 0);
   (3, P (1 # 2) 0 0); (4, P (9 # 2) 0 0); (5, P 2 1 0);
   (6, P 4 0 0); (7, P 5 0 0); (8, P 4 1 0)]%nat.

Definition sheet_of (df : list (vert_id * Vec3)) : Sheet :=
  mkSheet df (triangles df) xyz [] None.

Definition squeezed_sheet : Sheet := sheet_of stretched.

(** edge 0 of face 0 crosses edge 3 of face 1, edge 4 of face 1 crosses
    edge 6 of face 2 *)
Definition squeezed_pairs : list (edge_id * edge_id) := [(0, 3); (4, 6)]%nat.

Definition squeezed_boxes : result CollidingBoxes :=
  init squeezed_sheet (mkBuffer xyz side_by_side) squeezed_pairs.





(** Face 0 goes down and to the right, from [0, 1] x [2, 3] onto the
    corner of face 1, at rest on [2, 3] x [0, 1]: it ends on
    [3/2, 5/2] x [1/2, 3/2]. *)
Definition before_corner : list (vert_id * Vec3) :=
  [(0, P 0 2 0); (1, P 1 2 0); (2, P 0 3 0);
   (3, P 2 0 0); (4, P 3 0 0); (5, P 2 1 0);
   (6, P 7 0 0); (7, P 10 0 0); (8, P 7 1 0)]%nat.

Definition after_corner : list (vert_id * Vec3) :=
  [(0, P (3 # 2) (1 # 2) 0); (1, P (5 # 2) (1 # 2) 0); (2, P (3 # 2) (3 # 2) 0);
   (3, P 2 0 0); (4, P 3 0 0); (5, P 2 1 0);
   (6, P 7 0 0); (7, P 10 0 0); (8, P 7 1 0)]%nat.

Definition corner_boxes : result CollidingBoxes :=
  init (sheet_of after_corner) (mkBuffer xyz before_corner) [(0, 5)]%nat.

(** a step that moves nothing: the faces overlap as before it *)
Definition still_boxes : result CollidingBoxes :=
  init squeezed_sheet (mkBuffer xyz stretched) squeezed_pairs.

(** the boxes of a result, the empty ones when the construction raised *)
Definition force (b : result CollidingBoxes) : CollidingBoxes :=
  match b with
  | Ok x => x
  | Raise _ => mkBoxes (sheet_of []) [] [] []
  end.

(** *** Collaborators of the solver *)

Import Quasistatic.

(** a geometry that writes the position of its source vertex in the
    columns of every edge *)
Definition refresh (sh : Sheet) : Sheet :=
  mkSheet (vert_df sh)
          (map (fun er => (fst er,
                           E (vert_df sh) (srce (snd er)) (trgt (snd er)) (face (snd er))))
               (edge_df sh))
          (coords sh) (active_verts sh) (shyness_setting sh).

Definition refresh_geom : Geom := mkGeom refresh.

(** a detector that reports the two crossings of the squeezed mesh as soon
    as vertex 3 lies left of vertex 1 *)
Definition toy_detector : Intersection :=
  {| self_intersections := fun sh =>
       if ltb (vx (pos_of (vert_df sh) 3%nat)) (vx (pos_of (vert_df sh) 1%nat))
       then squeezed_pairs else [] |}.

(** the length along x of the edge from vertex 3 to vertex 4, read in the
    columns of the edge table *)
Definition edge34_length (sh : Sheet) : float64 :=
  match Frame.loc1 (edge_df sh) 3%nat, Frame.loc1 (edge_df sh) 4%nat with
  | Ok e3, Ok e4 => sub (sx e4) (sx e3)
  | _, _ => inf
  end.

(** A type-1 operator in the small: when the edge table says that the edge
    from 3 to 4 is shorter than 7/2, vertex 4 is merged into vertex 3 (it
    leaves the active vertices) and the geometry is refreshed. *)
Definition collapse_short (sh : Sheet) (geom : Geom) : Sheet :=
  if ltb (edge34_length sh) (Fin (7 # 2)) && mem_nat 4%nat (active_verts sh) then
    update_all geom
      (mkSheet (vert_df sh) (edge_df sh) (coords sh)
               (filter (fun v => negb (v =? 4)%nat) (active_verts sh))
               (shyness_setting sh))
  else sh.

Definition toy_topology : Topology :=
  {| type1_transitions := collapse_short;
     type3_transitions := fun sh _ => sh |}.

(** an optimizer that evaluates the objective and the jacobian at its
    starting point and stops there *)
Definition one_step : Scipy :=
  {| OptimizeResult := list float64 * float64;
     Settings := unit;
     minimize := fun _ x0 =>
       EvalFun x0 (fun v => EvalJac x0 (fun _ => Return (x0, v)));
     quasistatic_settings := tt;
     update_settings := fun _ kw => kw |}.

(** a model with no energy at all *)
Definition flat_model : Model :=
  mkModel (fun _ => Ok zero)
          (fun sh => Ok (map (fun vr => (fst vr, [zero; zero; zero])) (vert_df sh))).

(** the three faces side by side, vertices 3 and 4 free to move *)
Definition relaxed_sheet : Sheet :=
  mkSheet side_by_side (triangles side_by_side) xyz [3; 4]%nat None.

(** the trial vector that stretches face 1 over its neighbours *)
Definition stretch_trial : list float64 :=
  [Fin (1 # 2); Fin 0; Fin 0; Fin (9 # 2); Fin 0; Fin 0].

(** the trial vector that leaves vertices 3 and 4 where they are *)
Definition rest_trial : list float64 :=
  [Fin 2; Fin 0; Fin 0; Fin 3; Fin 0; Fin 0].

End Examples.

(** ** Words of the specification *)

Module Spec.

Import Collisions.

(** the rational held by a finite float *)
Definition fin_val (a : float64) : Q :=
  match a with
  | Fin q => q
  | _ => 0
  end.

(** every entry of a bounding box is a finite number *)
Definition finite_box (b : BBox) : bool :=
  forallb (fun c => isfinite (get c (bb_l b)) && isfinite (get c (bb_h b))) xyz.





(** "and symmetrically in the mirror case": whenever the sign of
    [bb0.l - bb1.h] changed on an axis, the source vertices of face 0 get
    a lower bound and those of face 1 an upper bound on that axis *)
Definition mirror_as_stated (self : CollidingBoxes) (f0 f1 : face_id)
  (shyness : float64) : Prop :=
  forall bb0c bb1c bb0p bb1p : BBox,
    _face_bbox (map spoint (face_edges (sheet self) f0)) = Ok bb0c ->
    _face_bbox (map spoint (face_edges (sheet self) f1)) = Ok bb1c ->
    _face_bbox (face_buffer self f0) = Ok bb0p ->
    _face_bbox (face_buffer self f1) = Ok bb1p ->
    forall c : coord,
      sign_change bb1c bb0c bb1p bb0p c = true ->
      exists lower upper : PlaneFrame,
        _collision_plane self (f0, f1) shyness = Ok (Some (lower, upper)) /\
        pf_index lower = map srce (face_edges (sheet self) f0) /\
        pf_index upper = map srce (face_edges (sheet self) f1) /\
        In c (map fst (pf_columns lower)) /\
        In c (map fst (pf_columns upper)).

(** a face pair for which a collision plane was found *)
Definition plane_found (lim : result (option (PlaneFrame * PlaneFrame))) : Prop :=
  exists lower upper : PlaneFrame, lim = Ok (Some (lower, upper)).

(** a face pair skipped through the warning branch *)
Definition skipped (lim : result (option (PlaneFrame * PlaneFrame))) : Prop :=
  lim = Ok None.

(** the faces of the edges of a pair, read in the edge table *)
Definition owners (sh : Sheet) (a b : face_id) (p : edge_id * edge_id) : Prop :=
  exists r1 r2 : EdgeRow,
    Frame.loc1 (edge_df sh) (fst p) = Ok r1 /\
    Frame.loc1 (edge_df sh) (snd p) = Ok r2 /\
    face r1 = a /\ face r2 = b.







(** every coordinate the collision resolver reads is a finite number: the
    source columns of the edge table and the rows of the buffer *)
Definition finite_vec (p : Vec3) : bool :=
  forallb (fun c => isfinite (get c p)) xyz.

Definition finite_mesh (self : CollidingBoxes) : bool :=
  forallb (fun er => finite_vec (spoint (snd er))) (edge_df (sheet self)) &&
  forallb (fun er => finite_vec (snd er)) (edge_buffer self).


Import Quasistatic.

Section SolverWords.

Context {detector : Intersection} {topology : Topology} {scipy : Scipy}.

(** [n] optimizer runs in a row, each of them interrupted by a topology
    change, lead from the mesh [e] to the mesh [e'] *)
Inductive interrupted_runs (self : QSSolver) (geom : Geom) (model : Model)
  (kwargs : Settings) : nat -> Sheet -> Sheet -> Prop :=
| runs_none (e : Sheet) : interrupted_runs self geom model kwargs 0 e e
| runs_more (n : nat) (e e1 e' : Sheet) :
    attempt self e geom model kwargs = (e1, Raise TopologyChangeError) ->
    interrupted_runs self geom model kwargs n e1 e' ->
    interrupted_runs self geom model kwargs (S n) e e'.

(** the optimizer run [o] on the mesh [e] gets through its first
    callbacks, none of which raises, and comes to the request [o'] on the
    mesh [e'] *)
Inductive proceeds (self : QSSolver) (geom : Geom) (model : Model)
  : Optimizer OptimizeResult -> Sheet -> Optimizer OptimizeResult -> Sheet -> Prop :=
| proceeds_here (o : Optimizer OptimizeResult) (e : Sheet) :
    proceeds self geom model o e o e
| proceeds_fun (x : list float64) (k : float64 -> Optimizer OptimizeResult)
    (e e1 : Sheet) (v : float64) (o' : Optimizer OptimizeResult) (e' : Sheet) :
    _opt_energy self x e geom model = (e1, Ok v) ->
    proceeds self geom model (k v) e1 o' e' ->
    proceeds self geom model (EvalFun x k) e o' e'
| proceeds_jac (x : list float64) (k : list float64 -> Optimizer OptimizeResult)
    (e e1 : Sheet) (g : list float64) (o' : Optimizer OptimizeResult) (e' : Sheet) :
    _opt_grad self x e geom model = (e1, Ok g) ->
    proceeds self geom model (k g) e1 o' e' ->
    proceeds self geom model (EvalJac x k) e o' e'.

(** the optimizer asks for the energy or for the gradient at the vector
    [x] *)
Definition requests (o : Optimizer OptimizeResult) (x : list float64) : Prop :=
  (exists k, o = EvalFun x k) \/ (exists k, o = EvalJac x k).


End SolverWords.

End Spec.

(** ** Well-formed meshes *)

Module Wellformed.

Import Collisions.

(** the source vertex of every edge has a row in the vertex table *)
Definition sources_known (sh : Sheet) : bool :=
  forallb (fun er => mem_nat (srce (snd er)) (Frame.index (vert_df sh))) (edge_df sh).

(** the sheet is three-dimensional: ["x"], ["y"] and ["z"] are among its
    coordinate columns *)
Definition has_xyz (sh : Sheet) : bool :=
  forallb (fun c => mem_coord c (coords sh)) xyz.

(** the row holds a finite bound on one of the columns [cds] *)
Definition has_finite (cds : list coord) (r : Vec3) : bool :=
  negb (count_finite cds r =? 0).

(** what an assignment of [rows] to the columns [cds] leaves in the row
    of the vertex [v], which held [cur] *)
Definition written (cds : list coord) (v : vert_id) (rows : list (vert_id * Vec3))
  (cur : Vec3) : Vec3 :=
  fold_left (fun acc kr => if fst kr =? v then write_cols cds (snd kr) acc else acc)
            rows cur.


(** the labels of the vertex table are distinct *)
Definition unique_verts (sh : Sheet) : Prop := NoDup (Frame.index (vert_df sh)).

(** the source vertex of every edge has a row in the snapshot *)
Definition sources_buffered (sh : Sheet) (buf : PositionBuffer) : bool :=
  forallb (fun er => mem_nat (srce (snd er)) (Frame.index (pb_rows buf))) (edge_df sh).

(** every edge of the intersecting pairs is a label of the edge table *)
Definition edges_known (sh : Sheet) (pairs : list (edge_id * edge_id)) : bool :=
  forallb (fun e => mem_nat e (Frame.index (edge_df sh))) (flatten pairs).

(** a plane whose frames fit the tables *)
Definition fits (cds : list coord) (verts : list vert_id)
  (lim : result (option (PlaneFrame * PlaneFrame))) : Prop :=
  lim = Ok None \/
  exists lo up : PlaneFrame,
    lim = Ok (Some (lo, up)) /\
    incl (pf_index lo) verts /\ incl (pf_index up) verts /\
    (forall c, In c (map fst (pf_columns lo)) -> In c cds) /\
    (forall c, In c (map fst (pf_columns up)) -> In c cds).

(** between the snapshot and the mesh, the low side of face [f1] went
    over the high side of face [f0] on some axis: the test
    [any(sign_change_l1h0)] of [_collision_plane] for the pair [(f0, f1)] *)
Definition crosses (self : CollidingBoxes) (f0 f1 : face_id) : bool :=
  match _face_bbox (map spoint (face_edges (sheet self) f0)),
        _face_bbox (map spoint (face_edges (sheet self) f1)),
        _face_bbox (face_buffer self f0),
        _face_bbox (face_buffer self f1) with
  | Ok bb0c, Ok bb1c, Ok bb0p, Ok bb1p =>
      existsb (sign_change bb0c bb1c bb0p bb1p) xyz
  | _, _, _, _ => false
  end.

(** the vertex [v] is an end of an edge of the intersecting pairs *)
Definition endpoint (sh : Sheet) (pairs : list (edge_id * edge_id)) (v : vert_id) : Prop :=
  exists (e : edge_id) (r : EdgeRow),
    In e (flatten pairs) /\ Frame.loc1 (edge_df sh) e = Ok r /\
    (v = srce r \/ v = trgt r).

(** the bounding box of the face [f] is where it was in the snapshot *)
Definition unmoved (self : CollidingBoxes) (f : face_id) : Prop :=
  exists b : BBox,
    _face_bbox (map spoint (face_edges (sheet self) f)) = Ok b /\
    _face_bbox (face_buffer self f) = Ok b.

End Wellformed.

(** ** Two faces that exchange their places *)

Module Exchange.

Import Collisions Examples.

(** face 0 on [0, 1] x [4, 5] and face 1 on [2, 3] x [0, 1] *)
Definition before_swap : list (vert_id * Vec3) :=
  [(0, P 0 4 0); (1, P 1 4 0); (2, P 0 5 0);
   (3, P 2 0 0); (4, P 3 0 0); (5, P 2 1 0);
   (6, P 7 0 0); (7, P 10 0 0); (8, P 7 1 0)]%nat.

(** each of the two faces where the other was *)
Definition after_swap : list (vert_id * Vec3) :=
  [(0, P 2 0 0); (1, P 3 0 0); (2, P 2 1 0);
   (3, P 0 4 0); (4, P 1 4 0); (5, P 0 5 0);
   (6, P 7 0 0); (7, P 10 0 0); (8, P 7 1 0)]%nat.

Definition swap_boxes : result CollidingBoxes :=
  init (sheet_of after_swap) (mkBuffer xyz before_swap) [(0, 3)]%nat.

End Exchange.
(** * Properties *)

Unset Implicit Arguments.

(** ** Arithmetic of the doubles *)

Module NPFacts.

Import Collisions Spec.


Lemma Qsgn_Eq (q : Q) : Qsgn q = Eq <-> q == 0.
Proof. unfold Qsgn. symmetry. apply Qeq_alt. Qed.


Lemma ltb_Fin (p q : Q) : ltb (Fin p) (Fin q) = true <-> p < q.
Proof.
  unfold ltb. rewrite Qlt_alt.
  destruct (p ?= q); split; intro H; try reflexivity; discriminate.
Qed.

Lemma pow2_nonneg (e : Z) : 0 <= pow2 e.
Proof.
  unfold pow2. destruct (0 <=? e)%Z eqn:E.
  - unfold Qle. simpl. rewrite Z.mul_1_r. apply Z.pow_nonneg. lia.
  - unfold Qle. simpl. lia.
Qed.

(** rounding a positive number gives a double that is not negative *)
Lemma round_pos_sign (n d : positive) :
  round_pos n d = PInf \/ exists v : Q, round_pos n d = Fin v /\ 0 <= v.
Proof.
  unfold round_pos.
  set (e := Z.max (ilog2 n d - 52) (-1074)).
  set (num := (if (e <? 0)%Z then (Z.pos n * 2 ^ (- e))%Z else Z.pos n)).
  set (den := (if (e <? 0)%Z then Z.pos d else (Z.pos d * 2 ^ e)%Z)).
  assert (Hnum : (0 <= num)%Z).
  { unfold num. destruct (e <? 0)%Z; [| lia].
    apply Z.mul_nonneg_nonneg; [lia | apply Z.pow_nonneg; lia]. }
  assert (Hden : (0 < den)%Z).
  { unfold den. destruct (e <? 0)%Z eqn:E; [lia |].
    apply Z.ltb_ge in E. apply Z.mul_pos_pos; [lia |].
    apply Z.pow_pos_nonneg; lia. }
  assert (Hm0 : (0 <= num / den)%Z) by (apply Z.div_pos; assumption).
  set (m := match (2 * (num mod den) ?= den)%Z with
            | Eq => if Z.even (num / den) then (num / den)%Z else (num / den + 1)%Z
            | Lt => (num / den)%Z
            | Gt => (num / den + 1)%Z
            end).
  assert (Hm : (0 <= m)%Z).
  { unfold m. destruct (2 * (num mod den) ?= den)%Z; [| lia | lia].
    destruct (Z.even (num / den)); lia. }
  destruct (Qle_bool (pow2 1024) (Qred (inject_Z m * pow2 e))); [left; reflexivity |].
  right. eexists. split; [reflexivity |].
  rewrite Qred_correct. apply Qmult_le_0_compat; [| apply pow2_nonneg].
  unfold Qle. simpl. lia.
Qed.

(** rounding keeps the sign: a negative double comes from a negative
    number, a positive one from a positive number *)
Lemma round64_negative (q : Q) : ltb (round64 q) zero = true -> q < 0.
Proof.
  destruct q as [a b]. unfold round64. simpl Qnum. simpl Qden.
  destruct a as [| n | n].
  - discriminate.
  - destruct (round_pos_sign n b) as [-> | [v [-> Hv]]]; [discriminate |].
    intro H. apply ltb_Fin in H. lra.
  - intros _. unfold Qlt. simpl. lia.
Qed.


(** [np.sign(a) < 0] says that [a] is negative *)
Lemma sign_ltb (a : float64) : ltb (sign a) zero = ltb a zero.
Proof.
  destruct a as [| | q |]; try reflexivity.
  unfold sign, zero, ltb, Qsgn. destruct (q ?= 0); reflexivity.
Qed.






Lemma isfinite_Fin (a : float64) : isfinite a = true -> a = Fin (fin_val a).
Proof. destruct a; simpl; intro; try discriminate; reflexivity. Qed.




(** from 2^20 upward, half the default shyness is less than half the
    spacing of the doubles, and adding it changes nothing *)
Lemma shyness_absorbed :
  add (Fin 1048576) (div default_shyness two) = Fin 1048576 /\
  sub (Fin 1048576) (div default_shyness two) = Fin 1048576.
Proof. split; vm_compute; reflexivity. Qed.

End NPFacts.

(** ** The collision plane of a face pair *)

Module PlaneFacts.

Import Collisions Spec NPFacts.

Lemma get_vec_map2 (f : float64 -> float64 -> float64) (a b : Vec3) (c : coord) :
  get c (vec_map2 f a b) = f (get c a) (get c b).
Proof. destruct c; reflexivity. Qed.




Lemma in_xyz (c : coord) : In c xyz.
Proof. destruct c; simpl; auto. Qed.

Lemma bound_columns_fst (offset : float64 -> float64) (ax : list coord)
  (plane : coord -> float64) :
  map fst (bound_columns offset ax plane) = ax.
Proof.
  unfold bound_columns. rewrite map_map. simpl. apply map_id.
Qed.



End PlaneFacts.

Module Claim3.

Import Collisions Spec NPFacts PlaneFacts Examples.

(** C3, as the specification states it, fails on a face that comes onto
    the corner of another one: face 0 has gone over the low side of face 1
    along x, and face 1 over the low side of face 0 along y.  Both sign
    tests fire; the code takes the first one and never looks at the
    second, so that on the axis y of the mirror case no vertex gets a
    bound, and the source vertices of face 0 get upper bounds only. *)
Lemma mirror_as_stated_counterexample :
  ~ mirror_as_stated (force corner_boxes) 0%nat 1%nat default_shyness.
Proof.
  intro H.
  edestruct (H _ _ _ _ eq_refl eq_refl eq_refl eq_refl cy)
    as [lower [upper [Hrun [Hl _]]]]; [vm_compute; reflexivity |].
  vm_compute in Hrun. injection Hrun as <- _.
  vm_compute in Hl. discriminate.
Qed.



End Claim3.

(** ** The loop of [solve_collisions] *)

Module LoopFacts.

Import Collisions Spec.

Lemma write1_length {A : Type} (f : A -> A) (k : nat) (df : list (nat * A)) :
  length (Frame.write1 f k df) = length df.
Proof. unfold Frame.write1. apply length_map. Qed.

Lemma assign_length {A : Type} (w : A -> A -> A) (rows df : list (nat * A)) :
  length (Frame.assign w df rows) = length df.
Proof.
  unfold Frame.assign. revert df.
  induction rows as [| kr rows IH]; intro df; simpl.
  - reflexivity.
  - rewrite IH. apply write1_length.
Qed.

Lemma loc_nonempty {A : Type} (df : list (nat * A)) (ks : list nat) (rows : list A) :
  Frame.loc df ks = Ok rows -> ks <> [] -> df <> [].
Proof.
  intros Hloc Hks Hdf. subst df.
  destruct ks as [| k ks]; [apply Hks; reflexivity |].
  simpl in Hloc. discriminate.
Qed.

Lemma merge_bounds_nonempty (op : float64 -> float64 -> float64) (cds : list coord)
  (table table' : list (vert_id * Vec3)) (b : PlaneFrame) :
  merge_bounds op cds table b = Ok table' ->
  pf_index b <> [] -> table' <> [].
Proof.
  unfold merge_bounds. intros Hm Hidx.
  destruct (forallb _ _); [| discriminate].
  destruct (Frame.loc table (pf_index b)) as [rows |] eqn:Hloc; [| discriminate].
  simpl in Hm. injection Hm as <-.
  pose proof (loc_nonempty _ _ _ Hloc Hidx) as Hne.
  intro Hempty. apply Hne.
  apply length_zero_iff_nil. rewrite <- (assign_length (write_cols (map fst (pf_columns b)))
    (combine (pf_index b) (map (merge_row op (pf_columns b)) rows)) table).
  rewrite Hempty. reflexivity.
Qed.

(** a loop over skipped pairs only leaves its state alone *)
Lemma fold_limits_skipped (cds : list coord)
  (limits : list (result (option (PlaneFrame * PlaneFrame)))) (st : loop_state) :
  Forall skipped limits -> fold_limits cds limits st = Ok st.
Proof.
  induction 1 as [| lim limits Hlim _ IH]; simpl.
  - reflexivity.
  - rewrite Hlim. simpl. exact IH.
Qed.

(** When the loop ends without raising, either every pair was skipped and
    the state is the initial one, or a plane was found, the flag is set and
    the tables are not empty. *)
Lemma fold_limits_outcome (cds : list coord)
  (limits : list (result (option (PlaneFrame * PlaneFrame)))) :
  Forall (fun lim => forall lo up, lim = Ok (Some (lo, up)) -> pf_index up <> []) limits ->
  forall (pf : bool) (lb ub : list (vert_id * Vec3)) (pf' : bool)
         (lb' ub' : list (vert_id * Vec3)),
    fold_limits cds limits (pf, lb, ub) = Ok (pf', lb', ub') ->
    (Forall skipped limits /\ pf' = pf /\ lb' = lb /\ ub' = ub) \/
    (Exists plane_found limits /\ pf' = true /\ ub' <> []).
Proof.
  induction 1 as [| lim limits Hlim _ IH]; intros pf lb ub pf' lb' ub' Hfold.
  - simpl in Hfold. injection Hfold as <- <- <-. left. repeat split. constructor.
  - simpl in Hfold.
    destruct lim as [[[lo up] |] | e]; simpl in Hfold; [| | discriminate].
    + right.
      destruct (merge_bounds maximum cds lb lo) as [lb1 |] eqn:Hlo;
        simpl in Hfold; [| discriminate].
      destruct (merge_bounds minimum cds ub up) as [ub1 |] eqn:Hup;
        simpl in Hfold; [| discriminate].
      assert (Hhead : plane_found (Ok (Some (lo, up)))) by (exists lo, up; reflexivity).
      destruct (IH _ _ _ _ _ _ Hfold) as [[_ [Hpf [_ Hub]]] | [_ [Hpf Hub]]].
      * split; [left; exact Hhead |]. split; [exact Hpf |].
        subst ub'. exact (merge_bounds_nonempty _ _ _ _ _ Hup (Hlim lo up eq_refl)).
      * split; [left; exact Hhead |]. split; assumption.
    + destruct (IH _ _ _ _ _ _ Hfold) as [[Hall Hrest] | [Hex Hrest]].
      * left. split; [constructor; [reflexivity | exact Hall] | exact Hrest].
      * right. split; [right; exact Hex | exact Hrest].
Qed.

Lemma skipped_not_found (limits : list (result (option (PlaneFrame * PlaneFrame)))) :
  Forall skipped limits -> Exists plane_found limits -> False.
Proof.
  intros Hall Hex. apply Exists_exists in Hex. destruct Hex as [lim [Hin [lo [up Heq]]]].
  rewrite Forall_forall in Hall. specialize (Hall lim Hin).
  unfold skipped in Hall. congruence.
Qed.

Lemma min_axis0_nonempty (points : list Vec3) (v : Vec3) :
  min_axis0 points = Ok v -> points <> [].
Proof. destruct points; simpl; intro; [discriminate | discriminate]. Qed.

Lemma face_bbox_nonempty (points : list Vec3) (b : BBox) :
  _face_bbox points = Ok b -> points <> [].
Proof.
  unfold _face_bbox. destruct (min_axis0 points) as [v |] eqn:Hmin; [| discriminate].
  intros _. exact (min_axis0_nonempty _ _ Hmin).
Qed.

Lemma map_nonempty {A B : Type} (f : A -> B) (l : list A) : map f l <> [] -> l <> [].
Proof. destruct l; simpl; intros H E; [apply H; reflexivity | discriminate]. Qed.

Lemma map_nonempty' {A B : Type} (f : A -> B) (l : list A) : l <> [] -> map f l <> [].
Proof. destruct l; simpl; intros H E; [apply H; reflexivity | discriminate]. Qed.

(** the frames of a plane are indexed by the source vertices of faces that
    own at least one edge *)
Lemma collision_plane_index (self : CollidingBoxes) (fp : face_id * face_id)
  (shyness : float64) (lo up : PlaneFrame) :
  _collision_plane self fp shyness = Ok (Some (lo, up)) ->
  pf_index lo <> [] /\ pf_index up <> [].
Proof.
  destruct fp as [f0 f1]. unfold _collision_plane.
  destruct (_face_bbox (map spoint (face_edges (sheet self) f0))) as [b0c |] eqn:E0;
    [| discriminate].
  destruct (_face_bbox (map spoint (face_edges (sheet self) f1))) as [b1c |] eqn:E1;
    [| discriminate].
  destruct (_face_bbox (face_buffer self f0)) as [b0p |]; [| discriminate].
  destruct (_face_bbox (face_buffer self f1)) as [b1p |]; [| discriminate].
  cbv beta iota delta [bind].
  assert (N0 : map srce (face_edges (sheet self) f0) <> [])
    by (apply map_nonempty'; exact (map_nonempty _ _ (face_bbox_nonempty _ _ E0))).
  assert (N1 : map srce (face_edges (sheet self) f1) <> [])
    by (apply map_nonempty'; exact (map_nonempty _ _ (face_bbox_nonempty _ _ E1))).
  destruct (existsb _ xyz).
  - intro Heq. injection Heq as <- <-. simpl. split; assumption.
  - destruct (existsb _ xyz); [| discriminate].
    intro Heq. injection Heq as <- <-. simpl. split; assumption.
Qed.

Lemma get_limits_index (self : CollidingBoxes) (shyness : float64) :
  Forall (fun lim => forall lo up, lim = Ok (Some (lo, up)) -> pf_index up <> [])
         (get_limits self shyness).
Proof.
  unfold get_limits. apply Forall_forall. intros lim Hin lo up Heq.
  apply in_map_iff in Hin. destruct Hin as [fp [Hfp _]]. rewrite <- Hfp in Heq.
  exact (proj2 (collision_plane_index _ _ _ _ _ Heq)).
Qed.

End LoopFacts.

Module Claim7.

Import Collisions Spec LoopFacts Examples.

(** C7.  When no face pair yields a collision plane (every pair is skipped
    through the warning branch, or there is no pair at all),
    [solve_collisions] raises nothing, hands back 0 and leaves the mesh,
    hence every vertex position, as it was. *)
Theorem no_plane_no_change (self : CollidingBoxes) (shyness : float64) :
  Forall skipped (get_limits self shyness) ->
  solve_collisions self shyness = Ok (sheet self, RetInt 0).
Proof.
  intro Hall. unfold solve_collisions, aggregate_bounds.
  rewrite (fold_limits_skipped _ _ _ Hall).
  cbv beta iota delta [bind].
  destruct (length _ =? 0); reflexivity.
Qed.

(** C7 on a step that moved nothing (both pairs are skipped) and on a mesh
    without intersecting edges (no pair). *)
Lemma no_plane_no_change_witness :
  solve_collisions (force still_boxes) default_shyness
    = Ok (squeezed_sheet, RetInt 0) /\
  solve_collisions (force (init squeezed_sheet (mkBuffer xyz side_by_side) []))
                   default_shyness
    = Ok (squeezed_sheet, RetInt 0).
Proof.
  split.
  - apply (no_plane_no_change (force still_boxes) default_shyness).
    vm_compute. repeat constructor.
  - apply (no_plane_no_change
             (force (init squeezed_sheet (mkBuffer xyz side_by_side) []))
             default_shyness).
    vm_compute. constructor.
Defined.

End Claim7.

Module Claim10.

Import Collisions Spec LoopFacts Examples.

(** C10.  Whenever [solve_collisions] returns, it returns the integer 0
    exactly when every face pair was skipped, and [None] exactly when a
    collision plane was found for some pair: the caller gets no count of
    the corrections made. *)
Theorem return_value (self : CollidingBoxes) (shyness : float64)
  (sh' : Sheet) (ret : retval) :
  solve_collisions self shyness = Ok (sh', ret) ->
  (ret = RetInt 0 <-> Forall skipped (get_limits self shyness)) /\
  (ret = RetNone <-> Exists plane_found (get_limits self shyness)).
Proof.
  unfold solve_collisions, aggregate_bounds. intro Hrun.
  destruct (fold_limits (coords (sheet self)) (get_limits self shyness)
              (false, bounds_table (colliding_verts self) (neg inf),
               bounds_table (colliding_verts self) inf))
    as [[[pf lb] ub] |] eqn:Hfold; [| discriminate].
  cbv beta iota delta [bind] in Hrun.
  destruct (fold_limits_outcome _ _ (get_limits_index self shyness) _ _ _ _ _ _ Hfold)
    as [[Hall [Hpf _]] | [Hex [Hpf Hub]]].
  - subst pf.
    assert (Hret : ret = RetInt 0).
    { destruct (length ub =? 0); simpl in Hrun; injection Hrun as _ <-; reflexivity. }
    subst ret. split; split; intro Hx.
    + exact Hall.
    + reflexivity.
    + discriminate.
    + exfalso. exact (skipped_not_found _ Hall Hx).
  - subst pf.
    assert (Hlen : (length ub =? 0) = false).
    { apply Nat.eqb_neq. intro Hz. apply Hub. apply length_zero_iff_nil. exact Hz. }
    rewrite Hlen in Hrun. simpl negb in Hrun. cbv iota in Hrun.
    assert (Hret : ret = RetNone).
    { destruct (correction minimum _ _); [| discriminate].
      destruct (correction maximum _ _); [| discriminate].
      cbv beta iota delta [bind] in Hrun. injection Hrun as _ <-. reflexivity. }
    subst ret. split; split; intro Hx.
    + discriminate.
    + exfalso. exact (skipped_not_found _ Hx Hex).
    + exact Hex.
    + reflexivity.
Qed.

(** C10 on the squeezed mesh, where planes are found, and on the step that
    moved nothing, where none is. *)
Lemma return_value_witness :
  (exists sh' : Sheet,
     solve_collisions (force squeezed_boxes) default_shyness = Ok (sh', RetNone) /\
     Exists plane_found (get_limits (force squeezed_boxes) default_shyness)) /\
  (solve_collisions (force still_boxes) default_shyness = Ok (squeezed_sheet, RetInt 0) /\
   Forall skipped (get_limits (force still_boxes) default_shyness)).
Proof.
  split.
  - eexists. split; [vm_compute; reflexivity |].
    eapply (return_value (force squeezed_boxes) default_shyness).
    + vm_compute. reflexivity.
    + reflexivity.
  - split; [vm_compute; reflexivity |].
    eapply (return_value (force still_boxes) default_shyness).
    + vm_compute. reflexivity.
    + reflexivity.
Defined.

End Claim10.

(** ** The colliding face pairs *)

Module FacePairFacts.

Import Collisions Spec.

Lemma list_nat_eqb_eq (a b : list nat) : list_nat_eqb a b = true <-> a = b.
Proof.
  unfold list_nat_eqb. destruct (list_eq_dec Nat.eq_dec a b); split; intro;
    try reflexivity; try assumption; try discriminate; contradiction.
Qed.

Lemma set_of_in (x : list nat) (l : list (list nat)) : In x (set_of l) <-> In x l.
Proof.
  induction l as [| a tl IH]; simpl; [tauto |].
  rewrite filter_In, IH.
  destruct (list_eq_dec Nat.eq_dec x a) as [E | N].
  - subst. tauto.
  - assert (Hn : negb (list_nat_eqb x a) = true).
    { apply negb_true_iff. destruct (list_nat_eqb x a) eqn:E; [| reflexivity].
      apply list_nat_eqb_eq in E. contradiction. }
    rewrite Hn. split; [intros [? | [? _]]; auto | intros [? | ?]; auto].
Qed.

Lemma set_of_nodup (l : list (list nat)) : NoDup (set_of l).
Proof.
  induction l as [| a tl IH]; simpl; constructor.
  - rewrite filter_In. intros [_ Hneq].
    apply negb_true_iff in Hneq.
    assert (list_nat_eqb a a = true) by (apply list_nat_eqb_eq; reflexivity).
    congruence.
  - apply NoDup_filter. exact IH.
Qed.

Lemma unpack_pairs_in (a b : face_id) (l : list (list face_id)) :
  In (a, b) (unpack_pairs l) <-> In [a; b] l.
Proof.
  unfold unpack_pairs. rewrite in_flat_map. split.
  - intros [pair [Hin Hp]].
    destruct pair as [| x [| y [| z tl]]]; simpl in Hp; try contradiction.
    destruct Hp as [Hp | []]. injection Hp as <- <-. exact Hin.
  - intro Hin. exists [a; b]. split; [exact Hin | simpl; auto].
Qed.

Lemma unpack_pairs_nodup (l : list (list face_id)) :
  NoDup l -> NoDup (unpack_pairs l).
Proof.
  induction 1 as [| pair l Hnotin _ IH]; [constructor |].
  change (unpack_pairs (pair :: l))
    with (match pair with [a; b] => [(a, b)] | _ => [] end ++ unpack_pairs l).
  destruct pair as [| x [| y [| z tl]]]; simpl; try exact IH.
  constructor; [| exact IH].
  rewrite unpack_pairs_in. exact Hnotin.
Qed.

Lemma frozenset_pair (a b x y : face_id) :
  frozenset (a, b) = [x; y] <-> a <> b /\ x = Nat.min a b /\ y = Nat.max a b.
Proof.
  unfold frozenset. destruct (a =? b) eqn:E.
  - apply Nat.eqb_eq in E. split; [discriminate | intros [N _]; contradiction].
  - apply Nat.eqb_neq in E. split.
    + intro H. injection H as <- <-. auto.
    + intros [_ [-> ->]]. reflexivity.
Qed.

Lemma flatten_cons (e1 e2 : nat) (tl : list (nat * nat)) :
  flatten ((e1, e2) :: tl) = e1 :: e2 :: flatten tl.
Proof. reflexivity. Qed.

Lemma loc_cons {A : Type} (df : list (nat * A)) (k : nat) (ks : list nat) :
  Frame.loc df (k :: ks)
  = (a <- Frame.loc1 df k ;; r <- Frame.loc df ks ;; Ok (a :: r)).
Proof. reflexivity. Qed.

Lemma face_rows (sh : Sheet) (pairs : list (edge_id * edge_id)) :
  forall rows : list EdgeRow,
    Frame.loc (edge_df sh) (flatten pairs) = Ok rows ->
    forall a b : face_id,
      In (a, b) (reshape2 (map face rows)) <-> exists p, In p pairs /\ owners sh a b p.
Proof.
  induction pairs as [| [e1 e2] tl IH]; intros rows Hloc a b.
  - simpl in Hloc. injection Hloc as <-. simpl. split; [tauto | intros [p [[] _]]].
  - rewrite flatten_cons, !loc_cons in Hloc.
    destruct (Frame.loc1 (edge_df sh) e1) as [r1 |] eqn:H1; [| discriminate].
    destruct (Frame.loc1 (edge_df sh) e2) as [r2 |] eqn:H2; [| discriminate].
    destruct (Frame.loc (edge_df sh) (flatten tl)) as [rows' |] eqn:Htl; [| discriminate].
    cbv beta iota delta [bind] in Hloc. injection Hloc as <-. simpl.
    rewrite (IH rows' eq_refl a b). split.
    + intros [Heq | [p [Hin Hp]]].
      * injection Heq as <- <-. exists (e1, e2). split; [left; reflexivity |].
        exists r1, r2. simpl. auto.
      * exists p. split; [right; exact Hin | exact Hp].
    + intros [p [[Heq | Hin] Hp]].
      * subst p. destruct Hp as [s1 [s2 [G1 [G2 [Fa Fb]]]]]. simpl in G1, G2.
        rewrite H1 in G1. rewrite H2 in G2.
        injection G1 as <-. injection G2 as <-. left. rewrite Fa, Fb. reflexivity.
      * right. exists p. split; assumption.
Qed.

Lemma loc_total {A : Type} (df : list (nat * A)) (ks : list nat) :
  (forall k, In k ks -> exists r, Frame.loc1 df k = Ok r) ->
  exists rows, Frame.loc df ks = Ok rows.
Proof.
  induction ks as [| k tl IH]; intro Hall; simpl.
  - exists []. reflexivity.
  - destruct (Hall k (or_introl eq_refl)) as [r Hr]. rewrite Hr.
    destruct (IH (fun k' Hk' => Hall k' (or_intror Hk'))) as [rows Hrows].
    rewrite Hrows. exists (r :: rows). reflexivity.
Qed.

End FacePairFacts.

Module Claim6.

Import Collisions Spec FacePairFacts Examples.

(** C6.  When every intersecting edge is in the edge table,
    [_get_intersecting_faces] returns a list of face pairs, and the list it
    returns is the set of unordered pairs of distinct faces owning the two
    edges of some intersecting pair: a pair of distinct faces is in the
    list, in one order or the other, exactly when some edge pair maps to
    it; no pair has twice the same face (edge pairs inside one face are
    dropped); no pair is listed twice, in the same or in the opposite
    order. *)
Theorem intersecting_faces_unique (sh : Sheet) (pairs : list (edge_id * edge_id)) :
  ((forall e : edge_id, In e (flatten pairs) ->
      exists r : EdgeRow, Frame.loc1 (edge_df sh) e = Ok r) ->
   exists fps, _get_intersecting_faces sh pairs = Ok fps) /\
  (forall fps : list (face_id * face_id),
     _get_intersecting_faces sh pairs = Ok fps ->
     (forall a b : face_id,
        In (a, b) fps \/ In (b, a) fps <->
        a <> b /\ exists p, In p pairs /\ (owners sh a b p \/ owners sh b a p)) /\
     (forall a b : face_id, In (a, b) fps -> a <> b) /\
     NoDup fps /\
     (forall a b : face_id, In (a, b) fps -> ~ In (b, a) fps)).
Proof.
  split.
  - intro Hall. unfold _get_intersecting_faces.
    destruct (loc_total (edge_df sh) (flatten pairs) Hall) as [rows Hrows].
    rewrite Hrows. simpl. eexists. reflexivity.
  - intros fps Hrun. unfold _get_intersecting_faces in Hrun.
    destruct (Frame.loc (edge_df sh) (flatten pairs)) as [rows |] eqn:Hrows;
      [| discriminate].
    simpl in Hrun. injection Hrun as <-.
    pose proof (face_rows sh pairs rows Hrows) as Hfaces.
    assert (Hin : forall x y : face_id,
               In (x, y) (unpack_pairs (set_of (map frozenset (reshape2 (map face rows)))))
               <-> exists a b, (exists p, In p pairs /\ owners sh a b p) /\
                               a <> b /\ x = Nat.min a b /\ y = Nat.max a b).
    { intros x y. rewrite unpack_pairs_in, set_of_in, in_map_iff. split.
      - intros [[a b] [Hfs Hab]]. exists a, b.
        split; [apply Hfaces; exact Hab | apply frozenset_pair; exact Hfs].
      - intros [a [b [Hp Hfs]]]. exists (a, b).
        split; [apply frozenset_pair; exact Hfs | apply Hfaces; exact Hp]. }
    assert (Hlt : forall x y : face_id,
               In (x, y) (unpack_pairs (set_of (map frozenset (reshape2 (map face rows)))))
               -> (x < y)%nat).
    { intros x y Hxy. apply Hin in Hxy. destruct Hxy as [a [b [_ [N [-> ->]]]]]. lia. }
    split; [| split; [| split]].
    + intros a b. split.
      * intros [Hab | Hba].
        -- pose proof (Hlt _ _ Hab) as Hl. apply Hin in Hab.
           destruct Hab as [a' [b' [[p [Hp Ho]] [N [Ea Eb]]]]].
           split; [lia |]. exists p. split; [exact Hp |].
           destruct (Nat.le_gt_cases a' b') as [Hle | Hgt].
           ++ left. replace a with a' by lia. replace b with b' by lia. exact Ho.
           ++ right. replace a with b' by lia. replace b with a' by lia. exact Ho.
        -- pose proof (Hlt _ _ Hba) as Hl. apply Hin in Hba.
           destruct Hba as [a' [b' [[p [Hp Ho]] [N [Ea Eb]]]]].
           split; [lia |]. exists p. split; [exact Hp |].
           destruct (Nat.le_gt_cases a' b') as [Hle | Hgt].
           ++ right. replace b with a' by lia. replace a with b' by lia. exact Ho.
           ++ left. replace b with b' by lia. replace a with a' by lia. exact Ho.
      * intros [N [p [Hp [Ho | Ho]]]].
        -- destruct (Nat.lt_ge_cases a b) as [Hl | Hg].
           ++ left. apply Hin. exists a, b. split; [exists p; auto |]. lia.
           ++ right. apply Hin. exists a, b. split; [exists p; auto |]. lia.
        -- destruct (Nat.lt_ge_cases a b) as [Hl | Hg].
           ++ left. apply Hin. exists b, a. split; [exists p; auto |]. lia.
           ++ right. apply Hin. exists b, a. split; [exists p; auto |]. lia.
    + intros a b Hab. pose proof (Hlt _ _ Hab). lia.
    + apply unpack_pairs_nodup. apply set_of_nodup.
    + intros a b Hab Hba. pose proof (Hlt _ _ Hab). pose proof (Hlt _ _ Hba). lia.
Qed.

(** C6 on the squeezed mesh: two edge pairs between faces 0 and 1, in the
    two orders, one pair between faces 1 and 2, one pair inside face 0. *)
Lemma intersecting_faces_unique_witness :
  (exists fps, _get_intersecting_faces squeezed_sheet
                 [(0, 3); (3, 0); (4, 6); (1, 2)]%nat = Ok fps) /\
  _get_intersecting_faces squeezed_sheet [(0, 3); (3, 0); (4, 6); (1, 2)]%nat
    = Ok [(0, 1); (1, 2)]%nat /\
  NoDup [(0, 1); (1, 2)]%nat /\
  (forall a b : face_id, In (a, b) [(0, 1); (1, 2)]%nat -> a <> b) /\
  (forall a b : face_id, In (a, b) [(0, 1); (1, 2)]%nat -> ~ In (b, a) [(0, 1); (1, 2)]%nat).
Proof.
  destruct (intersecting_faces_unique squeezed_sheet
              [(0, 3); (3, 0); (4, 6); (1, 2)]%nat) as [Htotal Hset].
  split.
  - apply Htotal. intros e He. simpl in He.
    repeat (destruct He as [<- | He]; [eexists; reflexivity |]).
    destruct He.
  - split; [reflexivity |].
    destruct (Hset [(0, 1); (1, 2)]%nat eq_refl) as [_ [Hself [Hnodup Horder]]].
    split; [exact Hnodup |]. split; [exact Hself | exact Horder].
Defined.

End Claim6.

(** ** Finite meshes give finite bounds *)

Module FiniteFacts.

Import Collisions Spec NPFacts PlaneFacts.

Lemma finite_vec_get (p : Vec3) :
  finite_vec p = true <-> forall c, isfinite (get c p) = true.
Proof.
  unfold finite_vec. rewrite forallb_forall. split.
  - intros H c. apply H. apply in_xyz.
  - intros H c _. apply H.
Qed.

Lemma minimum_finite (a b : float64) :
  isfinite a = true -> isfinite b = true -> isfinite (minimum a b) = true.
Proof.
  destruct a; try discriminate. destruct b; try discriminate. intros _ _.
  unfold minimum. destruct (leb _ _); reflexivity.
Qed.

Lemma maximum_finite (a b : float64) :
  isfinite a = true -> isfinite b = true -> isfinite (maximum a b) = true.
Proof.
  destruct a; try discriminate. destruct b; try discriminate. intros _ _.
  unfold maximum. destruct (leb _ _); reflexivity.
Qed.

Lemma fold_finite (op : float64 -> float64 -> float64) (points : list Vec3) :
  (forall a b, isfinite a = true -> isfinite b = true -> isfinite (op a b) = true) ->
  Forall (fun p => finite_vec p = true) points ->
  forall acc : Vec3,
    finite_vec acc = true ->
    finite_vec (fold_left (vec_map2 op) points acc) = true.
Proof.
  intros Hop. induction 1 as [| p tl Hp _ IH]; intros acc Hacc; simpl.
  - exact Hacc.
  - apply IH. apply finite_vec_get. intro c. rewrite get_vec_map2.
    apply Hop; [exact (proj1 (finite_vec_get acc) Hacc c)
               | exact (proj1 (finite_vec_get p) Hp c)].
Qed.

Lemma face_bbox_finite (points : list Vec3) (b : BBox) :
  Forall (fun p => finite_vec p = true) points ->
  _face_bbox points = Ok b -> finite_box b = true.
Proof.
  intros Hall. unfold _face_bbox.
  destruct points as [| p tl]; [discriminate |].
  simpl. intro H. injection H as <-.
  inversion Hall as [| ? ? Hp Htl]; subst.
  pose proof (fold_finite minimum tl minimum_finite Htl p Hp) as Hmin.
  pose proof (fold_finite maximum tl maximum_finite Htl p Hp) as Hmax.
  unfold finite_box. apply forallb_forall. intros c _. simpl.
  rewrite (proj1 (finite_vec_get _) Hmin c), (proj1 (finite_vec_get _) Hmax c).
  reflexivity.
Qed.

Lemma face_edges_finite (self : CollidingBoxes) (f : face_id) :
  finite_mesh self = true ->
  Forall (fun p => finite_vec p = true) (map spoint (face_edges (sheet self) f)).
Proof.
  unfold finite_mesh. rewrite andb_true_iff, forallb_forall. intros [H _].
  apply Forall_forall. intros p Hp.
  apply in_map_iff in Hp. destruct Hp as [e [<- He]].
  unfold face_edges in He. apply in_map_iff in He. destruct He as [er [<- Her]].
  apply filter_In in Her. exact (H er (proj1 Her)).
Qed.

Lemma face_buffer_finite (self : CollidingBoxes) (f : face_id) :
  finite_mesh self = true ->
  Forall (fun p => finite_vec p = true) (face_buffer self f).
Proof.
  unfold finite_mesh. rewrite andb_true_iff, !forallb_forall. intros [_ H].
  apply Forall_forall. intros p Hp.
  unfold face_buffer in Hp. apply in_map_iff in Hp. destruct Hp as [[er q] [Hq Her]].
  simpl in Hq. subst q.
  apply filter_In in Her. destruct Her as [Her _].
  apply in_combine_r in Her. apply in_map_iff in Her. destruct Her as [eb [<- Heb]].
  exact (H eb Heb).
Qed.

End FiniteFacts.

(** ** Rows of the bounds tables *)

Module BoundsFacts.

Import Collisions Spec.

Lemma coord_eqb_eq (a b : coord) : coord_eqb a b = true <-> a = b.
Proof. destruct a, b; simpl; split; intro; try reflexivity; discriminate. Qed.

Lemma get_set (c c' : coord) (a : float64) (r : Vec3) :
  get c (set c' a r) = if coord_eqb c c' then a else get c r.
Proof. destruct c, c'; reflexivity. Qed.


Lemma write_cols_other (cols : list coord) (new : Vec3) (c : coord) :
  ~ In c cols ->
  forall old : Vec3, get c (write_cols cols new old) = get c old.
Proof.
  unfold write_cols.
  induction cols as [| c' tl IH]; intros Hc old; simpl.
  - reflexivity.
  - rewrite IH by (intro; apply Hc; right; assumption).
    rewrite get_set.
    destruct (coord_eqb c c') eqn:E; [| reflexivity].
    apply coord_eqb_eq in E. exfalso. apply Hc. left. symmetry. exact E.
Qed.


Lemma write1_loc1 {A : Type} (f : A -> A) (k v : nat) (df : list (nat * A)) (r : A) :
  Frame.loc1 df v = Ok r ->
  Frame.loc1 (Frame.write1 f k df) v = Ok (if k =? v then f r else r).
Proof.
  induction df as [| [k' a] tl IH]; simpl; [discriminate |].
  destruct (k' =? k) eqn:Ek; simpl.
  - apply Nat.eqb_eq in Ek. subst k'.
    destruct (k =? v) eqn:Ev.
    + intro H. injection H as <-. reflexivity.
    + exact IH.
  - destruct (k' =? v) eqn:Ev.
    + intro H. injection H as <-.
      apply Nat.eqb_eq in Ev. subst k'.
      rewrite Nat.eqb_sym, Ek. reflexivity.
    + exact IH.
Qed.

Lemma assign_loc1 {A : Type} (w : A -> A -> A) (v : nat) (rows : list (nat * A)) :
  forall (df : list (nat * A)) (r : A),
    Frame.loc1 df v = Ok r ->
    Frame.loc1 (Frame.assign w df rows) v
    = Ok (fold_left (fun acc kr => if fst kr =? v then w (snd kr) acc else acc) rows r).
Proof.
  unfold Frame.assign.
  induction rows as [| kr tl IH]; intros df r Hr; simpl.
  - exact Hr.
  - apply IH. apply write1_loc1. exact Hr.
Qed.









End BoundsFacts.

Module Claim5.

Import Collisions Spec BoundsFacts Examples.




End Claim5.

Module Claim4.

Import Collisions Spec Examples.

(** C4 on the squeezed mesh.  Vertex 3 of face 1 gets a lower bound just
    above 1 from the plane between faces 0 and 1 and an upper bound just
    below 4 from the plane between faces 1 and 2, so that its bounds are
    consistent; it sits at x = 1/2, below its lower bound.  Its row is in
    both correction frames; the frame of the upper bounds is written last
    and puts back min(1/2, upper) = 1/2: the vertex stays outside its
    bounds, although [solve_collisions] found a plane. *)
Theorem clamp_loses_lower_bound :
  exists (found : bool) (lb ub : list (vert_id * Vec3)) (lo up : Vec3)
         (sh' : Sheet) (p : Vec3),
    aggregate_bounds (force squeezed_boxes) default_shyness = Ok (found, lb, ub) /\
    Frame.loc1 lb 3%nat = Ok lo /\
    Frame.loc1 ub 3%nat = Ok up /\
    isfinite (get cx lo) = true /\
    isfinite (get cx up) = true /\
    leb (get cx lo) (get cx up) = true /\
    Frame.loc1 (vert_df squeezed_sheet) 3%nat = Ok (P (1 # 2) 0 0) /\
    solve_collisions (force squeezed_boxes) default_shyness = Ok (sh', RetNone) /\
    Frame.loc1 (vert_df sh') 3%nat = Ok p /\
    get cx p = Fin (1 # 2) /\
    ltb (get cx p) (get cx lo) = true.
Proof.
  do 7 eexists.
  split; [vm_compute; reflexivity |].
  split; [vm_compute; reflexivity |].
  split; [vm_compute; reflexivity |].
  split; [vm_compute; reflexivity |].
  split; [vm_compute; reflexivity |].
  split; [vm_compute; reflexivity |].
  split; [vm_compute; reflexivity |].
  split; [vm_compute; reflexivity |].
  split; [vm_compute; reflexivity |].
  split; vm_compute; reflexivity.
Qed.

End Claim4.

(** ** The collision wrapper *)

Module WrapperFacts.

Import Collisions Quasistatic Examples.

(** [_set_pos] ends on a geometry refresh *)
Lemma set_pos_refreshed (sh : Sheet) (geom : Geom) (pos : list float64)
  (s1 : Sheet) (r : retval) :
  _set_pos sh geom pos = (s1, Ok r) ->
  exists s0 : Sheet, s1 = update_all geom s0.
Proof.
  unfold _set_pos.
  destruct (length (coords sh) =? 0); [discriminate |].
  destruct (negb (_ * _ =? _)); [discriminate |].
  destruct (Frame.loc (vert_df sh) (active_verts sh)); [| discriminate].
  destruct (broadcast_rows _ _); [| discriminate].
  intro H. injection H as <- _. eexists. reflexivity.
Qed.

(** refreshing twice is refreshing once *)
Lemma refresh_idempotent (sh : Sheet) : refresh (refresh sh) = refresh sh.
Proof.
  unfold refresh. simpl. f_equal.
  rewrite map_map. apply map_ext. intro er. reflexivity.
Qed.

End WrapperFacts.

Module Claim9.

Import Collisions Quasistatic Examples WrapperFacts.

Section Wrapper.

Context {detector : Intersection} {Args R : Type}.

(** C9.  The collision wrapper hands back the value of the wrapped
    function, unchanged: when the wrapper returns, its value is the one the
    wrapped function returned, and when the wrapped function returns [res]
    the wrapper returns [res] too, on the mesh refreshed after the
    correction, whatever the detector found and whatever was corrected
    (the wrapper returns nothing only when the correction itself raises). *)
Theorem wrapper_returns_wrapped_value (fun_ : updater Args R) (sh : Sheet)
  (geom : Geom) (args : Args) :
  (forall (s' : Sheet) (res : R),
     with_collision_correction fun_ sh geom args = (s', Ok res) ->
     exists s1 : Sheet, fun_ sh geom args = (s1, Ok res)) /\
  (forall (s1 s2 : Sheet) (res : R),
     fun_ sh geom args = (s1, Ok res) ->
     correct_collisions (position_copy sh) s1 = Ok s2 ->
     with_collision_correction fun_ sh geom args = (update_all geom s2, Ok res)).
Proof.
  unfold with_collision_correction. split.
  - intros s' res.
    destruct (fun_ sh geom args) as [s1 [r | e]]; [| discriminate].
    destruct (correct_collisions (position_copy sh) s1); [| discriminate].
    intro H. injection H as _ <-. exists s1. reflexivity.
  - intros s1 s2 res Hfun Hfix. rewrite Hfun, Hfix. reflexivity.
Qed.

End Wrapper.

(** C9 on the stretching trial, where the detector reports crossings and
    vertices are moved, and on the resting trial, where it reports none. *)
Lemma wrapper_returns_wrapped_value_witness :
  (snd (@with_collision_correction toy_detector _ _ _set_pos
          relaxed_sheet refresh_geom stretch_trial) = Ok RetNone /\
   snd (_set_pos relaxed_sheet refresh_geom stretch_trial) = Ok RetNone /\
   @self_intersections toy_detector
     (fst (_set_pos relaxed_sheet refresh_geom stretch_trial)) = squeezed_pairs) /\
  (snd (@with_collision_correction toy_detector _ _ _set_pos
          relaxed_sheet refresh_geom rest_trial) = Ok RetNone /\
   @self_intersections toy_detector
     (fst (_set_pos relaxed_sheet refresh_geom rest_trial)) = []).
Proof.
  split.
  - destruct (@wrapper_returns_wrapped_value toy_detector _ _ _set_pos
                relaxed_sheet refresh_geom stretch_trial) as [_ Hret].
    split; [| split; vm_compute; reflexivity].
    erewrite Hret; [reflexivity | vm_compute; reflexivity | vm_compute; reflexivity].
  - destruct (@wrapper_returns_wrapped_value toy_detector _ _ _set_pos
                relaxed_sheet refresh_geom rest_trial) as [_ Hret].
    split; [| vm_compute; reflexivity].
    erewrite Hret; [reflexivity | vm_compute; reflexivity | vm_compute; reflexivity].
Defined.

End Claim9.

Module Claim8.

Import Collisions Quasistatic Examples WrapperFacts.

Section Transparent.

Context {detector : Intersection}.

(** C8.  With a geometry whose [update_all] is idempotent, whenever the
    detector reports no intersecting edge pair on the mesh that [_set_pos]
    leaves, the collision-wrapped [_set_pos] leaves the same mesh and
    returns the same value as [_set_pos] alone. *)
Theorem wrapper_transparent (sh : Sheet) (geom : Geom) (pos : list float64) :
  (forall s : Sheet, update_all geom (update_all geom s) = update_all geom s) ->
  (forall (s1 : Sheet) (r : retval),
     _set_pos sh geom pos = (s1, Ok r) -> self_intersections s1 = []) ->
  with_collision_correction _set_pos sh geom pos = _set_pos sh geom pos.
Proof.
  intros Hidem Hnone. unfold with_collision_correction.
  destruct (_set_pos sh geom pos) as [s1 [r | e]] eqn:Hset; [| reflexivity].
  unfold correct_collisions. rewrite (Hnone s1 r eq_refl). simpl.
  destruct (set_pos_refreshed sh geom pos s1 r Hset) as [s0 ->].
  rewrite Hidem. reflexivity.
Qed.

End Transparent.

(** C8 on the resting trial: the detector reports nothing there. *)
Lemma wrapper_transparent_witness :
  @self_intersections toy_detector
    (fst (_set_pos relaxed_sheet refresh_geom rest_trial)) = [] /\
  @with_collision_correction toy_detector _ _ _set_pos
    relaxed_sheet refresh_geom rest_trial
  = _set_pos relaxed_sheet refresh_geom rest_trial.
Proof.
  split; [vm_compute; reflexivity |].
  apply (@wrapper_transparent toy_detector relaxed_sheet refresh_geom rest_trial).
  - exact refresh_idempotent.
  - intros s1 r Hset.
    assert (Hfst : s1 = fst (_set_pos relaxed_sheet refresh_geom rest_trial))
      by (rewrite Hset; reflexivity).
    rewrite Hfst. vm_compute. reflexivity.
Defined.

End Claim8.

(** ** The quasistatic solver *)

Module Claim2.

Import Collisions Quasistatic Spec Examples.


Section Composition.

Context {detector : Intersection} {topology : Topology}.


End Composition.

End Claim2.

Module Claim1.

Import Collisions Quasistatic Spec Examples.

Section Restart.

Context {detector : Intersection} {topology : Topology} {scipy : Scipy}.

Lemma minimize_never_propagates (self : QSSolver) (geom : Geom) (model : Model)
  (kwargs : Settings) (fuel : nat) :
  forall (eptm : Sheet) (out : call OptimizeResult),
    _minimize fuel self eptm geom model kwargs = Some out ->
    snd out <> Raise TopologyChangeError.
Proof.
  induction fuel as [| n IH]; intros eptm out Hrun; [discriminate |].
  simpl in Hrun.
  destruct (attempt self eptm geom model kwargs) as [e1 [res | e]].
  - injection Hrun as <-. discriminate.
  - destruct e; try (injection Hrun as <-; discriminate).
    exact (IH e1 out Hrun).
Qed.

Lemma minimize_completes (self : QSSolver) (geom : Geom) (model : Model)
  (kwargs : Settings) (n : nat) (eptm e1 : Sheet) :
  interrupted_runs self geom model kwargs n eptm e1 ->
  forall (e2 : Sheet) (res : OptimizeResult),
    attempt self e1 geom model kwargs = (e2, Ok res) ->
    forall fuel : nat, (n < fuel)%nat ->
      _minimize fuel self eptm geom model kwargs = Some (e2, Ok res).
Proof.
  induction 1 as [e | n e e1 e' Hrun _ IH]; intros e2 res Hlast fuel Hfuel.
  - destruct fuel as [| m]; [lia |]. simpl. rewrite Hlast. reflexivity.
  - destruct fuel as [| m]; [lia |]. simpl. rewrite Hrun.
    apply (IH e2 res Hlast). lia.
Qed.

Lemma proceeds_run (self : QSSolver) (geom : Geom) (model : Model)
  (o : Optimizer OptimizeResult) (e : Sheet) (o' : Optimizer OptimizeResult) (e' : Sheet) :
  proceeds self geom model o e o' e' ->
  run_optimizer self o e geom model = run_optimizer self o' e' geom model.
Proof.
  induction 1 as [o e | x k e e1 v o' e' Hcall _ IH | x k e e1 g o' e' Hcall _ IH].
  - reflexivity.
  - simpl. rewrite Hcall. exact IH.
  - simpl. rewrite Hcall. exact IH.
Qed.

(** C1.  Take a solver built with a topology-reactive wrapper ([with_t1]
    or [with_t3]).  (1) When the number of rows of a trial vector differs
    from the number of active vertices, the energy callback and the
    gradient callback both raise the topology-change error, before doing
    anything to the mesh.  (2) A run of the optimizer that gets through
    some callbacks and then asks for the energy or the gradient at such a
    vector ends there with that error, on the mesh as the callbacks left
    it.  (3) A run starts from the vector read on the mesh it is given: the
    rows of the active vertices in the vertex table, restricted to the
    coordinate columns and flattened.  (4) When a run leaves through the
    error, [find_energy_min] goes on as a fresh call on the mesh the run
    left.  (5) After any number of interrupted runs, the first run that
    completes gives the result of [find_energy_min].  (6) Whatever
    [find_energy_min] hands to its caller, it is never the topology-change
    error. *)
Theorem topology_change_restarts (with_collisions with_t1 with_t3 : bool)
  (geom : Geom) (model : Model) (minimize_kw : Settings) :
  with_t1 || with_t3 = true ->
  let self := QSSolver_init with_collisions with_t1 with_t3 in
  let kwargs := update_settings quasistatic_settings minimize_kw in
  (forall (pos : list float64) (eptm : Sheet),
     length (coords eptm) <> 0%nat ->
     Nat.div (length pos) (length (coords eptm)) <> length (active_verts eptm) ->
     _opt_energy self pos eptm geom model = (eptm, Raise TopologyChangeError) /\
     _opt_grad self pos eptm geom model = (eptm, Raise TopologyChangeError)) /\
  (forall (o : Optimizer OptimizeResult) (eptm : Sheet)
          (o' : Optimizer OptimizeResult) (e' : Sheet) (x : list float64),
     proceeds self geom model o eptm o' e' ->
     requests o' x ->
     length (coords e') <> 0%nat ->
     Nat.div (length x) (length (coords e')) <> length (active_verts e') ->
     run_optimizer self o eptm geom model = (e', Raise TopologyChangeError)) /\
  (forall (eptm : Sheet),
     (forall rows : list Vec3,
        Frame.loc (vert_df eptm) (active_verts eptm) = Ok rows ->
        attempt self eptm geom model kwargs
        = run_optimizer self (minimize kwargs (flatten_rows (coords eptm) rows))
                        eptm geom model) /\
     (forall e : exn,
        Frame.loc (vert_df eptm) (active_verts eptm) = Raise e ->
        attempt self eptm geom model kwargs = (eptm, Raise e))) /\
  (forall (fuel : nat) (eptm e1 : Sheet),
     attempt self eptm geom model kwargs = (e1, Raise TopologyChangeError) ->
     find_energy_min (S fuel) self eptm geom model minimize_kw
     = find_energy_min fuel self e1 geom model minimize_kw) /\
  (forall (n : nat) (eptm e1 e2 : Sheet) (res : OptimizeResult),
     interrupted_runs self geom model kwargs n eptm e1 ->
     attempt self e1 geom model kwargs = (e2, Ok res) ->
     forall fuel : nat, (n < fuel)%nat ->
       find_energy_min fuel self eptm geom model minimize_kw = Some (e2, Ok res)) /\
  (forall (fuel : nat) (eptm : Sheet) (out : call OptimizeResult),
     find_energy_min fuel self eptm geom model minimize_kw = Some out ->
     snd out <> Raise TopologyChangeError).
Proof.
  intros Hreact self kwargs.
  assert (Hre : rearange self = true) by exact Hreact.
  assert (Hdetect : forall (pos : list float64) (eptm : Sheet),
            length (coords eptm) <> 0%nat ->
            Nat.div (length pos) (length (coords eptm)) <> length (active_verts eptm) ->
            _opt_energy self pos eptm geom model = (eptm, Raise TopologyChangeError) /\
            _opt_grad self pos eptm geom model = (eptm, Raise TopologyChangeError)).
  { intros pos eptm Hdims Hcount.
    assert (Hchanged : topology_changed self pos eptm = Ok true).
    { unfold topology_changed. rewrite Hre.
      apply Nat.eqb_neq in Hdims. rewrite Hdims.
      apply Nat.eqb_neq in Hcount. rewrite Hcount. reflexivity. }
    unfold _opt_energy, _opt_grad. rewrite Hchanged. split; reflexivity. }
  split; [exact Hdetect |].
  split; [| split; [| split; [| split]]].
  - intros o eptm o' e' x Hgo Hreq Hdims Hcount.
    rewrite (proceeds_run self geom model o eptm o' e' Hgo).
    destruct (Hdetect x e' Hdims Hcount) as [He Hg].
    destruct Hreq as [[k ->] | [k ->]]; simpl; [rewrite He | rewrite Hg]; reflexivity.
  - intro eptm. split.
    + intros rows Hrows. unfold attempt, active_positions. rewrite Hrows. reflexivity.
    + intros e Hrows. unfold attempt, active_positions. rewrite Hrows. reflexivity.
  - intros fuel eptm e1 Hrun. unfold find_energy_min. fold kwargs.
    simpl. rewrite Hrun. reflexivity.
  - intros n eptm e1 e2 res Hruns Hlast fuel Hfuel. unfold find_energy_min.
    exact (minimize_completes self geom model kwargs n eptm e1 Hruns e2 res Hlast
             fuel Hfuel).
  - intros fuel eptm out Hout. unfold find_energy_min in Hout.
    exact (minimize_never_propagates self geom model kwargs fuel eptm out Hout).
Qed.

End Restart.

(** C1 on the relaxed mesh, with the collision and type-1 wrappers.  The
    first run starts from the six coordinates of the vertices 3 and 4,
    read on the mesh; its energy evaluation merges vertex 4 into vertex 3,
    the gradient evaluation that follows finds two rows for one active
    vertex and the run is interrupted; the second run, on the three
    coordinates of vertex 3 read on the mesh the first one left, completes. *)
Lemma topology_change_restarts_witness :
  exists (e1 e2 : Sheet) (res : list float64 * float64),
    @attempt one_step (@QSSolver_init toy_detector toy_topology true true false)
      relaxed_sheet refresh_geom flat_model tt
    = @run_optimizer one_step (@QSSolver_init toy_detector toy_topology true true false)
        (@minimize one_step tt rest_trial) relaxed_sheet refresh_geom flat_model /\
    @attempt one_step (@QSSolver_init toy_detector toy_topology true true false)
      relaxed_sheet refresh_geom flat_model tt
    = (e1, Raise TopologyChangeError) /\
    active_verts e1 = [3%nat] /\
    @find_energy_min one_step 2 (@QSSolver_init toy_detector toy_topology true true false)
      relaxed_sheet refresh_geom flat_model tt
    = Some (e2, Ok res) /\
    fst res = [Fin 2; Fin 0; Fin 0].
Proof.
  destruct (@topology_change_restarts toy_detector toy_topology one_step
              true true false refresh_geom flat_model tt eq_refl)
    as [_ [Hends [Hread [_ [Hdone _]]]]].
  cbv zeta in Hends, Hread, Hdone.
  destruct (@_opt_energy (@QSSolver_init toy_detector toy_topology true true false)
              rest_trial relaxed_sheet refresh_geom flat_model) as [e1 v] eqn:Hen.
  assert (Hv : v = Ok zero /\ active_verts e1 = [3%nat] /\ coords e1 = xyz).
  { pose proof Hen as M. vm_compute in M. injection M as <- <-.
    repeat split. }
  destruct Hv as [-> [Hact Hcds]].
  assert (Hstart : @attempt one_step (@QSSolver_init toy_detector toy_topology true true false)
                     relaxed_sheet refresh_geom flat_model tt
                   = @run_optimizer one_step
                       (@QSSolver_init toy_detector toy_topology true true false)
                       (@minimize one_step tt rest_trial) relaxed_sheet refresh_geom
                       flat_model)
    by exact (proj1 (Hread relaxed_sheet) [P 2 0 0; P 3 0 0] eq_refl).
  assert (Hfirst : @attempt one_step (@QSSolver_init toy_detector toy_topology true true false)
                     relaxed_sheet refresh_geom flat_model tt
                   = (e1, Raise TopologyChangeError)).
  { rewrite Hstart.
    apply (Hends _ relaxed_sheet
             (EvalJac rest_trial (fun _ => Return (rest_trial, zero))) e1 rest_trial).
    - change (@minimize one_step tt rest_trial)
        with (@EvalFun (list float64 * float64) rest_trial
                (fun v => EvalJac rest_trial (fun _ => Return (rest_trial, v)))).
      eapply (@proceeds_fun one_step); [exact Hen | apply (@proceeds_here one_step)].
    - right. eexists. reflexivity.
    - rewrite Hcds. discriminate.
    - rewrite Hcds, Hact. discriminate.  }
  destruct (@attempt one_step (@QSSolver_init toy_detector toy_topology true true false)
              e1 refresh_geom flat_model tt) as [e2 r2] eqn:Hsecond.
  assert (Hr2 : r2 = Ok ([Fin 2; Fin 0; Fin 0], zero)).
  { pose proof Hen as M. vm_compute in M. injection M as <-.
    vm_compute in Hsecond. injection Hsecond as _ <-. reflexivity. }
  subst r2.
  exists e1, e2, ([Fin 2; Fin 0; Fin 0], zero).
  split; [exact Hstart |].
  split; [exact Hfirst |].
  split; [exact Hact |].
  split; [| reflexivity].
  apply (Hdone 1%nat relaxed_sheet e1 e2).
  - eapply runs_more; [exact Hfirst | apply runs_none].
  - exact Hsecond.
  - lia.
Defined.

End Claim1.

(** * Further properties of the code *)

(** ** Order on the floats *)

Module OrderFacts.

Lemma leb_Fin (p q : Q) : leb (Fin p) (Fin q) = true <-> p <= q.
Proof.
  unfold leb. rewrite Qle_alt.
  destruct (p ?= q); split; intro H; try reflexivity; try discriminate;
    try (intro; discriminate); exfalso; apply H; reflexivity.
Qed.

Lemma leb_refl_finite (a : float64) : isfinite a = true -> leb a a = true.
Proof.
  destruct a; try discriminate. intros _. apply leb_Fin. apply Qle_refl.
Qed.

Lemma leb_trans_finite (a b c : float64) :
  isfinite a = true -> isfinite b = true -> isfinite c = true ->
  leb a b = true -> leb b c = true -> leb a c = true.
Proof.
  destruct a as [| | p |]; try discriminate.
  destruct b as [| | q |]; try discriminate.
  destruct c as [| | r |]; try discriminate.
  intros _ _ _. rewrite !leb_Fin. apply Qle_trans.
Qed.

Lemma leb_total_Fin (p q : Q) : leb (Fin p) (Fin q) = false -> leb (Fin q) (Fin p) = true.
Proof.
  intro H. apply leb_Fin.
  destruct (Qlt_le_dec p q) as [Hlt | Hle]; [| exact Hle].
  assert (leb (Fin p) (Fin q) = true) by (apply leb_Fin; apply Qlt_le_weak; exact Hlt).
  congruence.
Qed.

(** [np.minimum] of two finite numbers is one of them, below both *)
Lemma minimum_finite_spec (a b : float64) :
  isfinite a = true -> isfinite b = true ->
  isfinite (minimum a b) = true /\
  leb (minimum a b) a = true /\ leb (minimum a b) b = true /\
  (minimum a b = a \/ minimum a b = b).
Proof.
  destruct a as [| | p |]; try discriminate.
  destruct b as [| | q |]; try discriminate.
  intros _ _. unfold minimum.
  destruct (leb (Fin p) (Fin q)) eqn:E.
  - repeat split; auto. apply leb_Fin. apply Qle_refl.
  - repeat split; auto.
    + apply leb_total_Fin. exact E.
    + apply leb_Fin. apply Qle_refl.
Qed.

Lemma maximum_finite_spec (a b : float64) :
  isfinite a = true -> isfinite b = true ->
  isfinite (maximum a b) = true /\
  leb a (maximum a b) = true /\ leb b (maximum a b) = true /\
  (maximum a b = a \/ maximum a b = b).
Proof.
  destruct a as [| | p |]; try discriminate.
  destruct b as [| | q |]; try discriminate.
  intros _ _. unfold maximum.
  destruct (leb (Fin q) (Fin p)) eqn:E.
  - repeat split; auto. apply leb_Fin. apply Qle_refl.
  - repeat split; auto.
    + apply leb_total_Fin. exact E.
    + apply leb_Fin. apply Qle_refl.
Qed.

(** the running minimum of finite numbers: finite, below all of them, and
    one of them *)
Lemma fold_minimum_spec (l : list float64) :
  Forall (fun x => isfinite x = true) l ->
  forall a : float64, isfinite a = true ->
    let m := fold_left minimum l a in
    isfinite m = true /\
    (forall x, In x (a :: l) -> leb m x = true) /\
    In m (a :: l).
Proof.
  induction 1 as [| x l Hx _ IH]; intros a Ha; simpl.
  - split; [exact Ha |]. split; [| left; reflexivity].
    intros y [<- | []]. apply leb_refl_finite. exact Ha.
  - destruct (minimum_finite_spec a x Ha Hx) as [Hm [Hma [Hmx Hsel]]].
    destruct (IH (minimum a x) Hm) as [Hf [Hle Hin]].
    split; [exact Hf |]. split.
    + intros y [<- | [<- | Hy]].
      * apply (leb_trans_finite _ (minimum a x) _ Hf Hm Ha);
          [apply Hle; left; reflexivity | exact Hma].
      * apply (leb_trans_finite _ (minimum a x) _ Hf Hm Hx);
          [apply Hle; left; reflexivity | exact Hmx].
      * apply Hle. right. exact Hy.
    + destruct Hin as [Hin | Hin].
      * destruct Hsel as [E | E]; [left | right; left];
          (etransitivity; [symmetry; exact E | exact Hin]).
      * right. right. exact Hin.
Qed.

Lemma fold_maximum_spec (l : list float64) :
  Forall (fun x => isfinite x = true) l ->
  forall a : float64, isfinite a = true ->
    let m := fold_left maximum l a in
    isfinite m = true /\
    (forall x, In x (a :: l) -> leb x m = true) /\
    In m (a :: l).
Proof.
  induction 1 as [| x l Hx _ IH]; intros a Ha; simpl.
  - split; [exact Ha |]. split; [| left; reflexivity].
    intros y [<- | []]. apply leb_refl_finite. exact Ha.
  - destruct (maximum_finite_spec a x Ha Hx) as [Hm [Hma [Hmx Hsel]]].
    destruct (IH (maximum a x) Hm) as [Hf [Hle Hin]].
    split; [exact Hf |]. split.
    + intros y [<- | [<- | Hy]].
      * apply (leb_trans_finite _ (maximum a x) _ Ha Hm Hf);
          [exact Hma | apply Hle; left; reflexivity].
      * apply (leb_trans_finite _ (maximum a x) _ Hx Hm Hf);
          [exact Hmx | apply Hle; left; reflexivity].
      * apply Hle. right. exact Hy.
    + destruct Hin as [Hin | Hin].
      * destruct Hsel as [E | E]; [left | right; left];
          (etransitivity; [symmetry; exact E | exact Hin]).
      * right. right. exact Hin.
Qed.

Lemma fold_vec_get (op : float64 -> float64 -> float64) (c : coord) (tl : list Vec3) :
  forall p : Vec3,
    get c (fold_left (vec_map2 op) tl p) = fold_left op (map (get c) tl) (get c p).
Proof.
  induction tl as [| q tl IH]; intro p; simpl; [reflexivity |].
  rewrite IH, PlaneFacts.get_vec_map2. reflexivity.
Qed.

End OrderFacts.

(** ** The bounding box of a face *)

Module BBoxProps.

Import Collisions Spec OrderFacts FiniteFacts Examples.

(** X1.  [_face_bbox] raises [ValueError] on a face without edges and
    returns a box otherwise; for finite points the box encloses every
    point on every axis, and each of its two corners is attained by some
    point on every axis: it is the smallest such box. *)
Theorem face_bbox_encloses (points : list Vec3) :
  (points = [] -> _face_bbox points = Raise ValueError) /\
  (points <> [] -> exists b : BBox, _face_bbox points = Ok b) /\
  (forall b : BBox,
     Forall (fun p => finite_vec p = true) points ->
     _face_bbox points = Ok b ->
     forall c : coord,
       (forall p : Vec3, In p points ->
          leb (get c (bb_l b)) (get c p) = true /\
          leb (get c p) (get c (bb_h b)) = true) /\
       (exists p : Vec3, In p points /\ get c (bb_l b) = get c p) /\
       (exists p : Vec3, In p points /\ get c (bb_h b) = get c p)).
Proof.
  split; [intros ->; reflexivity |].
  split.
  - destruct points as [| p tl]; [intro H; exfalso; apply H; reflexivity |].
    intros _. eexists. reflexivity.
  - intros b Hfin Hbox c.
    destruct points as [| p0 tl]; [discriminate |].
    simpl in Hbox. injection Hbox as <-. simpl bb_l. simpl bb_h.
    rewrite !fold_vec_get.
    inversion Hfin as [| ? ? Hp0 Htl]; subst.
    assert (Hcol : Forall (fun x => isfinite x = true) (map (get c) tl)).
    { apply Forall_forall. intros x Hx. apply in_map_iff in Hx.
      destruct Hx as [q [<- Hq]]. rewrite Forall_forall in Htl.
      exact (proj1 (finite_vec_get q) (Htl q Hq) c). }
    pose proof (proj1 (finite_vec_get p0) Hp0 c) as Hc0.
    destruct (fold_minimum_spec (map (get c) tl) Hcol (get c p0) Hc0)
      as [_ [Hmin Hmin_in]].
    destruct (fold_maximum_spec (map (get c) tl) Hcol (get c p0) Hc0)
      as [_ [Hmax Hmax_in]].
    assert (Hmem : forall p, In p (p0 :: tl) -> In (get c p) (get c p0 :: map (get c) tl)).
    { intros p [<- | Hp]; [left; reflexivity | right; apply in_map; exact Hp]. }
    assert (Hback : forall x, In x (get c p0 :: map (get c) tl) ->
                      exists p, In p (p0 :: tl) /\ x = get c p).
    { intros x [<- | Hx].
      - exists p0. split; [left; reflexivity | reflexivity].
      - apply in_map_iff in Hx. destruct Hx as [q [<- Hq]].
        exists q. split; [right; exact Hq | reflexivity]. }
    split; [| split].
    + intros p Hp. split; [apply Hmin | apply Hmax]; apply Hmem; exact Hp.
    + exact (Hback _ Hmin_in).
    + exact (Hback _ Hmax_in).
Qed.

(** X1 on the current edges of face 1 of the squeezed mesh. *)
Lemma face_bbox_encloses_witness :
  exists b : BBox,
    _face_bbox (map spoint (face_edges squeezed_sheet 1%nat)) = Ok b /\
    get cx (bb_l b) = Fin (1 # 2) /\
    get cx (bb_h b) = Fin (9 # 2) /\
    leb (get cx (bb_l b)) (Fin 2) = true /\
    leb (Fin 2) (get cx (bb_h b)) = true.
Proof.
  destruct (face_bbox_encloses (map spoint (face_edges squeezed_sheet 1%nat)))
    as [_ [Hsome Hbox]].
  destruct Hsome as [b Hb]; [vm_compute; discriminate |].
  exists b. split; [exact Hb |].
  assert (Hfin : Forall (fun p => finite_vec p = true)
                   (map spoint (face_edges squeezed_sheet 1%nat)))
    by (vm_compute; repeat constructor).
  destruct (Hbox b Hfin Hb cx) as [Hall _].
  destruct (Hall (P 2 1 0)) as [Hlo Hhi];
    [vm_compute; right; right; left; reflexivity |].
  vm_compute in Hb. injection Hb as <-.
  split; [reflexivity |]. split; [reflexivity |].
  split; [exact Hlo | exact Hhi].
Defined.

End BBoxProps.

(** ** Labels of frames *)

Module FrameFacts.

Import Collisions.

Lemma unique_in (x : nat) (l : list nat) : In x (unique l) <-> In x l.
Proof.
  induction l as [| a tl IH]; simpl; [tauto |].
  rewrite filter_In, IH.
  destruct (Nat.eq_dec x a) as [-> | N].
  - tauto.
  - assert (E : negb (x =? a) = true)
      by (apply negb_true_iff; apply Nat.eqb_neq; exact N).
    rewrite E. split; [intros [? | [? _]]; auto | intros [? | ?]; auto].
Qed.

Lemma unique_nodup (l : list nat) : NoDup (unique l).
Proof.
  induction l as [| a tl IH]; simpl; constructor.
  - rewrite filter_In. intros [_ H]. rewrite Nat.eqb_refl in H. discriminate.
  - apply NoDup_filter. exact IH.
Qed.

Lemma insert_sorted_in (x a : nat) (l : list nat) :
  In x (insert_sorted a l) <-> x = a \/ In x l.
Proof.
  induction l as [| b tl IH]; simpl.
  - split; [intros [-> | []]; auto | intros [-> | []]; auto].
  - destruct (a <=? b); simpl.
    + split; [intros [-> | H]; auto | intros [-> | H]; auto].
    + rewrite IH. split.
      * intros [-> | [-> | H]]; auto.
      * intros [-> | [-> | H]]; auto.
Qed.

Lemma insert_sorted_nodup (a : nat) (l : list nat) :
  ~ In a l -> NoDup l -> NoDup (insert_sorted a l).
Proof.
  induction l as [| b tl IH]; intros Ha Hl; simpl.
  - constructor; [intros [] | constructor].
  - destruct (a <=? b).
    + constructor; assumption.
    + inversion Hl as [| ? ? Hb Htl]; subst. constructor.
      * rewrite insert_sorted_in. intros [-> | H]; [apply Ha; left; reflexivity |].
        contradiction.
      * apply IH; [intro; apply Ha; right; assumption | exact Htl].
Qed.

Lemma sorted_keys_in (x : nat) (l : list nat) : In x (sorted_keys l) <-> In x l.
Proof.
  unfold sorted_keys. rewrite <- (unique_in x l).
  induction (unique l) as [| a tl IH]; simpl; [tauto |].
  rewrite insert_sorted_in, IH. split; [intros [-> | H]; auto | intros [-> | H]; auto].
Qed.

Lemma sorted_keys_nodup (l : list nat) : NoDup (sorted_keys l).
Proof.
  unfold sorted_keys. pose proof (unique_nodup l) as H.
  induction H as [| a tl Ha _ IH]; simpl; [constructor |].
  apply insert_sorted_nodup; [| exact IH].
  intro Hin. apply Ha.
  clear -Hin. induction tl as [| b tl IH]; simpl in *; [exact Hin |].
  apply insert_sorted_in in Hin. destruct Hin as [-> | Hin]; auto.
Qed.

Lemma loc1_in {A : Type} (df : list (nat * A)) (k : nat) (r : A) :
  Frame.loc1 df k = Ok r -> In (k, r) df.
Proof.
  induction df as [| [k' a] tl IH]; simpl; [discriminate |].
  destruct (k' =? k) eqn:E.
  - intro H. injection H as <-. apply Nat.eqb_eq in E. subst. left. reflexivity.
  - intro H. right. exact (IH H).
Qed.

Lemma loc1_total {A : Type} (df : list (nat * A)) (k : nat) :
  In k (Frame.index df) -> exists r : A, Frame.loc1 df k = Ok r.
Proof.
  unfold Frame.index.
  induction df as [| [k' a] tl IH]; simpl; [intros [] |].
  destruct (k' =? k) eqn:E.
  - intros _. exists a. reflexivity.
  - intros [H | H]; [apply Nat.eqb_neq in E; contradiction | exact (IH H)].
Qed.

Lemma loc1_missing {A : Type} (df : list (nat * A)) (k : nat) :
  ~ In k (Frame.index df) -> Frame.loc1 df k = Raise KeyError.
Proof.
  unfold Frame.index.
  induction df as [| [k' a] tl IH]; simpl; [reflexivity |].
  intro H. destruct (k' =? k) eqn:E.
  - apply Nat.eqb_eq in E. exfalso. apply H. left. exact E.
  - apply IH. intro Hin. apply H. right. exact Hin.
Qed.

(** a list of labels is found exactly when every label is in the index;
    the only failure is [KeyError] *)
Lemma loc_outcome {A : Type} (df : list (nat * A)) (ks : list nat) :
  (incl ks (Frame.index df) -> exists rows : list A, Frame.loc df ks = Ok rows) /\
  (~ incl ks (Frame.index df) -> Frame.loc df ks = Raise KeyError).
Proof.
  induction ks as [| k tl [IHok IHno]]; simpl.
  - split; [intros _; exists []; reflexivity |].
    intro H. exfalso. apply H. intros x [].
  - split.
    + intro Hincl.
      destruct (loc1_total df k (Hincl k (or_introl eq_refl))) as [r Hr]. rewrite Hr.
      destruct (IHok (fun x Hx => Hincl x (or_intror Hx))) as [rows Hrows].
      rewrite Hrows. exists (r :: rows). reflexivity.
    + intro Hno.
      destruct (in_dec Nat.eq_dec k (Frame.index df)) as [Hk | Hk].
      * destruct (loc1_total df k Hk) as [r Hr]. rewrite Hr. simpl.
        rewrite IHno; [reflexivity |].
        intro Hincl. apply Hno. intros x [<- | Hx]; [exact Hk | exact (Hincl x Hx)].
      * rewrite (loc1_missing df k Hk). reflexivity.
Qed.

Lemma loc_length {A : Type} (df : list (nat * A)) (ks : list nat) :
  forall rows : list A, Frame.loc df ks = Ok rows -> length rows = length ks.
Proof.
  induction ks as [| k tl IH]; intros rows H; simpl in H.
  - injection H as <-. reflexivity.
  - destruct (Frame.loc1 df k); [| discriminate].
    destruct (Frame.loc df tl) as [rows' |]; [| discriminate].
    simpl in H. injection H as <-. simpl. rewrite (IH rows' eq_refl). reflexivity.
Qed.

Lemma write1_index {A : Type} (f : A -> A) (k : nat) (df : list (nat * A)) :
  Frame.index (Frame.write1 f k df) = Frame.index df.
Proof.
  unfold Frame.index, Frame.write1. rewrite map_map. apply map_ext.
  intro kr. destruct (fst kr =? k); reflexivity.
Qed.

Lemma assign_index {A : Type} (w : A -> A -> A) (rows : list (nat * A)) :
  forall df : list (nat * A), Frame.index (Frame.assign w df rows) = Frame.index df.
Proof.
  unfold Frame.assign.
  induction rows as [| kr tl IH]; intro df; simpl; [reflexivity |].
  rewrite IH. apply write1_index.
Qed.

Lemma bounds_table_index (verts : list vert_id) (a : float64) :
  Frame.index (bounds_table verts a) = verts.
Proof.
  unfold Frame.index, bounds_table. rewrite map_map. simpl. apply map_id.
Qed.

Lemma merge_bounds_index (op : float64 -> float64 -> float64) (cds : list coord)
  (table table' : list (vert_id * Vec3)) (b : PlaneFrame) :
  merge_bounds op cds table b = Ok table' ->
  Frame.index table' = Frame.index table.
Proof.
  unfold merge_bounds. destruct (forallb _ _); [| discriminate].
  destruct (Frame.loc table (pf_index b)); [| discriminate].
  simpl. intro H. injection H as <-. apply assign_index.
Qed.

Lemma fold_limits_index (cds : list coord)
  (limits : list (result (option (PlaneFrame * PlaneFrame)))) :
  forall (pf : bool) (lb ub : list (vert_id * Vec3)) (pf' : bool)
         (lb' ub' : list (vert_id * Vec3)),
    fold_limits cds limits (pf, lb, ub) = Ok (pf', lb', ub') ->
    Frame.index lb' = Frame.index lb /\ Frame.index ub' = Frame.index ub.
Proof.
  induction limits as [| lim tl IH]; intros pf lb ub pf' lb' ub' H; simpl in H.
  - injection H as _ <- <-. split; reflexivity.
  - destruct lim as [[[lo up] |] |]; cbv beta iota delta [bind] in H; [| | discriminate].
    + destruct (merge_bounds maximum cds lb lo) as [lb1 |] eqn:E1; [| discriminate].
      destruct (merge_bounds minimum cds ub up) as [ub1 |] eqn:E2; [| discriminate].
      destruct (IH _ _ _ _ _ _ H) as [Hl Hu].
      rewrite Hl, Hu.
      rewrite (merge_bounds_index _ _ _ _ _ E1), (merge_bounds_index _ _ _ _ _ E2).
      split; reflexivity.
    + exact (IH _ _ _ _ _ _ H).
Qed.

End FrameFacts.

(** ** The resolver on well-formed meshes *)

Module TotalFacts.

Import Collisions Spec Wellformed FrameFacts FacePairFacts LoopFacts PlaneFacts.

Lemma mem_nat_in (a : nat) (l : list nat) : mem_nat a l = true <-> In a l.
Proof.
  unfold mem_nat. rewrite existsb_exists. split.
  - intros [x [Hx E]]. apply Nat.eqb_eq in E. subst. exact Hx.
  - intro H. exists a. split; [exact H | apply Nat.eqb_refl].
Qed.

Lemma mem_coord_in (c : coord) (l : list coord) : mem_coord c l = true <-> In c l.
Proof.
  unfold mem_coord. rewrite existsb_exists. split.
  - intros [x [Hx E]]. apply BoundsFacts.coord_eqb_eq in E. subst. exact Hx.
  - intro H. exists c. split; [exact H | apply BoundsFacts.coord_eqb_eq; reflexivity].
Qed.

Lemma face_bbox_some (points : list Vec3) :
  points <> [] -> exists b : BBox, _face_bbox points = Ok b.
Proof.
  destruct points as [| p tl]; [intro H; exfalso; apply H; reflexivity |].
  intros _. eexists. reflexivity.
Qed.

Lemma upcast_srce_index (edges : list (edge_id * EdgeRow)) (df : list (vert_id * Vec3)) :
  forall rows : list (edge_id * Vec3),
    upcast_srce edges df = Ok rows -> Frame.index rows = Frame.index edges.
Proof.
  induction edges as [| [e row] tl IH]; intros rows H; simpl in H.
  - injection H as <-. reflexivity.
  - destruct (Frame.loc1 df (srce row)); [| discriminate].
    destruct (upcast_srce tl df) as [rows' |]; [| discriminate].
    simpl in H. injection H as <-. simpl. rewrite (IH rows' eq_refl). reflexivity.
Qed.

(** what [__init__] stores *)
Lemma init_fields (sh : Sheet) (buf : PositionBuffer) (pairs : list (edge_id * edge_id))
  (self : CollidingBoxes) :
  init sh buf pairs = Ok self ->
  sheet self = sh /\
  edge_pairs self = pairs /\
  _get_intersecting_faces sh pairs = Ok (face_pairs self) /\
  Frame.index (edge_buffer self) = Frame.index (edge_df sh).
Proof.
  unfold init.
  destruct (_get_intersecting_faces sh pairs) as [fp |]; [| discriminate].
  destruct (upcast_srce (edge_df sh) (pb_rows buf)) as [rows |] eqn:Hup; [| discriminate].
  cbv beta iota delta [bind].
  destruct (pb_columns buf) as [| a [| b [| c [| d tl]]]]; try discriminate.
  intro H. injection H as <-. simpl.
  repeat split.
  rewrite <- (upcast_srce_index _ _ _ Hup).
  unfold Frame.index. rewrite map_map. reflexivity.
Qed.

(** the faces of a returned pair own an edge each *)
Lemma face_pairs_owned (sh : Sheet) (pairs : list (edge_id * edge_id))
  (fps : list (face_id * face_id)) (a b : face_id) :
  _get_intersecting_faces sh pairs = Ok fps ->
  In (a, b) fps ->
  (exists e r, In (e, r) (edge_df sh) /\ face r = a) /\
  (exists e r, In (e, r) (edge_df sh) /\ face r = b).
Proof.
  unfold _get_intersecting_faces.
  destruct (Frame.loc (edge_df sh) (flatten pairs)) as [rows |] eqn:Hrows; [| discriminate].
  simpl. intro H. injection H as <-. intro Hin.
  rewrite unpack_pairs_in, set_of_in, in_map_iff in Hin.
  destruct Hin as [[x y] [Hfs Hxy]].
  apply frozenset_pair in Hfs. destruct Hfs as [N [Ea Eb]].
  apply (face_rows sh pairs rows Hrows) in Hxy.
  destruct Hxy as [p [_ [r1 [r2 [H1 [H2 [F1 F2]]]]]]].
  apply loc1_in in H1. apply loc1_in in H2.
  assert (Hx : exists e r, In (e, r) (edge_df sh) /\ face r = x)
    by (exists (fst p), r1; auto).
  assert (Hy : exists e r, In (e, r) (edge_df sh) /\ face r = y)
    by (exists (snd p), r2; auto).
  destruct (Nat.le_gt_cases x y).
  - replace a with x by lia. replace b with y by lia. split; assumption.
  - replace a with y by lia. replace b with x by lia. split; assumption.
Qed.

Lemma face_edges_owned (sh : Sheet) (f : face_id) :
  (exists e r, In (e, r) (edge_df sh) /\ face r = f) -> face_edges sh f <> [].
Proof.
  intros [e [r [Hin Hf]]]. unfold face_edges.
  apply LoopFacts.map_nonempty'.
  intro Hnil.
  assert (In (e, r) (filter (fun er => face (snd er) =? f) (edge_df sh))).
  { apply filter_In. split; [exact Hin |]. simpl. apply Nat.eqb_eq. exact Hf. }
  rewrite Hnil in H. destruct H.
Qed.

Lemma combine_covers {A B : Type} (l : list A) (l' : list B) (a : A) :
  length l = length l' -> In a l -> exists b : B, In (a, b) (combine l l').
Proof.
  revert l'. induction l as [| x tl IH]; intros l' Hlen Hin; [destruct Hin |].
  destruct l' as [| y tl']; [discriminate |].
  simpl in Hlen. injection Hlen as Hlen.
  destruct Hin as [<- | Hin].
  - exists y. left. reflexivity.
  - destruct (IH tl' Hlen Hin) as [b Hb]. exists b. right. exact Hb.
Qed.

Lemma face_buffer_owned (self : CollidingBoxes) (f : face_id) :
  Frame.index (edge_buffer self) = Frame.index (edge_df (sheet self)) ->
  (exists e r, In (e, r) (edge_df (sheet self)) /\ face r = f) ->
  face_buffer self f <> [].
Proof.
  intros Hidx [e [r [Hin Hf]]]. unfold face_buffer.
  apply LoopFacts.map_nonempty'.
  assert (Hlen : length (edge_df (sheet self)) = length (map snd (edge_buffer self))).
  { rewrite length_map. apply (f_equal (@length nat)) in Hidx.
    unfold Frame.index in Hidx. rewrite !length_map in Hidx. symmetry. exact Hidx. }
  destruct (combine_covers _ _ (e, r) Hlen Hin) as [q Hq].
  intro Hnil.
  assert (In ((e, r), q)
            (filter (fun er => face (snd (fst er)) =? f)
                    (combine (edge_df (sheet self)) (map snd (edge_buffer self))))).
  { apply filter_In. split; [exact Hq |]. simpl. apply Nat.eqb_eq. exact Hf. }
  rewrite Hnil in H. destruct H.
Qed.

(** a plane computation raises only on a face without edges *)
Lemma collision_plane_some (self : CollidingBoxes) (f0 f1 : face_id) (shyness : float64) :
  face_edges (sheet self) f0 <> [] -> face_edges (sheet self) f1 <> [] ->
  face_buffer self f0 <> [] -> face_buffer self f1 <> [] ->
  exists r, _collision_plane self (f0, f1) shyness = Ok r.
Proof.
  intros E0 E1 B0 B1. unfold _collision_plane.
  destruct (face_bbox_some (map spoint (face_edges (sheet self) f0))
              (LoopFacts.map_nonempty' _ _ E0)) as [b0c ->].
  destruct (face_bbox_some (map spoint (face_edges (sheet self) f1))
              (LoopFacts.map_nonempty' _ _ E1)) as [b1c ->].
  destruct (face_bbox_some _ B0) as [b0p ->].
  destruct (face_bbox_some _ B1) as [b1p ->].
  cbv beta iota delta [bind].
  destruct (existsb _ xyz); [eexists; reflexivity |].
  destruct (existsb _ xyz); eexists; reflexivity.
Qed.

Lemma nodup_xyz : NoDup xyz.
Proof.
  unfold xyz. repeat constructor; simpl; intuition discriminate.
Qed.

(** the frames of a plane: which faces index them and which columns they
    hold *)
Lemma collision_plane_frames (self : CollidingBoxes) (f0 f1 : face_id)
  (shyness : float64) (lo up : PlaneFrame) :
  _collision_plane self (f0, f1) shyness = Ok (Some (lo, up)) ->
  ((pf_index lo = map srce (face_edges (sheet self) f1) /\
    pf_index up = map srce (face_edges (sheet self) f0)) \/
   (pf_index lo = map srce (face_edges (sheet self) f0) /\
    pf_index up = map srce (face_edges (sheet self) f1))) /\
  map fst (pf_columns lo) = map fst (pf_columns up) /\
  NoDup (map fst (pf_columns lo)) /\
  map fst (pf_columns lo) <> [].
Proof.
  unfold _collision_plane.
  destruct (_face_bbox (map spoint (face_edges (sheet self) f0))) as [b0c |]; [| discriminate].
  destruct (_face_bbox (map spoint (face_edges (sheet self) f1))) as [b1c |]; [| discriminate].
  destruct (_face_bbox (face_buffer self f0)) as [b0p |]; [| discriminate].
  destruct (_face_bbox (face_buffer self f1)) as [b1p |]; [| discriminate].
  cbv beta iota delta [bind].
  destruct (existsb (sign_change b0c b1c b0p b1p) xyz) eqn:Ex.
  - intro H. injection H as <- <-. cbn [pf_index pf_columns]. rewrite !bound_columns_fst.
    split; [left; split; reflexivity |]. split; [reflexivity |].
    split; [exact (NoDup_filter (sign_change b0c b1c b0p b1p) nodup_xyz) |].
    apply existsb_exists in Ex. destruct Ex as [c [Hc Hs]].
    intro Hnil. change (filter (sign_change b0c b1c b0p b1p) xyz = []) in Hnil.
    assert (In c (filter (sign_change b0c b1c b0p b1p) xyz))
      by (apply filter_In; auto).
    rewrite Hnil in H. destruct H.
  - destruct (existsb (sign_change b1c b0c b1p b0p) xyz) eqn:Ex'; [| discriminate].
    intro H. injection H as <- <-. cbn [pf_index pf_columns]. rewrite !bound_columns_fst.
    split; [right; split; reflexivity |]. split; [reflexivity |].
    split; [exact (NoDup_filter (sign_change b1c b0c b1p b0p) nodup_xyz) |].
    apply existsb_exists in Ex'. destruct Ex' as [c [Hc Hs]].
    intro Hnil. change (filter (sign_change b1c b0c b1p b0p) xyz = []) in Hnil.
    assert (In c (filter (sign_change b1c b0c b1p b0p) xyz))
      by (apply filter_In; auto).
    rewrite Hnil in H. destruct H.
Qed.

Lemma colliding_verts_in (self : CollidingBoxes) (v : vert_id) :
  In v (colliding_verts self) <->
  exists e r, In (e, r) (edge_df (sheet self)) /\ srce r = v /\
              In (face r) (flatten (face_pairs self)).
Proof.
  unfold colliding_verts. rewrite unique_in, in_map_iff. split.
  - intros [[e r] [Hs Hin]]. apply filter_In in Hin. destruct Hin as [Hin Hf].
    exists e, r. simpl in *. rewrite mem_nat_in in Hf. auto.
  - intros [e [r [Hin [Hs Hf]]]]. exists (e, r). split; [exact Hs |].
    apply filter_In. split; [exact Hin |]. simpl. apply mem_nat_in. exact Hf.
Qed.

Lemma flatten_in (a b : nat) (l : list (nat * nat)) :
  In (a, b) l -> In a (flatten l) /\ In b (flatten l).
Proof.
  intro H. unfold flatten. split; apply in_flat_map; exists (a, b);
    (split; [exact H | simpl; auto]).
Qed.

Lemma face_sources_collide (self : CollidingBoxes) (f : face_id) :
  In f (flatten (face_pairs self)) ->
  incl (map srce (face_edges (sheet self) f)) (colliding_verts self).
Proof.
  intros Hf v Hv. apply in_map_iff in Hv. destruct Hv as [r [Hs Hr]].
  unfold face_edges in Hr. apply in_map_iff in Hr. destruct Hr as [[e r'] [E Hin]].
  simpl in E. subst r'. apply filter_In in Hin. destruct Hin as [Hin Hface].
  simpl in Hface. apply Nat.eqb_eq in Hface.
  apply colliding_verts_in. exists e, r. rewrite Hface. auto.
Qed.

Lemma merge_bounds_total (op : float64 -> float64 -> float64) (cds : list coord)
  (table : list (vert_id * Vec3)) (b : PlaneFrame) :
  incl (pf_index b) (Frame.index table) ->
  (forall c, In c (map fst (pf_columns b)) -> In c cds) ->
  exists table', merge_bounds op cds table b = Ok table'.
Proof.
  intros Hidx Hcols. unfold merge_bounds.
  assert (E : forallb (fun c => mem_coord c cds) (map fst (pf_columns b)) = true).
  { apply forallb_forall. intros c Hc. apply mem_coord_in. exact (Hcols c Hc). }
  rewrite E.
  destruct (proj1 (loc_outcome table (pf_index b)) Hidx) as [rows ->].
  simpl. eexists. reflexivity.
Qed.

Lemma fold_limits_total (cds : list coord) (verts : list vert_id)
  (limits : list (result (option (PlaneFrame * PlaneFrame)))) :
  Forall (fits cds verts) limits ->
  forall (pf : bool) (lb ub : list (vert_id * Vec3)),
    Frame.index lb = verts -> Frame.index ub = verts ->
    exists st, fold_limits cds limits (pf, lb, ub) = Ok st.
Proof.
  induction 1 as [| lim tl Hlim _ IH]; intros pf lb ub Hl Hu; simpl.
  - eexists. reflexivity.
  - destruct Hlim as [-> | [lo [up [-> [Ilo [Iup [Clo Cup]]]]]]]; simpl.
    + exact (IH pf lb ub Hl Hu).
    + rewrite <- Hl in Ilo. rewrite <- Hu in Iup.
      destruct (merge_bounds_total maximum cds lb lo Ilo Clo) as [lb1 E1].
      destruct (merge_bounds_total minimum cds ub up Iup Cup) as [ub1 E2].
      rewrite E1, E2. simpl.
      apply IH.
      * rewrite (merge_bounds_index _ _ _ _ _ E1). exact Hl.
      * rewrite (merge_bounds_index _ _ _ _ _ E2). exact Hu.
Qed.

Lemma groupby_index (agg : list float64 -> float64) (cds : list coord)
  (table : list (vert_id * Vec3)) :
  Frame.index (groupby_apply agg cds table) = sorted_keys (Frame.index table).
Proof.
  unfold groupby_apply, Frame.index. rewrite map_map. simpl. apply map_id.
Qed.

Lemma take_finite_in (cds : list coord) (table : list (vert_id * Vec3))
  (v : vert_id) (r : Vec3) :
  In (v, r) (take_finite cds table) <->
  In (v, r) table /\ (0 < count_finite cds r)%nat.
Proof.
  unfold take_finite. rewrite in_flat_map. split.
  - intros [[v' r'] [Hin Hrep]]. apply repeat_spec in Hrep as Heq.
    injection Heq as -> ->. split; [exact Hin |].
    simpl in Hrep. destruct (count_finite cds r'); [destruct Hrep | lia].
  - intros [Hin Hpos]. exists (v, r). split; [exact Hin |].
    simpl. destruct (count_finite cds r); [lia | left; reflexivity].
Qed.

Lemma take_finite_index (cds : list coord) (table : list (vert_id * Vec3)) :
  incl (Frame.index (take_finite cds table)) (Frame.index table).
Proof.
  intros v Hv. unfold Frame.index in *. apply in_map_iff in Hv.
  destruct Hv as [[v' r] [E Hin]]. simpl in E. subst v'.
  apply take_finite_in in Hin. apply in_map_iff. exists (v, r). tauto.
Qed.

Lemma correction_total (op : float64 -> float64 -> float64)
  (vdf bounds : list (vert_id * Vec3)) :
  incl (Frame.index bounds) (Frame.index vdf) ->
  exists rows, correction op vdf bounds = Ok rows.
Proof.
  intro H. unfold correction.
  destruct (proj1 (loc_outcome vdf (Frame.index bounds)) H) as [cur ->].
  simpl. eexists. reflexivity.
Qed.

Lemma sources_known_in (sh : Sheet) (e : edge_id) (r : EdgeRow) :
  sources_known sh = true -> In (e, r) (edge_df sh) ->
  In (srce r) (Frame.index (vert_df sh)).
Proof.
  unfold sources_known. rewrite forallb_forall. intros H Hin.
  apply mem_nat_in. exact (H (e, r) Hin).
Qed.

Lemma has_xyz_in (sh : Sheet) (c : coord) : has_xyz sh = true -> In c (coords sh).
Proof.
  unfold has_xyz. rewrite forallb_forall. intro H.
  apply mem_coord_in. apply H. apply in_xyz.
Qed.

(** for boxes built by [__init__] no plane computation raises *)
Lemma get_limits_ok (sh : Sheet) (buf : PositionBuffer)
  (pairs : list (edge_id * edge_id)) (self : CollidingBoxes) (shyness : float64) :
  init sh buf pairs = Ok self ->
  Forall (fun lim => exists r, lim = Ok r) (get_limits self shyness).
Proof.
  intro Hinit. destruct (init_fields sh buf pairs self Hinit) as [Hs [_ [Hfp Hidx]]].
  unfold get_limits. apply Forall_forall. intros lim Hin.
  apply in_map_iff in Hin. destruct Hin as [[f0 f1] [<- Hpair]].
  destruct (face_pairs_owned sh pairs (face_pairs self) f0 f1 Hfp Hpair) as [O0 O1].
  rewrite <- Hs in O0, O1, Hidx.
  apply collision_plane_some.
  - apply face_edges_owned. exact O0.
  - apply face_edges_owned. exact O1.
  - apply face_buffer_owned; assumption.
  - apply face_buffer_owned; assumption.
Qed.

Lemma get_limits_fit (sh : Sheet) (buf : PositionBuffer)
  (pairs : list (edge_id * edge_id)) (self : CollidingBoxes) (shyness : float64) :
  init sh buf pairs = Ok self ->
  has_xyz sh = true ->
  Forall (fits (coords (sheet self)) (colliding_verts self)) (get_limits self shyness).
Proof.
  intros Hinit Hxyz.
  pose proof (get_limits_ok sh buf pairs self shyness Hinit) as Hok.
  destruct (init_fields sh buf pairs self Hinit) as [Hs _].
  rewrite Forall_forall in *. intros lim Hin.
  destruct (Hok lim Hin) as [[[lo up] |] ->]; [| left; reflexivity].
  right. exists lo, up. split; [reflexivity |].
  unfold get_limits in Hin. apply in_map_iff in Hin.
  destruct Hin as [[f0 f1] [Hplane Hpair]].
  destruct (collision_plane_frames self f0 f1 shyness lo up Hplane)
    as [Hidx [Hcols _]].
  destruct (flatten_in f0 f1 _ Hpair) as [F0 F1].
  pose proof (face_sources_collide self f0 F0) as S0.
  pose proof (face_sources_collide self f1 F1) as S1.
  assert (Hc : forall c, In c (coords (sheet self)))
    by (intro c; rewrite Hs; apply has_xyz_in; exact Hxyz).
  destruct Hidx as [[-> ->] | [-> ->]]; repeat split; auto.
Qed.

End TotalFacts.

Module ResolverProps.

Import Collisions Spec Wellformed FrameFacts FacePairFacts LoopFacts TotalFacts Examples.

Lemma upcast_srce_total (edges : list (edge_id * EdgeRow)) (df : list (vert_id * Vec3)) :
  (forall er, In er edges -> In (srce (snd er)) (Frame.index df)) ->
  exists rows, upcast_srce edges df = Ok rows.
Proof.
  induction edges as [| [e row] tl IH]; intro H; simpl.
  - eexists. reflexivity.
  - destruct (loc1_total df (srce row) (H (e, row) (or_introl eq_refl))) as [p ->].
    destruct (IH (fun er Her => H er (or_intror Her))) as [rows ->].
    simpl. eexists. reflexivity.
Qed.

Lemma edges_known_incl (sh : Sheet) (pairs : list (edge_id * edge_id)) :
  edges_known sh pairs = true <-> incl (flatten pairs) (Frame.index (edge_df sh)).
Proof.
  unfold edges_known. rewrite forallb_forall. split.
  - intros H e He. apply mem_nat_in. exact (H e He).
  - intros H e He. apply mem_nat_in. exact (H e He).
Qed.

(** the constructor returns on a mesh that knows the edges and on a
    snapshot of three columns that knows the source vertices *)
Lemma init_total (sh : Sheet) (buf : PositionBuffer) (pairs : list (edge_id * edge_id)) :
  edges_known sh pairs = true -> sources_buffered sh buf = true ->
  length (pb_columns buf) = 3%nat ->
  exists self : CollidingBoxes, init sh buf pairs = Ok self.
Proof.
  intros Hk Hs Hcols. unfold init, _get_intersecting_faces.
  apply edges_known_incl in Hk.
  destruct (proj1 (loc_outcome (edge_df sh) (flatten pairs)) Hk) as [rows ->].
  cbv beta iota zeta delta [bind].
  destruct (upcast_srce_total (edge_df sh) (pb_rows buf)) as [brows ->].
  { intros er Her. apply mem_nat_in.
    unfold sources_buffered in Hs. rewrite forallb_forall in Hs. exact (Hs er Her). }
  destruct (pb_columns buf) as [| a [| b [| c [| d tl]]]]; try discriminate.
  eexists. reflexivity.
Qed.

(** no lookup of [solve_collisions] meets a missing label *)
Lemma solve_collisions_total (sh : Sheet) (buf : PositionBuffer)
  (pairs : list (edge_id * edge_id)) (self : CollidingBoxes) (shyness : float64) :
  init sh buf pairs = Ok self ->
  sources_known sh = true -> has_xyz sh = true ->
  exists (sh' : Sheet) (ret : retval), solve_collisions self shyness = Ok (sh', ret).
Proof.
  intros Hinit Hsrc Hxyz.
  destruct (init_fields sh buf pairs self Hinit) as [Hs _].
  pose proof (get_limits_fit sh buf pairs self shyness Hinit Hxyz) as Hfit.
  unfold solve_collisions, aggregate_bounds.
  destruct (fold_limits_total _ _ _ Hfit false
              (bounds_table (colliding_verts self) (neg inf))
              (bounds_table (colliding_verts self) inf)
              (bounds_table_index _ _) (bounds_table_index _ _))
    as [[[pf lb] ub] Hfold].
  rewrite Hfold. cbv beta iota delta [bind].
  destruct (fold_limits_index _ _ _ _ _ _ _ _ Hfold) as [Il Iu].
  rewrite bounds_table_index in Il, Iu.
  destruct (negb (if length ub =? 0 then false else pf)); [do 2 eexists; reflexivity |].
  assert (Hkeys : forall (agg : list float64 -> float64) (t : list (vert_id * Vec3)),
             Frame.index t = colliding_verts self ->
             incl (Frame.index (groupby_apply agg (coords (sheet self))
                                  (take_finite (coords (sheet self)) t)))
                  (Frame.index (vert_df (sheet self)))).
  { intros agg t Ht v Hv. rewrite groupby_index in Hv.
    apply (proj1 (sorted_keys_in _ _)) in Hv.
    apply take_finite_index in Hv. rewrite Ht in Hv.
    apply (proj1 (colliding_verts_in _ _)) in Hv. destruct Hv as [e [r [Hin [<- _]]]].
    rewrite Hs in *. exact (sources_known_in sh e r Hsrc Hin). }
  destruct (correction_total minimum _ _ (Hkeys nanmin ub Iu)) as [cu ->].
  destruct (correction_total maximum _ _ (Hkeys nanmax lb Il)) as [cl ->].
  cbv beta iota delta [bind]. do 2 eexists. reflexivity.
Qed.

(** X2.  [CollidingBoxes.__init__] raises [KeyError] when an edge of the
    intersecting pairs is not a label of the edge table; when every such
    edge is one and every source vertex is in the snapshot, it raises
    [ValueError] if the snapshot does not have three columns and returns
    the boxes if it has, holding the sheet and the pairs it was given and
    one buffer row per edge. *)
Theorem init_outcome (sh : Sheet) (buf : PositionBuffer)
  (pairs : list (edge_id * edge_id)) :
  (edges_known sh pairs = false -> init sh buf pairs = Raise KeyError) /\
  (edges_known sh pairs = true -> sources_buffered sh buf = true ->
   length (pb_columns buf) <> 3%nat -> init sh buf pairs = Raise ValueError) /\
  (edges_known sh pairs = true -> sources_buffered sh buf = true ->
   length (pb_columns buf) = 3%nat ->
   exists self : CollidingBoxes,
     init sh buf pairs = Ok self /\
     sheet self = sh /\ edge_pairs self = pairs /\
     Frame.index (edge_buffer self) = Frame.index (edge_df sh)).
Proof.
  assert (Hfaces : edges_known sh pairs = true ->
                   exists fp, _get_intersecting_faces sh pairs = Ok fp).
  { intro Hk. apply edges_known_incl in Hk. unfold _get_intersecting_faces.
    destruct (proj1 (loc_outcome (edge_df sh) (flatten pairs)) Hk) as [rows ->].
    simpl. eexists. reflexivity. }
  assert (Hbuf : sources_buffered sh buf = true ->
                 exists rows, upcast_srce (edge_df sh) (pb_rows buf) = Ok rows).
  { intro Hs. apply upcast_srce_total. intros er Her. apply mem_nat_in.
    unfold sources_buffered in Hs. rewrite forallb_forall in Hs. exact (Hs er Her). }
  split; [| split].
  - intro Hk. unfold init, _get_intersecting_faces.
    rewrite (proj2 (loc_outcome (edge_df sh) (flatten pairs))); [reflexivity |].
    intro Hincl. apply edges_known_incl in Hincl. congruence.
  - intros Hk Hs Hcols. unfold init.
    destruct (Hfaces Hk) as [fp ->]. destruct (Hbuf Hs) as [rows ->].
    cbv beta iota delta [bind].
    destruct (pb_columns buf) as [| a [| b [| c [| d tl]]]]; try reflexivity.
    exfalso. apply Hcols. reflexivity.
  - intros Hk Hs Hcols.
    destruct (init_total sh buf pairs Hk Hs Hcols) as [self Hself].
    exists self. split; [exact Hself |].
    destruct (init_fields sh buf pairs self Hself) as [H1 [H2 [_ H4]]].
    auto.
Qed.

(** X2 on the squeezed mesh: the pairs of the example, a pair naming an
    edge 9 that the table does not have, and a snapshot of two columns. *)
Lemma init_outcome_witness :
  (exists self, init squeezed_sheet (mkBuffer xyz side_by_side) squeezed_pairs = Ok self /\
                sheet self = squeezed_sheet) /\
  init squeezed_sheet (mkBuffer xyz side_by_side) [(0, 9)]%nat = Raise KeyError /\
  init squeezed_sheet (mkBuffer [cx; cy] side_by_side) squeezed_pairs = Raise ValueError.
Proof.
  split; [| split].
  - destruct (init_outcome squeezed_sheet (mkBuffer xyz side_by_side) squeezed_pairs)
      as [_ [_ Hok]].
    destruct (Hok eq_refl eq_refl eq_refl) as [self [Hself [Hsheet _]]].
    exists self. split; assumption.
  - apply (init_outcome squeezed_sheet (mkBuffer xyz side_by_side) [(0, 9)]%nat).
    reflexivity.
  - apply (init_outcome squeezed_sheet (mkBuffer [cx; cy] side_by_side) squeezed_pairs);
      [reflexivity | reflexivity | simpl; lia].
Defined.

(** X3.  For boxes built by [__init__], no plane computation raises (every
    face of a pair owns an edge, so that no bounding box is empty); if
    moreover the source vertex of every edge is in the vertex table and
    the sheet has the three coordinate columns, [solve_collisions] returns:
    none of its lookups meets a missing label. *)
Theorem resolver_never_raises (sh : Sheet) (buf : PositionBuffer)
  (pairs : list (edge_id * edge_id)) (self : CollidingBoxes) (shyness : float64) :
  init sh buf pairs = Ok self ->
  Forall (fun lim => exists r, lim = Ok r) (get_limits self shyness) /\
  (sources_known sh = true -> has_xyz sh = true ->
   exists (sh' : Sheet) (ret : retval), solve_collisions self shyness = Ok (sh', ret)).
Proof.
  intro Hinit. split; [exact (get_limits_ok sh buf pairs self shyness Hinit) |].
  intros Hsrc Hxyz.
  exact (solve_collisions_total sh buf pairs self shyness Hinit Hsrc Hxyz).
Qed.

(** X3 on the squeezed mesh. *)
Lemma resolver_never_raises_witness :
  exists (sh' : Sheet) (ret : retval),
    solve_collisions (force squeezed_boxes) default_shyness = Ok (sh', ret).
Proof.
  destruct (resolver_never_raises squeezed_sheet (mkBuffer xyz side_by_side)
              squeezed_pairs (force squeezed_boxes) default_shyness eq_refl)
    as [_ Hret].
  exact (Hret eq_refl eq_refl).
Defined.

End ResolverProps.

(** ** The positions that [solve_collisions] writes *)

Module FinalFacts.

Import Collisions Spec Wellformed FrameFacts BoundsFacts TotalFacts.

Lemma coord_eq_dec (a b : coord) : {a = b} + {a <> b}.
Proof. decide equality. Defined.

Lemma write_cols_in (cols : list coord) (new : Vec3) (c : coord) :
  In c cols -> forall old : Vec3, get c (write_cols cols new old) = get c new.
Proof.
  unfold write_cols.
  induction cols as [| c' tl IH]; intros Hc old; [destruct Hc |].
  simpl. destruct (in_dec coord_eq_dec c tl) as [Hin | Hnot].
  - apply IH. exact Hin.
  - destruct Hc as [-> | Hc]; [| contradiction].
    pose proof (write_cols_other tl new c Hnot (set c (get c new) old)) as E.
    unfold write_cols in E. rewrite E, get_set.
    assert (coord_eqb c c = true) by (apply coord_eqb_eq; reflexivity).
    rewrite H. reflexivity.
Qed.

Lemma set_fold_get (f : coord -> float64) (cds : list coord) (c : coord) :
  In c cds ->
  forall base : Vec3,
    get c (fold_left (fun acc c' => set c' (f c') acc) cds base) = f c.
Proof.
  induction cds as [| c' tl IH]; intros Hc base; [destruct Hc |].
  simpl.
  assert (Hkeep : forall (l : list coord) (b : Vec3), ~ In c l ->
             get c (fold_left (fun acc c' => set c' (f c') acc) l b) = get c b).
  { induction l as [| d l IHl]; intros b Hn; simpl; [reflexivity |].
    rewrite IHl by (intro; apply Hn; right; assumption).
    rewrite get_set. destruct (coord_eqb c d) eqn:E; [| reflexivity].
    apply coord_eqb_eq in E. exfalso. apply Hn. left. symmetry. exact E. }
  destruct (existsb (coord_eqb c) tl) eqn:Ex.
  - apply IH. apply mem_coord_in. exact Ex.
  - assert (Hn : ~ In c tl).
    { intro Hin. apply mem_coord_in in Hin. unfold mem_coord in Hin. congruence. }
    destruct Hc as [-> | Hc]; [| contradiction].
    rewrite Hkeep by exact Hn. rewrite get_set.
    assert (coord_eqb c c = true) by (apply coord_eqb_eq; reflexivity).
    rewrite H. reflexivity.
Qed.

Lemma written_absent (cds : list coord) (v : vert_id) (rows : list (vert_id * Vec3)) :
  ~ In v (Frame.index rows) -> forall cur, written cds v rows cur = cur.
Proof.
  unfold written, Frame.index.
  induction rows as [| [k x] tl IH]; intros Hn cur; simpl; [reflexivity |].
  destruct (k =? v) eqn:E.
  - apply Nat.eqb_eq in E. exfalso. apply Hn. left. exact E.
  - apply IH. intro H. apply Hn. right. exact H.
Qed.

Lemma written_other (cds : list coord) (v : vert_id) (c : coord)
  (rows : list (vert_id * Vec3)) :
  ~ In c cds -> forall cur, get c (written cds v rows cur) = get c cur.
Proof.
  unfold written. intro Hc.
  induction rows as [| [k x] tl IH]; intro cur; simpl; [reflexivity |].
  rewrite IH. destruct (k =? v); [| reflexivity].
  apply write_cols_other. exact Hc.
Qed.

Lemma written_app (cds : list coord) (v : vert_id) (l1 l2 : list (vert_id * Vec3))
  (cur : Vec3) :
  written cds v (l1 ++ l2) cur = written cds v l2 (written cds v l1 cur).
Proof. unfold written. apply fold_left_app. Qed.

Lemma written_cons (cds : list coord) (v k : vert_id) (x : Vec3)
  (l : list (vert_id * Vec3)) (cur : Vec3) :
  written cds v ((k, x) :: l) cur
  = written cds v l (if k =? v then write_cols cds x cur else cur).
Proof. reflexivity. Qed.

Lemma written_last (cds : list coord) (v : vert_id) (c : coord)
  (l1 l2 : list (vert_id * Vec3)) (x : Vec3) :
  ~ In v (Frame.index l2) -> In c cds ->
  forall cur, get c (written cds v (l1 ++ (v, x) :: l2) cur) = get c x.
Proof.
  intros Hn Hc cur. rewrite written_app, written_cons, Nat.eqb_refl.
  rewrite (written_absent cds v l2 Hn).
  apply write_cols_in. exact Hc.
Qed.

Lemma index_app {A : Type} (l1 l2 : list (nat * A)) :
  Frame.index (l1 ++ l2) = Frame.index l1 ++ Frame.index l2.
Proof. unfold Frame.index. apply map_app. Qed.

Lemma split_last_key (rows : list (vert_id * Vec3)) (v : vert_id) (x : Vec3) :
  NoDup (Frame.index rows) -> In (v, x) rows ->
  exists l1 l2, rows = l1 ++ (v, x) :: l2 /\
                ~ In v (Frame.index l1) /\ ~ In v (Frame.index l2).
Proof.
  intros Hnd Hin. destruct (in_split _ _ Hin) as [l1 [l2 ->]].
  exists l1, l2. split; [reflexivity |].
  rewrite index_app in Hnd. simpl in Hnd.
  apply NoDup_remove_2 in Hnd.
  split; intro H; apply Hnd; apply in_or_app; auto.
Qed.

(** what the assignment of the two correction frames leaves in a row *)
Lemma written_corrections (cds : list coord) (v : vert_id)
  (cl cu : list (vert_id * Vec3)) (cur : Vec3) :
  NoDup (Frame.index cl) -> NoDup (Frame.index cu) ->
  let p := written cds v (cl ++ cu) cur in
  (forall c, ~ In c cds -> get c p = get c cur) /\
  (forall x, In (v, x) cu -> forall c, In c cds -> get c p = get c x) /\
  (forall x, In (v, x) cl -> ~ In v (Frame.index cu) ->
     forall c, In c cds -> get c p = get c x) /\
  (~ In v (Frame.index cl) -> ~ In v (Frame.index cu) -> p = cur).
Proof.
  intros Nl Nu p. subst p. split; [| split; [| split]].
  - intros c Hc. apply written_other. exact Hc.
  - intros x Hx c Hc.
    destruct (split_last_key cu v x Nu Hx) as [l1 [l2 [-> [_ H2]]]].
    rewrite app_assoc. apply written_last; assumption.
  - intros x Hx Hn c Hc.
    destruct (split_last_key cl v x Nl Hx) as [l1 [l2 [-> [_ H2]]]].
    rewrite <- app_assoc. simpl. apply written_last; [| exact Hc].
    rewrite index_app. intro H. apply in_app_or in H. tauto.
  - intros Hl Hu. apply written_absent.
    rewrite index_app. intro H. apply in_app_or in H. tauto.
Qed.

Lemma loc1_nodup {A : Type} (df : list (nat * A)) (k : nat) (r : A) :
  NoDup (Frame.index df) -> In (k, r) df -> Frame.loc1 df k = Ok r.
Proof.
  unfold Frame.index.
  induction df as [| [k' a] tl IH]; intros Hnd Hin; [destruct Hin |].
  simpl in *. inversion Hnd as [| ? ? Hk Htl]; subst.
  destruct Hin as [E | Hin].
  - injection E as -> ->. rewrite Nat.eqb_refl. reflexivity.
  - destruct (k' =? k) eqn:E.
    + apply Nat.eqb_eq in E. subst k'. exfalso. apply Hk.
      apply in_map_iff. exists (k, r). auto.
    + exact (IH Htl Hin).
Qed.

(** the rows of a correction frame: one per row of the bounds, under the
    same label, merging the current position with the bound *)
Lemma correction_rows (op : float64 -> float64 -> float64)
  (vdf : list (vert_id * Vec3)) (bounds : list (vert_id * Vec3)) :
  forall rows : list (vert_id * Vec3),
    correction op vdf bounds = Ok rows ->
    Frame.index rows = Frame.index bounds /\
    forall v x, In (v, x) rows ->
      exists cur b, Frame.loc1 vdf v = Ok cur /\ In (v, b) bounds /\
                    x = vec_map2 op cur b.
Proof.
  unfold correction. intros rows H.
  destruct (Frame.loc vdf (Frame.index bounds)) as [cur |] eqn:Hloc; [| discriminate].
  simpl in H. injection H as <-.
  revert cur Hloc. unfold Frame.index.
  induction bounds as [| [k b] tl IH]; intros cur Hloc.
  - simpl in Hloc. injection Hloc as <-. simpl. split; [reflexivity | intros v x []].
  - change (Frame.loc vdf (k :: map fst tl) = Ok cur) in Hloc.
    rewrite FacePairFacts.loc_cons in Hloc.
    destruct (Frame.loc1 vdf k) as [r |] eqn:Hr; [| discriminate].
    destruct (Frame.loc vdf (map fst tl)) as [cur' |] eqn:Htl; [| discriminate].
    cbv beta iota delta [bind] in Hloc. injection Hloc as <-.
    destruct (IH cur' Htl) as [Hidx Hrows]. simpl. split.
    + f_equal. exact Hidx.
    + intros v x [E | Hin].
      * injection E as <- <-. exists r, b. auto.
      * destruct (Hrows v x Hin) as [c0 [b0 [H1 [H2 H3]]]].
        exists c0, b0. auto.
Qed.

Lemma nanmin2_same (a : float64) : nanmin2 a a = a.
Proof.
  destruct a; try reflexivity. unfold nanmin2, minimum.
  destruct (leb (Fin q) (Fin q)); reflexivity.
Qed.

Lemma nanmax2_same (a : float64) : nanmax2 a a = a.
Proof.
  destruct a; try reflexivity. unfold nanmax2, maximum.
  destruct (leb (Fin q) (Fin q)); reflexivity.
Qed.

Lemma fold_same (op : float64 -> float64 -> float64) (a : float64) (n : nat) :
  op a a = a -> fold_left op (repeat a n) a = a.
Proof.
  intro H. induction n as [| n IH]; simpl; [reflexivity |].
  rewrite H. exact IH.
Qed.

(** reducing copies of one value gives that value back *)
Lemma nanmin_repeat (a : float64) (n : nat) : nanmin (repeat a (S n)) = a.
Proof.
  unfold nanmin. simpl.
  replace (nanmin2 NaN a) with a by (destruct a; reflexivity).
  apply fold_same. apply nanmin2_same.
Qed.

Lemma nanmax_repeat (a : float64) (n : nat) : nanmax (repeat a (S n)) = a.
Proof.
  unfold nanmax. simpl.
  replace (nanmax2 NaN a) with a by (destruct a; reflexivity).
  apply fold_same. apply nanmax2_same.
Qed.

(** in a table with distinct labels, the rows that the mask takes under
    the label [v] are copies of the row of [v] *)
Lemma take_finite_group (cds : list coord) (table : list (vert_id * Vec3))
  (v : vert_id) (r : Vec3) :
  NoDup (Frame.index table) -> In (v, r) table ->
  filter (fun vr => fst vr =? v) (take_finite cds table)
  = repeat (v, r) (count_finite cds r).
Proof.
  unfold take_finite, Frame.index, vert_id in *.
  assert (Hrep : forall (vr : nat * Vec3) (n : nat),
             filter (fun x => fst x =? v) (repeat vr n)
             = if fst vr =? v then repeat vr n else []).
  { intros [k a] n. simpl fst. destruct (k =? v) eqn:E;
      induction n as [| n IH]; simpl; try reflexivity; rewrite E, IH; reflexivity. }
  assert (Hnone : forall t : list (nat * Vec3),
             ~ In v (map fst t) ->
             filter (fun vr => fst vr =? v)
                    (flat_map (fun vr : nat * Vec3 =>
                                 repeat vr (count_finite cds (snd vr))) t) = []).
  { induction t as [| [k a] t IHt]; intro Hn; [reflexivity |].
    cbn [flat_map]. rewrite filter_app, Hrep.
    rewrite IHt by (intro; apply Hn; right; assumption).
    cbn [fst]. destruct (k =? v) eqn:E; [| reflexivity].
    apply Nat.eqb_eq in E. exfalso. apply Hn. left. exact E. }
  induction table as [| [k a] tl IH]; intros Hnd Hin; [destruct Hin |].
  cbn [map fst] in Hnd. inversion Hnd as [| ? ? Hk Htl]; subst.
  cbn [flat_map]. rewrite filter_app, Hrep. cbn [fst snd].
  destruct Hin as [E | Hin].
  - injection E as -> ->. rewrite Nat.eqb_refl.
    rewrite Hnone by exact Hk. apply app_nil_r.
  - destruct (k =? v) eqn:E.
    + apply Nat.eqb_eq in E. subst k. exfalso. apply Hk.
      apply in_map_iff. exists (v, r). auto.
    + cbn [app]. exact (IH Htl Hin).
Qed.

Lemma has_finite_pos (cds : list coord) (r : Vec3) :
  has_finite cds r = true <-> (0 < count_finite cds r)%nat.
Proof.
  unfold has_finite. rewrite negb_true_iff, Nat.eqb_neq. lia.
Qed.

(** the rows left by the mask and the [groupby]: one per vertex holding a
    finite bound, equal on the columns [cds] to the row of the table *)
Lemma groupby_rows (agg : list float64 -> float64) (cds : list coord)
  (table : list (vert_id * Vec3)) :
  (forall a n, agg (repeat a (S n)) = a) ->
  NoDup (Frame.index table) ->
  let grouped := groupby_apply agg cds (take_finite cds table) in
  NoDup (Frame.index grouped) /\
  (forall v, In v (Frame.index grouped) <->
             exists r, In (v, r) table /\ has_finite cds r = true) /\
  (forall v g, In (v, g) grouped ->
     exists r, In (v, r) table /\ has_finite cds r = true /\
               forall c, In c cds -> get c g = get c r).
Proof.
  intros Hagg Hnd grouped.
  assert (Hkeys : forall v, In v (Frame.index grouped) <->
                    exists r, In (v, r) table /\ has_finite cds r = true).
  { intro v. unfold grouped. rewrite groupby_index, sorted_keys_in.
    unfold Frame.index. rewrite in_map_iff. split.
    - intros [[v' r] [E Hin]]. simpl in E. subst v'.
      apply take_finite_in in Hin. exists r. rewrite has_finite_pos. exact Hin.
    - intros [r [Hin Hf]]. exists (v, r). split; [reflexivity |].
      apply take_finite_in. rewrite <- has_finite_pos. auto. }
  split; [| split; [exact Hkeys |]].
  - unfold grouped. rewrite groupby_index. apply sorted_keys_nodup.
  - intros v g Hin.
    assert (Hv : In v (Frame.index grouped)).
    { unfold Frame.index. apply in_map_iff. exists (v, g). auto. }
    apply Hkeys in Hv. destruct Hv as [r [Hr Hf]].
    exists r. split; [exact Hr |]. split; [exact Hf |].
    intros c Hc.
    unfold grouped, groupby_apply in Hin. apply in_map_iff in Hin.
    destruct Hin as [k [E _]]. injection E as -> <-.
    rewrite (set_fold_get
               (fun c' => agg (map (get c')
                                   (map snd (filter (fun vr => fst vr =? v)
                                                    (take_finite cds table)))))
               cds c Hc).
    rewrite (take_finite_group cds table v r Hnd Hr).
    apply has_finite_pos in Hf.
    destruct (count_finite cds r) as [| n]; [lia |].
    rewrite !map_repeat. simpl snd. apply Hagg.
Qed.

End FinalFacts.

Module PositionFacts.

Import Collisions Spec Wellformed FrameFacts BoundsFacts TotalFacts FinalFacts Examples.

Lemma in_index {A : Type} (l : list (nat * A)) (v : nat) :
  In v (Frame.index l) <-> exists x, In (v, x) l.
Proof.
  unfold Frame.index. rewrite in_map_iff. split.
  - intros [[k x] [E H]]. simpl in E. subst k. exists x. exact H.
  - intros [x H]. exists (v, x). auto.
Qed.

Lemma aggregate_index (self : CollidingBoxes) (shyness : float64) (found : bool)
  (lb ub : list (vert_id * Vec3)) :
  aggregate_bounds self shyness = Ok (found, lb, ub) ->
  Frame.index lb = colliding_verts self /\ Frame.index ub = colliding_verts self.
Proof.
  unfold aggregate_bounds. intro H.
  destruct (fold_limits_index _ _ _ _ _ _ _ _ H) as [Hl Hu].
  rewrite bounds_table_index in Hl, Hu. auto.
Qed.

(** the row of a vertex after [solve_collisions] found a plane *)
Lemma positions_written (self : CollidingBoxes) (shyness : float64) (found : bool)
  (lb ub : list (vert_id * Vec3)) (sh' : Sheet) (v : vert_id) (cur : Vec3) :
  aggregate_bounds self shyness = Ok (found, lb, ub) ->
  solve_collisions self shyness = Ok (sh', RetNone) ->
  Frame.loc1 (vert_df (sheet self)) v = Ok cur ->
  let cds := coords (sheet self) in
  exists p : Vec3,
    Frame.loc1 (vert_df sh') v = Ok p /\
    (forall c, ~ In c cds -> get c p = get c cur) /\
    (forall up, Frame.loc1 ub v = Ok up -> has_finite cds up = true ->
       forall c, In c cds -> get c p = minimum (get c cur) (get c up)) /\
    (forall lo, Frame.loc1 lb v = Ok lo -> has_finite cds lo = true ->
       (forall up, Frame.loc1 ub v = Ok up -> has_finite cds up = false) ->
       forall c, In c cds -> get c p = maximum (get c cur) (get c lo)) /\
    ((forall lo, Frame.loc1 lb v = Ok lo -> has_finite cds lo = false) ->
     (forall up, Frame.loc1 ub v = Ok up -> has_finite cds up = false) ->
     p = cur).
Proof.
  intros Hagg Hsolve Hcur cds.
  destruct (aggregate_index self shyness found lb ub Hagg) as [Il Iu].
  assert (Nl : NoDup (Frame.index lb)) by (rewrite Il; apply unique_nodup).
  assert (Nu : NoDup (Frame.index ub)) by (rewrite Iu; apply unique_nodup).
  unfold solve_collisions in Hsolve. rewrite Hagg in Hsolve.
  cbv beta iota delta [bind] in Hsolve. fold cds in Hsolve.
  destruct (negb (if length ub =? 0 then false else found)); [discriminate |].
  destruct (groupby_rows nanmin cds ub nanmin_repeat Nu) as [NU [KU RU]].
  destruct (groupby_rows nanmax cds lb nanmax_repeat Nl) as [NL [KL RL]].
  destruct (correction minimum (vert_df (sheet self))
              (groupby_apply nanmin cds (take_finite cds ub))) as [cu |] eqn:Ecu;
    [| discriminate].
  destruct (correction maximum (vert_df (sheet self))
              (groupby_apply nanmax cds (take_finite cds lb))) as [cl |] eqn:Ecl;
    [| discriminate].
  cbv beta iota delta [bind] in Hsolve. injection Hsolve as <-.
  destruct (correction_rows minimum _ _ cu Ecu) as [Icu Rcu].
  destruct (correction_rows maximum _ _ cl Ecl) as [Icl Rcl].
  assert (Ncu : NoDup (Frame.index cu)) by (rewrite Icu; exact NU).
  assert (Ncl : NoDup (Frame.index cl)) by (rewrite Icl; exact NL).
  exists (written cds v (cl ++ cu) cur). split.
  { simpl vert_df. rewrite (assign_loc1 (write_cols cds) v (cl ++ cu) _ cur Hcur).
    reflexivity. }
  destruct (written_corrections cds v cl cu cur Ncl Ncu) as [Wo [Wu [Wl Wn]]].
  assert (Hupper : forall up, Frame.loc1 ub v = Ok up ->
                     (In v (Frame.index cu) <-> has_finite cds up = true)).
  { intros up Hup. rewrite Icu, KU. split.
    - intros [r [Hr Hf]]. rewrite (loc1_nodup ub v r Nu Hr) in Hup.
      injection Hup as <-. exact Hf.
    - intro Hf. exists up. split; [apply loc1_in; exact Hup | exact Hf]. }
  assert (Hlower : forall lo, Frame.loc1 lb v = Ok lo ->
                     (In v (Frame.index cl) <-> has_finite cds lo = true)).
  { intros lo Hlo. rewrite Icl, KL. split.
    - intros [r [Hr Hf]]. rewrite (loc1_nodup lb v r Nl Hr) in Hlo.
      injection Hlo as <-. exact Hf.
    - intro Hf. exists lo. split; [apply loc1_in; exact Hlo | exact Hf]. }
  assert (Hno_upper : (forall up, Frame.loc1 ub v = Ok up -> has_finite cds up = false) ->
                      ~ In v (Frame.index cu)).
  { intros Hnone Hin. rewrite Icu in Hin. apply KU in Hin.
    destruct Hin as [r [Hr Hf]].
    rewrite (Hnone r (loc1_nodup ub v r Nu Hr)) in Hf. discriminate. }
  assert (Hno_lower : (forall lo, Frame.loc1 lb v = Ok lo -> has_finite cds lo = false) ->
                      ~ In v (Frame.index cl)).
  { intros Hnone Hin. rewrite Icl in Hin. apply KL in Hin.
    destruct Hin as [r [Hr Hf]].
    rewrite (Hnone r (loc1_nodup lb v r Nl Hr)) in Hf. discriminate. }
  split; [exact Wo |]. split; [| split].
  - intros up Hup Hf c Hc.
    apply (Hupper up Hup) in Hf. apply in_index in Hf. destruct Hf as [x Hx].
    rewrite (Wu x Hx c Hc).
    destruct (Rcu v x Hx) as [cur0 [b [Hcur0 [Hb ->]]]].
    rewrite Hcur in Hcur0. injection Hcur0 as <-.
    destruct (RU v b Hb) as [r [Hr [_ Hcols]]].
    rewrite (loc1_nodup ub v r Nu Hr) in Hup. injection Hup as <-.
    rewrite PlaneFacts.get_vec_map2, (Hcols c Hc). reflexivity.
  - intros lo Hlo Hf Hnone c Hc.
    apply (Hlower lo Hlo) in Hf. apply in_index in Hf. destruct Hf as [x Hx].
    rewrite (Wl x Hx (Hno_upper Hnone) c Hc).
    destruct (Rcl v x Hx) as [cur0 [b [Hcur0 [Hb ->]]]].
    rewrite Hcur in Hcur0. injection Hcur0 as <-.
    destruct (RL v b Hb) as [r [Hr [_ Hcols]]].
    rewrite (loc1_nodup lb v r Nl Hr) in Hlo. injection Hlo as <-.
    rewrite PlaneFacts.get_vec_map2, (Hcols c Hc). reflexivity.
  - intros Hl Hu. apply Wn; [exact (Hno_lower Hl) | exact (Hno_upper Hu)].
Qed.

End PositionFacts.

Module FinalProps.

Import Collisions Spec Wellformed FrameFacts BoundsFacts TotalFacts FinalFacts
       PositionFacts Examples.

(** X4.  When [solve_collisions] has found a plane and returns, the row of
    a vertex [v] of the vertex table is as follows.  Columns outside
    [sheet.coords] keep their value.  If [v] holds a finite upper bound,
    every coordinate is [np.minimum] of the former coordinate and the
    aggregated upper bound, whatever lower bounds [v] holds.  If [v] holds
    finite lower bounds only, every coordinate is [np.maximum] of the
    former coordinate and the aggregated lower bound.  If [v] holds no
    finite bound (in particular if it is not a source vertex of a colliding
    face) its row is unchanged. *)
Theorem corrected_positions (self : CollidingBoxes) (shyness : float64) (found : bool)
  (lb ub : list (vert_id * Vec3)) (sh' : Sheet) (v : vert_id) (cur : Vec3) :
  aggregate_bounds self shyness = Ok (found, lb, ub) ->
  solve_collisions self shyness = Ok (sh', RetNone) ->
  Frame.loc1 (vert_df (sheet self)) v = Ok cur ->
  let cds := coords (sheet self) in
  exists p : Vec3,
    Frame.loc1 (vert_df sh') v = Ok p /\
    (forall c, ~ In c cds -> get c p = get c cur) /\
    (forall up, Frame.loc1 ub v = Ok up -> has_finite cds up = true ->
       forall c, In c cds -> get c p = minimum (get c cur) (get c up)) /\
    (forall lo, Frame.loc1 lb v = Ok lo -> has_finite cds lo = true ->
       (forall up, Frame.loc1 ub v = Ok up -> has_finite cds up = false) ->
       forall c, In c cds -> get c p = maximum (get c cur) (get c lo)) /\
    ((forall lo, Frame.loc1 lb v = Ok lo -> has_finite cds lo = false) ->
     (forall up, Frame.loc1 ub v = Ok up -> has_finite cds up = false) ->
     p = cur).
Proof. exact (positions_written self shyness found lb ub sh' v cur). Qed.

(** X4 on the squeezed mesh: vertex 3 holds a lower and an upper bound and
    gets the minimum with the upper one; vertex 6 holds a lower bound only
    and gets the maximum with it. *)
Lemma corrected_positions_witness :
  exists (found : bool) (lb ub : list (vert_id * Vec3)) (sh' : Sheet)
         (up3 lo6 p3 p6 : Vec3),
    aggregate_bounds (force squeezed_boxes) default_shyness = Ok (found, lb, ub) /\
    solve_collisions (force squeezed_boxes) default_shyness = Ok (sh', RetNone) /\
    Frame.loc1 ub 3%nat = Ok up3 /\ Frame.loc1 lb 6%nat = Ok lo6 /\
    Frame.loc1 (vert_df sh') 3%nat = Ok p3 /\
    Frame.loc1 (vert_df sh') 6%nat = Ok p6 /\
    get cx p3 = minimum (Fin (1 # 2)) (get cx up3) /\
    get cx p6 = maximum (Fin 4) (get cx lo6).
Proof.
  destruct (aggregate_bounds (force squeezed_boxes) default_shyness)
    as [[[found lb] ub] |] eqn:Hagg; [| vm_compute in Hagg; discriminate].
  destruct (solve_collisions (force squeezed_boxes) default_shyness)
    as [[sh' ret] |] eqn:Hsolve; [| vm_compute in Hsolve; discriminate].
  pose proof Hagg as Hagg'. vm_compute in Hagg'. injection Hagg' as <- <- <-.
  pose proof Hsolve as Hsolve'. vm_compute in Hsolve'. injection Hsolve' as <- <-.
  destruct (corrected_positions (force squeezed_boxes) default_shyness _ _ _ _
              3%nat (P (1 # 2) 0 0) Hagg Hsolve eq_refl) as [p3 [Hp3 [_ [Hmin _]]]].
  destruct (corrected_positions (force squeezed_boxes) default_shyness _ _ _ _
              6%nat (P 4 0 0) Hagg Hsolve eq_refl) as [p6 [Hp6 [_ [_ [Hmax _]]]]].
  do 4 eexists. eexists. eexists. exists p3, p6.
  split; [reflexivity |]. split; [reflexivity |].
  split; [vm_compute; reflexivity |]. split; [vm_compute; reflexivity |].
  split; [exact Hp3 |]. split; [exact Hp6 |].
  split.
  - apply Hmin; [vm_compute; reflexivity | reflexivity | simpl; auto].
  - apply Hmax; [vm_compute; reflexivity | reflexivity | | simpl; auto].
    intros up Hup. vm_compute in Hup. injection Hup as <-. reflexivity.
Defined.

End FinalProps.

Module ClampProps.

Import Collisions Spec Wellformed FrameFacts BoundsFacts TotalFacts FinalFacts
       PositionFacts Examples.

Lemma write1_loc1_absent {A : Type} (f : A -> A) (k v : nat) (df : list (nat * A)) :
  k <> v -> Frame.loc1 (Frame.write1 f k df) v = Frame.loc1 df v.
Proof.
  intro Hkv. induction df as [| [k' a] tl IH]; simpl; [reflexivity |].
  destruct (k' =? k) eqn:Ek; simpl.
  - apply Nat.eqb_eq in Ek. subst k'.
    destruct (k =? v) eqn:Ev; [apply Nat.eqb_eq in Ev; contradiction | exact IH].
  - destruct (k' =? v); [reflexivity | exact IH].
Qed.

Lemma assign_loc1_absent {A : Type} (w : A -> A -> A) (v : nat) (rows : list (nat * A)) :
  ~ In v (Frame.index rows) ->
  forall df, Frame.loc1 (Frame.assign w df rows) v = Frame.loc1 df v.
Proof.
  unfold Frame.assign, Frame.index.
  induction rows as [| [k x] tl IH]; intros Hn df; simpl; [reflexivity |].
  rewrite IH by (intro; apply Hn; right; assumption).
  apply write1_loc1_absent. intro E. apply Hn. left. exact E.
Qed.

Lemma correction_keys (op : float64 -> float64 -> float64)
  (agg : list float64 -> float64) (cds : list coord)
  (vdf table rows : list (vert_id * Vec3)) :
  correction op vdf (groupby_apply agg cds (take_finite cds table)) = Ok rows ->
  incl (Frame.index rows) (Frame.index table).
Proof.
  intros H v Hv.
  destruct (correction_rows op vdf _ rows H) as [Hidx _].
  rewrite Hidx, groupby_index in Hv.
  apply (proj1 (sorted_keys_in _ _)) in Hv.
  exact (take_finite_index cds table v Hv).
Qed.

(** X5.  [solve_collisions] only writes positions of source vertices of
    the colliding faces: the edge table, the coordinate columns, the active
    vertices and the settings of the sheet it returns are those it was
    given, the vertex table keeps its labels in their order, and the row of
    every vertex that is not a source vertex of a face of [face_pairs] is
    left as it was. *)
Theorem solve_collisions_frame (self : CollidingBoxes) (shyness : float64)
  (sh' : Sheet) (ret : retval) :
  solve_collisions self shyness = Ok (sh', ret) ->
  edge_df sh' = edge_df (sheet self) /\
  coords sh' = coords (sheet self) /\
  active_verts sh' = active_verts (sheet self) /\
  shyness_setting sh' = shyness_setting (sheet self) /\
  Frame.index (vert_df sh') = Frame.index (vert_df (sheet self)) /\
  forall v : vert_id, ~ In v (colliding_verts self) ->
    Frame.loc1 (vert_df sh') v = Frame.loc1 (vert_df (sheet self)) v.
Proof.
  unfold solve_collisions. intro H.
  destruct (aggregate_bounds self shyness) as [[[pf lb] ub] |] eqn:Hagg; [| discriminate].
  cbv beta iota delta [bind] in H.
  destruct (aggregate_index self shyness pf lb ub Hagg) as [Il Iu].
  destruct (negb (if length ub =? 0 then false else pf)).
  - injection H as <- _. repeat split; reflexivity.
  - destruct (correction minimum _ _) as [cu |] eqn:Ecu; [| discriminate].
    destruct (correction maximum _ _) as [cl |] eqn:Ecl; [| discriminate].
    cbv beta iota delta [bind] in H. injection H as <- _.
    simpl. repeat split.
    + apply assign_index.
    + intros v Hv. apply assign_loc1_absent.
      rewrite index_app. intro Hin. apply in_app_or in Hin. apply Hv.
      destruct Hin as [Hin | Hin].
      * rewrite <- Il. exact (correction_keys _ _ _ _ _ _ Ecl v Hin).
      * rewrite <- Iu. exact (correction_keys _ _ _ _ _ _ Ecu v Hin).
Qed.

(** X5 on the squeezed mesh, with a vertex 9 added that no edge uses. *)
Lemma solve_collisions_frame_witness :
  let sh := mkSheet (stretched ++ [(9%nat, P 7 7 7)]) (triangles stretched) xyz [] None in
  exists (self : CollidingBoxes) (sh' : Sheet) (ret : retval),
    init sh (mkBuffer xyz side_by_side) squeezed_pairs = Ok self /\
    solve_collisions self default_shyness = Ok (sh', ret) /\
    edge_df sh' = edge_df sh /\
    Frame.loc1 (vert_df sh') 9%nat = Ok (P 7 7 7).
Proof.
  intro sh.
  destruct (init sh (mkBuffer xyz side_by_side) squeezed_pairs) as [self |] eqn:Hinit;
    [| vm_compute in Hinit; discriminate].
  destruct (solve_collisions self default_shyness) as [[sh' ret] |] eqn:Hsolve;
    [| vm_compute in Hinit; injection Hinit as <-; vm_compute in Hsolve; discriminate].
  exists self, sh', ret.
  split; [reflexivity |]. split; [exact Hsolve |].
  destruct (solve_collisions_frame self default_shyness sh' ret Hsolve)
    as [He [_ [_ [_ [_ Hrow]]]]].
  vm_compute in Hinit. injection Hinit as <-.
  split; [exact He |].
  rewrite Hrow; [reflexivity |].
  vm_compute. intuition discriminate.
Defined.

(** X6.  After [solve_collisions] found a plane: for a vertex that holds a
    finite upper bound, each finite coordinate with a finite upper bound
    ends at or below that bound, unchanged when it was there already and
    on the bound otherwise, and a coordinate without upper bound is
    unchanged; for a vertex that holds finite lower bounds only, the same
    holds with its lower bounds. *)
Theorem one_sided_clamp (self : CollidingBoxes) (shyness : float64) (found : bool)
  (lb ub : list (vert_id * Vec3)) (sh' : Sheet) (v : vert_id) (cur : Vec3) (c : coord) :
  aggregate_bounds self shyness = Ok (found, lb, ub) ->
  solve_collisions self shyness = Ok (sh', RetNone) ->
  Frame.loc1 (vert_df (sheet self)) v = Ok cur ->
  In c (coords (sheet self)) ->
  isfinite (get c cur) = true ->
  exists p : Vec3,
    Frame.loc1 (vert_df sh') v = Ok p /\
    (forall up, Frame.loc1 ub v = Ok up -> has_finite (coords (sheet self)) up = true ->
       (get c up = PInf -> get c p = get c cur) /\
       (isfinite (get c up) = true ->
        leb (get c p) (get c up) = true /\
        (leb (get c cur) (get c up) = true -> get c p = get c cur) /\
        (leb (get c cur) (get c up) = false -> get c p = get c up))) /\
    (forall lo, Frame.loc1 lb v = Ok lo -> has_finite (coords (sheet self)) lo = true ->
       (forall up, Frame.loc1 ub v = Ok up ->
          has_finite (coords (sheet self)) up = false) ->
       (get c lo = NInf -> get c p = get c cur) /\
       (isfinite (get c lo) = true ->
        leb (get c lo) (get c p) = true /\
        (leb (get c lo) (get c cur) = true -> get c p = get c cur) /\
        (leb (get c lo) (get c cur) = false -> get c p = get c lo))).
Proof.
  intros Hagg Hsolve Hcur Hc Hfin.
  destruct (positions_written self shyness found lb ub sh' v cur Hagg Hsolve Hcur)
    as [p [Hp [_ [Hmin [Hmax _]]]]].
  exists p. split; [exact Hp |]. split.
  - intros up Hup Hf. rewrite (Hmin up Hup Hf c Hc).
    destruct (get c cur) as [| | a |]; try discriminate.
    split.
    + intros ->. reflexivity.
    + destruct (get c up) as [| | b |]; try discriminate. intros _.
      unfold minimum. destruct (leb (Fin a) (Fin b)) eqn:E.
      * split; [exact E |]. split; [reflexivity | discriminate].
      * split; [apply OrderFacts.leb_Fin; apply Qle_refl |].
        split; [discriminate | reflexivity].
  - intros lo Hlo Hf Hnone. rewrite (Hmax lo Hlo Hf Hnone c Hc).
    destruct (get c cur) as [| | a |]; try discriminate.
    split.
    + intros ->. reflexivity.
    + destruct (get c lo) as [| | b |]; try discriminate. intros _.
      unfold maximum. destruct (leb (Fin b) (Fin a)) eqn:E.
      * split; [exact E |]. split; [reflexivity | discriminate].
      * split; [apply OrderFacts.leb_Fin; apply Qle_refl |].
        split; [discriminate | reflexivity].
Qed.

(** X6 on the squeezed mesh: vertex 4, at x = 9/2, is above its upper bound
    and ends on it; vertex 6, at x = 4, is below its lower bound and ends
    on it. *)
Lemma one_sided_clamp_witness :
  exists (found : bool) (lb ub : list (vert_id * Vec3)) (sh' : Sheet)
         (up4 lo6 p4 p6 : Vec3),
    aggregate_bounds (force squeezed_boxes) default_shyness = Ok (found, lb, ub) /\
    solve_collisions (force squeezed_boxes) default_shyness = Ok (sh', RetNone) /\
    Frame.loc1 ub 4%nat = Ok up4 /\ Frame.loc1 lb 6%nat = Ok lo6 /\
    Frame.loc1 (vert_df sh') 4%nat = Ok p4 /\
    Frame.loc1 (vert_df sh') 6%nat = Ok p6 /\
    get cx p4 = get cx up4 /\
    get cx p6 = get cx lo6.
Proof.
  destruct (aggregate_bounds (force squeezed_boxes) default_shyness)
    as [[[found lb] ub] |] eqn:Hagg; [| vm_compute in Hagg; discriminate].
  destruct (solve_collisions (force squeezed_boxes) default_shyness)
    as [[sh' ret] |] eqn:Hsolve; [| vm_compute in Hsolve; discriminate].
  pose proof Hagg as Hagg'. vm_compute in Hagg'. injection Hagg' as <- <- <-.
  pose proof Hsolve as Hsolve'. vm_compute in Hsolve'. injection Hsolve' as <- <-.
  destruct (one_sided_clamp (force squeezed_boxes) default_shyness _ _ _ _
              4%nat (P (9 # 2) 0 0) cx Hagg Hsolve eq_refl)
    as [p4 [Hp4 [Hup _]]]; [simpl; auto | reflexivity |].
  destruct (one_sided_clamp (force squeezed_boxes) default_shyness _ _ _ _
              6%nat (P 4 0 0) cx Hagg Hsolve eq_refl)
    as [p6 [Hp6 [_ Hlo]]]; [simpl; auto | reflexivity |].
  do 4 eexists. eexists. eexists. exists p4, p6.
  split; [reflexivity |]. split; [reflexivity |].
  split; [vm_compute; reflexivity |]. split; [vm_compute; reflexivity |].
  split; [exact Hp4 |]. split; [exact Hp6 |].
  split.
  - edestruct Hup as [_ Hfin]; [vm_compute; reflexivity | reflexivity |].
    destruct (Hfin eq_refl) as [_ [_ Hmove]]. apply Hmove. reflexivity.
  - edestruct Hlo as [_ Hfin]; [vm_compute; reflexivity | reflexivity | |].
    + intros up Hup'. vm_compute in Hup'. injection Hup' as <-. reflexivity.
    + destruct (Hfin eq_refl) as [_ [_ Hmove]]. apply Hmove. reflexivity.
Defined.

End ClampProps.

(** ** The running maximum and minimum of the bounds *)

Module DominateFacts.

Import Collisions Spec Wellformed FrameFacts BoundsFacts TotalFacts FinalFacts
       FiniteFacts OrderFacts.






Section Step.

(** a merge [op] that keeps the class [cls] of values and goes up in the
    order [le]: [np.maximum] on the lower bounds, [np.minimum], with the
    order reversed, on the upper bounds *)
Variable op : float64 -> float64 -> float64.
Variable cls : float64 -> Prop.
Variable le : float64 -> float64 -> Prop.

Hypothesis op_spec : forall r a, cls r -> isfinite a = true ->
  cls (op r a) /\ le r (op r a) /\ le a (op r a) /\ (op r a = r \/ op r a = a).
Hypothesis le_refl : forall r, cls r -> le r r.


End Step.



Lemma finite_number (a : float64) : isfinite a = true -> a <> NaN.
Proof. destruct a; discriminate. Qed.







End DominateFacts.

(** ** The bounds that the loop of the collision resolver leaves *)

Module BoundProps.

Import NP Collisions Examples Spec Wellformed BoundsFacts DominateFacts.



End BoundProps.

(** ** The order of the two faces of a pair *)

Module PairFacts.

Import NP Collisions.

Lemma face_bbox_cases (points : list Vec3) :
  (exists b : BBox, _face_bbox points = Ok b) \/ _face_bbox points = Raise ValueError.
Proof.
  destruct points as [| p tl]; [right; reflexivity | left; eexists; reflexivity].
Qed.

End PairFacts.

Module PairProps.

Import NP Collisions Examples Wellformed Exchange PairFacts.

(** X8.  The faces of a pair come out of a Python set in no fixed order.
    Unless each of the two faces went over the other one (on two axes, or
    on two sides), [_collision_plane] gives the same result for [(f0, f1)]
    and for [(f1, f0)], exceptions included.  When each went over the
    other, both orders give a plane, and the face whose vertices get the
    lower bounds in one order gets the upper bounds in the other. *)
Theorem plane_pair_order (self : CollidingBoxes) (f0 f1 : face_id) (shyness : float64) :
  (crosses self f0 f1 && crosses self f1 f0 = false ->
   _collision_plane self (f0, f1) shyness = _collision_plane self (f1, f0) shyness) /\
  (crosses self f0 f1 && crosses self f1 f0 = true ->
   exists lo up lo' up' : PlaneFrame,
     _collision_plane self (f0, f1) shyness = Ok (Some (lo, up)) /\
     _collision_plane self (f1, f0) shyness = Ok (Some (lo', up')) /\
     pf_index lo = map srce (face_edges (sheet self) f1) /\
     pf_index up = map srce (face_edges (sheet self) f0) /\
     pf_index lo' = pf_index up /\
     pf_index up' = pf_index lo).
Proof.
  unfold crosses, _collision_plane.
  destruct (face_bbox_cases (map spoint (face_edges (sheet self) f0)))
    as [[b0c E0c] | E0c]; rewrite E0c;
  destruct (face_bbox_cases (map spoint (face_edges (sheet self) f1)))
    as [[b1c E1c] | E1c]; rewrite E1c;
  destruct (face_bbox_cases (face_buffer self f0)) as [[b0p E0p] | E0p]; rewrite E0p;
  destruct (face_bbox_cases (face_buffer self f1)) as [[b1p E1p] | E1p]; rewrite E1p;
  cbv beta iota zeta delta [bind];
  try (split; [reflexivity | discriminate]).
  destruct (existsb (sign_change b0c b1c b0p b1p) xyz) eqn:A;
    destruct (existsb (sign_change b1c b0c b1p b0p) xyz) eqn:B;
    cbv beta iota delta [andb]; split; intro H; try discriminate; try reflexivity.
  do 4 eexists. repeat split; reflexivity.
Qed.

(** X8 on the squeezed mesh, where face 1 went over face 0 only, and on
    two faces that exchanged their places. *)
Lemma plane_pair_order_witness :
  _collision_plane (force squeezed_boxes) (0, 1)%nat default_shyness =
  _collision_plane (force squeezed_boxes) (1, 0)%nat default_shyness /\
  exists lo up lo' up' : PlaneFrame,
    _collision_plane (force swap_boxes) (0, 1)%nat default_shyness = Ok (Some (lo, up)) /\
    _collision_plane (force swap_boxes) (1, 0)%nat default_shyness = Ok (Some (lo', up')) /\
    pf_index lo = [3; 4; 5]%nat /\ pf_index up' = [3; 4; 5]%nat /\
    pf_index up = [0; 1; 2]%nat /\ pf_index lo' = [0; 1; 2]%nat.
Proof.
  split.
  - apply (proj1 (plane_pair_order (force squeezed_boxes) 0%nat 1%nat default_shyness)).
    vm_compute. reflexivity.
  - destruct (proj2 (plane_pair_order (force swap_boxes) 0%nat 1%nat default_shyness))
      as [lo [up [lo' [up' [H [H' [Il [Iu [Il' Iu']]]]]]]]]; [vm_compute; reflexivity |].
    exists lo, up, lo', up'.
    split; [exact H |]. split; [exact H' |].
    split; [rewrite Il; vm_compute; reflexivity |].
    split; [rewrite Iu', Il; vm_compute; reflexivity |].
    split; [rewrite Iu; vm_compute; reflexivity |].
    rewrite Il', Iu. vm_compute. reflexivity.
Defined.

End PairProps.

(** ** Writing and reading the positions of the active vertices *)

Module SetPosFacts.

Import NP Collisions Quasistatic FrameFacts BoundsFacts.

Section Writes.

Context {B : Type}.
Variable g : B -> Vec3 -> Vec3.

Lemma write1_absent (f : Vec3 -> Vec3) (k v : nat) (df : list (nat * Vec3)) :
  k <> v -> Frame.loc1 (Frame.write1 f k df) v = Frame.loc1 df v.
Proof.
  intro Hkv. induction df as [| [k' a] tl IH]; simpl; [reflexivity |].
  destruct (k' =? k)%nat eqn:Ek; simpl.
  - apply Nat.eqb_eq in Ek. subst k'.
    destruct (k =? v)%nat eqn:Ev; [apply Nat.eqb_eq in Ev; contradiction | exact IH].
  - destruct (k' =? v)%nat; [reflexivity | exact IH].
Qed.

Lemma writes_loc1 (v : nat) (rows : list (nat * B)) :
  forall (df : list (nat * Vec3)) (r : Vec3),
    Frame.loc1 df v = Ok r ->
    Frame.loc1 (fold_left (fun d kr => Frame.write1 (g (snd kr)) (fst kr) d) rows df) v
    = Ok (fold_left (fun acc kr => if (fst kr =? v)%nat then g (snd kr) acc else acc)
                    rows r).
Proof.
  induction rows as [| kr tl IH]; intros df r Hr; simpl; [exact Hr |].
  apply IH. apply write1_loc1. exact Hr.
Qed.

Lemma writes_absent (v : nat) (rows : list (nat * B)) :
  ~ In v (map fst rows) ->
  forall df : list (nat * Vec3),
    Frame.loc1 (fold_left (fun d kr => Frame.write1 (g (snd kr)) (fst kr) d) rows df) v
    = Frame.loc1 df v.
Proof.
  induction rows as [| [k b] tl IH]; intros Hn df; simpl; [reflexivity |].
  rewrite IH by (intro; apply Hn; right; assumption).
  apply write1_absent. intro E. apply Hn. left. exact E.
Qed.


Lemma fold_key_absent (k : nat) (rows : list (nat * B)) :
  ~ In k (map fst rows) ->
  forall r : Vec3,
    fold_left (fun acc kr => if (fst kr =? k)%nat then g (snd kr) acc else acc) rows r = r.
Proof.
  induction rows as [| [k' b] tl IH]; intros Hn r; simpl; [reflexivity |].
  destruct (k' =? k)%nat eqn:E.
  - apply Nat.eqb_eq in E. exfalso. apply Hn. left. exact E.
  - apply IH. intro H. apply Hn. right. exact H.
Qed.

Lemma fold_key_unique (k : nat) (b : B) (rows : list (nat * B)) :
  NoDup (map fst rows) -> In (k, b) rows ->
  forall r : Vec3,
    fold_left (fun acc kr => if (fst kr =? k)%nat then g (snd kr) acc else acc) rows r
    = g b r.
Proof.
  induction rows as [| [k' b'] tl IH]; intros Hnd Hin r; [destruct Hin |].
  simpl in Hnd. inversion Hnd as [| x l Hnot Hnd']; subst x l.
  simpl. destruct Hin as [E | Hin].
  - injection E as -> ->. rewrite Nat.eqb_refl.
    apply fold_key_absent. exact Hnot.
  - destruct (k' =? k)%nat eqn:E.
    + apply Nat.eqb_eq in E. subst k'. exfalso. apply Hnot.
      apply in_map_iff. exists (k, b). auto.
    + apply IH; assumption.
Qed.

Lemma fold_key_keeps (P : Vec3 -> Vec3 -> Prop) (k : nat) (rows : list (nat * B)) :
  (forall r, P r r) ->
  (forall b r r', P r r' -> P r (g b r')) ->
  forall r : Vec3,
    P r (fold_left (fun acc kr => if (fst kr =? k)%nat then g (snd kr) acc else acc)
                   rows r).
Proof.
  intros Hrefl Hstep r.
  assert (G : forall acc, P r acc ->
            P r (fold_left (fun acc kr => if (fst kr =? k)%nat then g (snd kr) acc else acc)
                           rows acc)).
  { induction rows as [| [k' b] tl IH]; intros acc Hacc; simpl; [exact Hacc |].
    apply IH. destruct (k' =? k)%nat; [apply Hstep; exact Hacc | exact Hacc]. }
  apply G. apply Hrefl.
Qed.

End Writes.

Lemma combine_keys {A B : Type} (ks : list A) :
  forall bs : list B, length ks = length bs -> map fst (combine ks bs) = ks.
Proof.
  induction ks as [| k tl IH]; intros [| b bs] Hlen; try discriminate; [reflexivity |].
  simpl. f_equal. apply IH. simpl in Hlen. injection Hlen as Hlen. exact Hlen.
Qed.

Lemma combine_keys_in {A B : Type} (ks : list A) (bs : list B) (k : A) :
  In k (map fst (combine ks bs)) -> In k ks.
Proof.
  intro H. apply in_map_iff in H. destruct H as [[k' b] [E H]]. simpl in E. subst k'.
  exact (in_combine_l _ _ _ _ H).
Qed.

Lemma loc_rows {A : Type} (df : list (nat * A)) (ks : list nat) :
  forall rows : list A,
    Frame.loc df ks = Ok rows ->
    forall k, In k ks -> exists r, Frame.loc1 df k = Ok r.
Proof.
  induction ks as [| k0 tl IH]; intros rows Hloc k Hin; [destruct Hin |].
  simpl in Hloc.
  destruct (Frame.loc1 df k0) as [r0 |] eqn:H0; [| discriminate].
  destruct (Frame.loc df tl) as [rows' |] eqn:Htl; [| discriminate].
  destruct Hin as [<- | Hin]; [exists r0; exact H0 |].
  exact (IH rows' eq_refl k Hin).
Qed.

(** a column that is not written keeps its value *)
Lemma write_values_other (c : coord) (cds : list coord) :
  ~ In c cds ->
  forall (vals : list float64) (r : Vec3), get c (write_values cds vals r) = get c r.
Proof.
  induction cds as [| c' tl IH]; intros Hn vals r; simpl; [reflexivity |].
  destruct vals as [| a vals']; [reflexivity |].
  rewrite IH by (intro; apply Hn; right; assumption).
  rewrite get_set. destruct (coord_eqb c c') eqn:E; [| reflexivity].
  apply coord_eqb_eq in E. exfalso. apply Hn. left. symmetry. exact E.
Qed.







End SetPosFacts.

Module SetPosProps.

Import NP Collisions Quasistatic Examples FrameFacts SetPosFacts.



End SetPosProps.

(** ** Back to the snapshot *)

Module RevertFacts.

Import NP Collisions FrameFacts BoundsFacts TotalFacts FinalFacts SetPosFacts Wellformed.

Lemma loc_forall2 {A : Type} (df : list (nat * A)) (ks : list nat) :
  forall rows : list A,
    Frame.loc df ks = Ok rows ->
    Forall2 (fun k r => Frame.loc1 df k = Ok r) ks rows.
Proof.
  induction ks as [| k tl IH]; intros rows Hloc; simpl in Hloc.
  - injection Hloc as <-. constructor.
  - destruct (Frame.loc1 df k) as [r |] eqn:Hk; [| discriminate].
    destruct (Frame.loc df tl) as [rows' |] eqn:Htl; [| discriminate].
    simpl in Hloc. injection Hloc as <-.
    constructor; [exact Hk | exact (IH rows' eq_refl)].
Qed.

Lemma loc1_raises {A : Type} (df : list (nat * A)) (k : nat) (e : exn) :
  Frame.loc1 df k = Raise e -> e = KeyError.
Proof.
  induction df as [| [k' a] tl IH]; simpl.
  - intro H. injection H as <-. reflexivity.
  - destruct (k' =? k)%nat; [discriminate | exact IH].
Qed.

Lemma loc_raises {A : Type} (df : list (nat * A)) (ks : list nat) (e : exn) :
  Frame.loc df ks = Raise e -> e = KeyError.
Proof.
  induction ks as [| k tl IH]; simpl; [discriminate |].
  destruct (Frame.loc1 df k) as [r | e1] eqn:Hk.
  - destruct (Frame.loc df tl) as [rows | e2]; [discriminate |].
    simpl. intro H. injection H as <-. apply IH. reflexivity.
  - simpl. intro H. injection H as <-. exact (loc1_raises df k e1 Hk).
Qed.

Lemma forall2_left {A B : Type} (R : A -> B -> Prop) (l : list A) (l' : list B) (a : A) :
  Forall2 R l l' -> In a l -> exists b : B, In (a, b) (combine l l') /\ R a b.
Proof.
  induction 1 as [| x y tl tl' Hxy _ IH]; intro Hin; [destruct Hin |].
  destruct Hin as [<- | Hin].
  - exists y. split; [left; reflexivity | exact Hxy].
  - destruct (IH Hin) as [b [Hb Hr]]. exists b. split; [right; exact Hb | exact Hr].
Qed.

Lemma forall2_right {A B : Type} (R : A -> B -> Prop) (l : list A) (l' : list B) (b : B) :
  Forall2 R l l' -> In b l' -> exists a : A, In a l /\ R a b.
Proof.
  induction 1 as [| x y tl tl' Hxy _ IH]; intro Hin; [destruct Hin |].
  destruct Hin as [<- | Hin].
  - exists x. split; [left; reflexivity | exact Hxy].
  - destruct (IH Hin) as [a [Ha Hr]]. exists a. split; [right; exact Ha | exact Hr].
Qed.

(** a column of [cds] gets the value of the snapshot, or NaN when the
    snapshot does not have it; another column is kept *)
Lemma aligned_get (buf_cols cds : list coord) (snap old : Vec3) (c : coord) :
  get c (aligned buf_cols cds snap old)
  = if mem_coord c cds
    then (if mem_coord c buf_cols then get c snap else NaN)
    else get c old.
Proof.
  unfold aligned.
  destruct (mem_coord c cds) eqn:E.
  - apply mem_coord_in in E.
    exact (set_fold_get (fun c' => if mem_coord c' buf_cols then get c' snap else NaN)
             cds c E old).
  - assert (Hn : ~ In c cds).
    { intro H. apply mem_coord_in in H. congruence. }
    clear E. revert old.
    induction cds as [| c' tl IH]; intro old; simpl; [reflexivity |].
    rewrite IH by (intro; apply Hn; right; assumption).
    rewrite get_set. destruct (coord_eqb c c') eqn:E; [| reflexivity].
    apply coord_eqb_eq in E. exfalso. apply Hn. left. symmetry. exact E.
Qed.

(** the vertices that [revert_positions] writes are the ends of the
    intersecting edges *)
Lemma unique_verts_endpoint (sh : Sheet) (pairs : list (edge_id * edge_id))
  (rows : list EdgeRow) (v : vert_id) :
  Frame.loc (edge_df sh) (sorted_keys (flatten pairs)) = Ok rows ->
  (In v (sorted_keys (flat_map (fun r => [srce r; trgt r]) rows)) <-> endpoint sh pairs v).
Proof.
  intro Hloc. pose proof (loc_forall2 _ _ rows Hloc) as Hall.
  rewrite sorted_keys_in, in_flat_map. unfold endpoint. split.
  - intros [r [Hr Hv]].
    destruct (forall2_right _ _ _ r Hall Hr) as [e [He Her]].
    exists e, r. split; [apply (proj1 (sorted_keys_in _ _)); exact He |].
    split; [exact Her |].
    destruct Hv as [<- | [<- | []]]; [left | right]; reflexivity.
  - intros [e [r [He [Her Hv]]]].
    destruct (forall2_left _ _ _ e Hall (proj2 (sorted_keys_in _ _) He))
      as [r' [Hin Her']].
    rewrite Her in Her'. injection Her' as <-.
    exists r. split; [exact (in_combine_r _ _ _ _ Hin) |].
    destruct Hv as [-> | ->]; simpl; auto.
Qed.

(** what [revert_positions] leaves in the vertex table *)
Lemma revert_rows (sh : Sheet) (buf : PositionBuffer) (pairs : list (edge_id * edge_id))
  (sh' : Sheet) :
  revert_positions sh buf pairs = Ok sh' ->
  (forall v, endpoint sh pairs v ->
     exists snap cur : Vec3,
       Frame.loc1 (pb_rows buf) v = Ok snap /\
       Frame.loc1 (vert_df sh) v = Ok cur /\
       Frame.loc1 (vert_df sh') v
       = Ok (aligned (pb_columns buf) (coords sh) snap cur)) /\
  (forall v, ~ endpoint sh pairs v ->
     Frame.loc1 (vert_df sh') v = Frame.loc1 (vert_df sh) v).
Proof.
  unfold revert_positions.
  destruct (Frame.loc (edge_df sh) (sorted_keys (flatten pairs))) as [rows |] eqn:Hrows;
    [| discriminate].
  cbv beta iota zeta delta [bind].
  set (verts := sorted_keys (flat_map (fun r => [srce r; trgt r]) rows)).
  destruct (Frame.loc (pb_rows buf) verts) as [snaps |] eqn:Hsnap; [| discriminate].
  destruct (Frame.loc (vert_df sh) verts) as [curs |] eqn:Hcur; [| discriminate].
  intro H. injection H as <-. simpl.
  pose proof (loc_forall2 _ _ snaps Hsnap) as Fs.
  assert (Hkeys : map fst (combine verts snaps) = verts)
    by (apply combine_keys; symmetry; exact (loc_length _ _ snaps Hsnap)).
  assert (Hnd : NoDup (map fst (combine verts snaps)))
    by (rewrite Hkeys; apply sorted_keys_nodup).
  split.
  - intros v Hv. apply (unique_verts_endpoint sh pairs rows v Hrows) in Hv.
    destruct (forall2_left _ _ _ v Fs Hv) as [snap [Hin Hs]].
    destruct (loc_rows _ _ curs Hcur v Hv) as [cur Hc].
    exists snap, cur. split; [exact Hs |]. split; [exact Hc |].
    unfold Frame.assign.
    rewrite (writes_loc1 (aligned (pb_columns buf) (coords sh)) v _ (vert_df sh) cur Hc).
    f_equal.
    exact (fold_key_unique (aligned (pb_columns buf) (coords sh)) v snap _ Hnd Hin cur).
  - intros v Hv. unfold Frame.assign.
    apply (writes_absent (aligned (pb_columns buf) (coords sh))).
    intro Hin. apply Hv.
    apply (unique_verts_endpoint sh pairs rows v Hrows).
    apply (combine_keys_in verts snaps). exact Hin.
Qed.

End RevertFacts.

Module RevertProps.

Import NP Collisions Examples FrameFacts TotalFacts SetPosFacts Wellformed RevertFacts.

(** X10.  [revert_positions] fails with [KeyError] and nothing else, and
    does so when an edge of the intersecting pairs is not in the edge
    table.  When it returns, it has written the vertex table only: each end
    (source or target) of an intersecting edge holds, in every column of
    [sheet.coords], the value of the snapshot (NaN in a column that the
    snapshot does not have) and keeps its other columns; every other
    vertex keeps its row; the labels of the table are those it had. *)
Theorem revert_positions_restores (sh : Sheet) (buf : PositionBuffer)
  (pairs : list (edge_id * edge_id)) :
  (forall e : exn, revert_positions sh buf pairs = Raise e -> e = KeyError) /\
  (edges_known sh pairs = false -> revert_positions sh buf pairs = Raise KeyError) /\
  (forall sh' : Sheet,
     revert_positions sh buf pairs = Ok sh' ->
     edge_df sh' = edge_df sh /\ coords sh' = coords sh /\
     active_verts sh' = active_verts sh /\
     shyness_setting sh' = shyness_setting sh /\
     Frame.index (vert_df sh') = Frame.index (vert_df sh) /\
     (forall v, endpoint sh pairs v ->
        exists snap cur new : Vec3,
          Frame.loc1 (pb_rows buf) v = Ok snap /\
          Frame.loc1 (vert_df sh) v = Ok cur /\
          Frame.loc1 (vert_df sh') v = Ok new /\
          forall c : coord,
            get c new = if mem_coord c (coords sh)
                        then (if mem_coord c (pb_columns buf) then get c snap else NaN)
                        else get c cur) /\
     (forall v, ~ endpoint sh pairs v ->
        Frame.loc1 (vert_df sh') v = Frame.loc1 (vert_df sh) v)).
Proof.
  split; [| split].
  - intro e. unfold revert_positions.
    destruct (Frame.loc (edge_df sh) (sorted_keys (flatten pairs))) as [rows | e1] eqn:H1.
    + cbv beta iota zeta delta [bind].
      set (verts := sorted_keys (flat_map (fun r => [srce r; trgt r]) rows)).
      destruct (Frame.loc (pb_rows buf) verts) as [snaps | e2] eqn:H2.
      * destruct (Frame.loc (vert_df sh) verts) as [curs | e3] eqn:H3; [discriminate |].
        intro H. injection H as <-. exact (loc_raises _ _ e3 H3).
      * intro H. injection H as <-. exact (loc_raises _ _ e2 H2).
    + cbv beta iota delta [bind]. intro H. injection H as <-.
      exact (loc_raises _ _ e1 H1).
  - intro Hk. unfold revert_positions.
    rewrite (proj2 (loc_outcome (edge_df sh) (sorted_keys (flatten pairs)))).
    + reflexivity.
    + intro Hincl. unfold edges_known in Hk.
      assert (Hall : forallb (fun e => mem_nat e (Frame.index (edge_df sh)))
                       (flatten pairs) = true).
      { apply forallb_forall. intros e He. apply mem_nat_in.
        apply Hincl. apply (proj2 (sorted_keys_in _ _)). exact He. }
      congruence.
  - intros sh' Hrun.
    destruct (revert_rows sh buf pairs sh' Hrun) as [Hends Hrest].
    assert (Hfields : edge_df sh' = edge_df sh /\ coords sh' = coords sh /\
                      active_verts sh' = active_verts sh /\
                      shyness_setting sh' = shyness_setting sh /\
                      Frame.index (vert_df sh') = Frame.index (vert_df sh)).
    { revert Hrun. unfold revert_positions.
      destruct (Frame.loc (edge_df sh) (sorted_keys (flatten pairs))) as [rows |];
        [| discriminate].
      cbv beta iota zeta delta [bind].
      destruct (Frame.loc (pb_rows buf) _) as [snaps |]; [| discriminate].
      destruct (Frame.loc (vert_df sh) _) as [curs |]; [| discriminate].
      intro H. injection H as <-. simpl.
      repeat split. apply assign_index. }
    destruct Hfields as [F1 [F2 [F3 [F4 F5]]]].
    repeat (split; [assumption |]).
    split; [| exact Hrest].
    intros v Hv. destruct (Hends v Hv) as [snap [cur [Hs [Hc Hn]]]].
    exists snap, cur, (aligned (pb_columns buf) (coords sh) snap cur).
    split; [exact Hs |]. split; [exact Hc |]. split; [exact Hn |].
    intro c. apply aligned_get.
Qed.

(** X10 on the squeezed mesh and the snapshot of the faces side by side:
    vertex 3, the source of edge 3, is back at x = 2; vertex 8, which no
    intersecting edge touches, stays; an unknown edge 9 is refused. *)
Lemma revert_positions_restores_witness :
  revert_positions squeezed_sheet (mkBuffer xyz side_by_side) [(0, 9)]%nat
  = Raise KeyError /\
  exists sh' : Sheet,
    revert_positions squeezed_sheet (mkBuffer xyz side_by_side) squeezed_pairs = Ok sh' /\
    (exists new : Vec3, Frame.loc1 (vert_df sh') 3%nat = Ok new /\ get cx new = Fin 2) /\
    Frame.loc1 (vert_df sh') 8%nat = Ok (P 4 1 0).
Proof.
  split.
  - apply (proj1 (proj2 (revert_positions_restores squeezed_sheet
                           (mkBuffer xyz side_by_side) [(0, 9)]%nat))).
    reflexivity.
  - destruct (revert_positions squeezed_sheet (mkBuffer xyz side_by_side) squeezed_pairs)
      as [sh' |] eqn:Hrun; [| vm_compute in Hrun; discriminate].
    exists sh'. split; [reflexivity |].
    destruct (proj2 (proj2 (revert_positions_restores squeezed_sheet
                              (mkBuffer xyz side_by_side) squeezed_pairs)) sh' Hrun)
      as [_ [_ [_ [_ [_ [Hends Hrest]]]]]].
    split.
    + destruct (Hends 3%nat) as [snap [cur [new [Hs [_ [Hn Hcols]]]]]].
      * exists 3%nat, (E stretched 3 4 1). split; [simpl; auto |].
        split; [reflexivity | left; reflexivity].
      * exists new. split; [exact Hn |].
        rewrite (Hcols cx). vm_compute in Hs. injection Hs as <-. reflexivity.
    + rewrite Hrest; [reflexivity |].
      intros [e [r [He [Hr Hv]]]].
      simpl in He.
      destruct He as [<- | [<- | [<- | [<- | []]]]];
        vm_compute in Hr; injection Hr as <-; simpl in Hv;
        destruct Hv; discriminate.
Defined.

End RevertProps.

(** ** A move and its undoing *)

Module UndoFacts.

Import NP Collisions Quasistatic FrameFacts BoundsFacts SetPosFacts.

Lemma vec_ext (a b : Vec3) : (forall c, get c a = get c b) -> a = b.
Proof.
  intro H. destruct a as [ax ay az], b as [bx by_ bz].
  pose proof (H cx) as Hx. pose proof (H cy) as Hy. pose proof (H cz) as Hz.
  simpl in Hx, Hy, Hz. subst. reflexivity.
Qed.

(** [_set_pos] leaves the columns outside [coords] as they are, and the
    rows of the vertex table where they are *)
Lemma set_pos_columns_kept (eptm : Sheet) (geom : Geom) (pos : list float64)
  (e1 : Sheet) (ret : retval) :
  (forall s : Sheet, vert_df (update_all geom s) = vert_df s) ->
  _set_pos eptm geom pos = (e1, Ok ret) ->
  forall (v : vert_id) (r0 : Vec3),
    Frame.loc1 (vert_df eptm) v = Ok r0 ->
    exists r1 : Vec3,
      Frame.loc1 (vert_df e1) v = Ok r1 /\
      forall c, ~ In c (coords eptm) -> get c r1 = get c r0.
Proof.
  intros Hgeom. unfold _set_pos.
  destruct (length (coords eptm) =? 0)%nat; [discriminate |].
  destruct (negb (_ * _ =? _)%nat); [discriminate |].
  destruct (Frame.loc (vert_df eptm) (active_verts eptm)); [| discriminate].
  destruct (broadcast_rows _ _) as [values |]; [| discriminate].
  intro H. injection H as <- _. intros v r0 H0.
  rewrite Hgeom. simpl.
  rewrite (writes_loc1 (write_values (coords eptm)) v _ (vert_df eptm) r0 H0).
  eexists. split; [reflexivity |].
  intros c Hc.
  apply (fold_key_keeps (write_values (coords eptm))
           (fun r r' => get c r' = get c r)); [reflexivity |].
  intros b r r' Hr. rewrite (write_values_other c (coords eptm) Hc). exact Hr.
Qed.

Lemma set_pos_coords (eptm : Sheet) (geom : Geom) (pos : list float64)
  (e1 : Sheet) (ret : retval) :
  (forall s : Sheet, coords (update_all geom s) = coords s) ->
  _set_pos eptm geom pos = (e1, Ok ret) ->
  coords e1 = coords eptm.
Proof.
  intros Hgeom. unfold _set_pos.
  destruct (length (coords eptm) =? 0)%nat; [discriminate |].
  destruct (negb (_ * _ =? _)%nat); [discriminate |].
  destruct (Frame.loc (vert_df eptm) (active_verts eptm)); [| discriminate].
  destruct (broadcast_rows _ _) as [values |]; [| discriminate].
  intro H. injection H as <- _. rewrite Hgeom. reflexivity.
Qed.

End UndoFacts.

Module UndoProps.

Import NP Collisions Quasistatic Examples TotalFacts Wellformed RevertFacts UndoFacts.

(** X11.  [revert_positions] undoes [_set_pos] where edges intersect.  Take
    the snapshot [vert_df[coords].copy()] of a mesh, move the mesh with
    [_set_pos] (the geometry leaving the vertex table and the coordinate
    columns alone), and revert with the snapshot: every end of an
    intersecting edge has the row it had before the move, and every other
    vertex has the row that the move gave it. *)
Theorem revert_undoes_set_pos (sh0 : Sheet) (geom : Geom) (pos : list float64)
  (sh1 : Sheet) (ret : retval) (pairs : list (edge_id * edge_id)) (sh2 : Sheet) :
  (forall s : Sheet,
      vert_df (update_all geom s) = vert_df s /\
      coords (update_all geom s) = coords s) ->
  _set_pos sh0 geom pos = (sh1, Ok ret) ->
  revert_positions sh1 (position_copy sh0) pairs = Ok sh2 ->
  (forall v, endpoint sh1 pairs v ->
             Frame.loc1 (vert_df sh2) v = Frame.loc1 (vert_df sh0) v) /\
  (forall v, ~ endpoint sh1 pairs v ->
             Frame.loc1 (vert_df sh2) v = Frame.loc1 (vert_df sh1) v).
Proof.
  intros Hgeom Hmove Hback.
  destruct (revert_rows sh1 (position_copy sh0) pairs sh2 Hback) as [Hends Hrest].
  split; [| exact Hrest].
  intros v Hv. destruct (Hends v Hv) as [snap [cur [Hs [Hc Hn]]]].
  simpl in Hs, Hn. rewrite Hn, Hs. f_equal.
  destruct (set_pos_columns_kept sh0 geom pos sh1 ret
              (fun s => proj1 (Hgeom s)) Hmove v snap Hs) as [r1 [Hr1 Hkept]].
  rewrite Hc in Hr1. injection Hr1 as <-.
  rewrite (set_pos_coords sh0 geom pos sh1 ret (fun s => proj2 (Hgeom s)) Hmove).
  apply vec_ext. intro c. rewrite aligned_get.
  destruct (mem_coord c (coords sh0)) eqn:E; [reflexivity |].
  apply Hkept. intro Hin. apply mem_coord_in in Hin. congruence.
Qed.

(** X11 on the three faces side by side: the trial vector stretches face
    1, and the revert puts vertex 3, the source of edge 3, back at x = 2. *)
Lemma revert_undoes_set_pos_witness :
  exists sh1 sh2 : Sheet,
    _set_pos relaxed_sheet refresh_geom stretch_trial = (sh1, Ok RetNone) /\
    revert_positions sh1 (position_copy relaxed_sheet) squeezed_pairs = Ok sh2 /\
    Frame.loc1 (vert_df sh1) 3%nat = Ok (P (1 # 2) 0 0) /\
    Frame.loc1 (vert_df sh2) 3%nat = Ok (P 2 0 0).
Proof.
  destruct (_set_pos relaxed_sheet refresh_geom stretch_trial) as [sh1 r] eqn:Hmove.
  assert (Hr : r = Ok RetNone)
    by (pose proof Hmove as M; vm_compute in M; injection M as _ <-; reflexivity).
  subst r.
  assert (H1 : Frame.loc1 (vert_df sh1) 3%nat = Ok (P (1 # 2) 0 0))
    by (pose proof Hmove as M; vm_compute in M; injection M as <-; reflexivity).
  assert (He : endpoint sh1 squeezed_pairs 3%nat).
  { pose proof Hmove as M. vm_compute in M. injection M as <-.
    exists 3%nat. eexists. split; [simpl; auto |].
    split; [vm_compute; reflexivity | left; reflexivity]. }
  destruct (revert_positions sh1 (position_copy relaxed_sheet) squeezed_pairs)
    as [sh2 |] eqn:Hback.
  - exists sh1, sh2.
    split; [reflexivity |]. split; [exact Hback |]. split; [exact H1 |].
    destruct (revert_undoes_set_pos relaxed_sheet refresh_geom stretch_trial sh1 RetNone
                squeezed_pairs sh2 (fun s => conj eq_refl eq_refl) Hmove Hback)
      as [Hends _].
    rewrite (Hends 3%nat He). reflexivity.
  - exfalso. vm_compute in Hmove. injection Hmove as <-.
    vm_compute in Hback. discriminate.
Defined.

End UndoProps.

(** ** The collision wrapper on a well-formed mesh *)

Module WrapperProps.

Import NP Collisions Quasistatic Examples Wellformed ResolverProps.

Section Wrapper.

Context {detector : Intersection} {Args R : Type}.

(** X12.  The collision wrapper adds no failure of its own on a
    well-formed mesh.  Let the wrapped function return [res] and leave a
    mesh in which the detector names edges of the edge table, every source
    vertex is in the vertex table and was in it when the snapshot was
    taken, and ["x"], ["y"] and ["z"] are coordinate columns; let the
    snapshot have three columns.  Then the correction returns, and the
    wrapper returns [res] on the corrected mesh after [geom.update_all]. *)
Theorem wrapper_adds_no_failure (fun_ : updater Args R) (sh : Sheet) (geom : Geom)
  (args : Args) (s1 : Sheet) (res : R) :
  fun_ sh geom args = (s1, Ok res) ->
  edges_known s1 (self_intersections s1) = true ->
  sources_buffered s1 (position_copy sh) = true ->
  length (coords sh) = 3%nat ->
  sources_known s1 = true ->
  has_xyz s1 = true ->
  exists s2 : Sheet,
    correct_collisions (position_copy sh) s1 = Ok s2 /\
    with_collision_correction fun_ sh geom args = (update_all geom s2, Ok res).
Proof.
  intros Hfun Hedges Hbuf Hcols Hsrc Hxyz.
  assert (Hfix : exists s2, correct_collisions (position_copy sh) s1 = Ok s2).
  { unfold correct_collisions.
    destruct (negb (length (self_intersections s1) =? 0)%nat);
      [| exists s1; reflexivity].
    destruct (init_total s1 (position_copy sh) (self_intersections s1)
                Hedges Hbuf Hcols) as [boxes Hboxes].
    rewrite Hboxes. cbv beta iota delta [bind].
    destruct (solve_collisions_total s1 (position_copy sh) (self_intersections s1)
                boxes (get_shyness s1) Hboxes Hsrc Hxyz) as [sh' [ret Hsolve]].
    rewrite Hsolve. exists sh'. reflexivity. }
  destruct Hfix as [s2 Hs2]. exists s2. split; [exact Hs2 |].
  unfold with_collision_correction. rewrite Hfun, Hs2. reflexivity.
Qed.

End Wrapper.

(** X12 on the three faces side by side, with the trial vector that makes
    the detector report two crossings. *)
Lemma wrapper_adds_no_failure_witness :
  exists s2 : Sheet,
    with_collision_correction (detector := toy_detector) _set_pos
      relaxed_sheet refresh_geom stretch_trial
    = (update_all refresh_geom s2, Ok RetNone).
Proof.
  destruct (wrapper_adds_no_failure (detector := toy_detector) _set_pos
              relaxed_sheet refresh_geom stretch_trial
              (fst (_set_pos relaxed_sheet refresh_geom stretch_trial)) RetNone)
    as [s2 [_ Hs2]]; try (vm_compute; reflexivity).
  exists s2. exact Hs2.
Defined.

End WrapperProps.

(** ** A step that moved no box *)

Module StillFacts.

Import NP Collisions NPFacts.

(** a product of a float with itself is never negative, NaN and the
    infinities included *)
Lemma square_sign (x : float64) : ltb (sign (mul x x)) zero = false.
Proof.
  rewrite sign_ltb.
  destruct x as [| | q |]; try reflexivity.
  destruct (ltb (mul (Fin q) (Fin q)) zero) eqn:E; [| reflexivity].
  exfalso. apply round64_negative in E.
  unfold Qlt, Qmult in E. simpl in E. nia.
Qed.

Lemma same_boxes_no_change (b0 b1 : BBox) (c : coord) :
  sign_change b0 b1 b0 b1 c = false.
Proof. unfold sign_change. apply square_sign. Qed.

Lemma existsb_none {A : Type} (f : A -> bool) (l : list A) :
  (forall a, f a = false) -> existsb f l = false.
Proof.
  intro H. induction l as [| a tl IH]; simpl; [reflexivity |].
  rewrite H. exact IH.
Qed.

End StillFacts.

Module StillProps.

Import NP Collisions Examples Spec Wellformed LoopFacts StillFacts.

(** X13.  A collision that the step did not create is not corrected.  When
    the bounding boxes of two faces are where the snapshot has them, no
    sign changes on any axis (the product of a number with itself is never
    negative, NaN and the infinities included) and [_collision_plane] takes
    its warning branch, whatever the shyness.  When this holds for every
    pair of faces, [solve_collisions] hands back 0 and leaves the mesh as
    it is. *)
Theorem unmoved_faces_skipped (self : CollidingBoxes) (shyness : float64) :
  (forall f0 f1 : face_id,
      unmoved self f0 -> unmoved self f1 ->
      _collision_plane self (f0, f1) shyness = Ok None) /\
  ((forall f0 f1 : face_id,
       In (f0, f1) (face_pairs self) -> unmoved self f0 /\ unmoved self f1) ->
   solve_collisions self shyness = Ok (sheet self, RetInt 0)).
Proof.
  assert (Hpair : forall f0 f1 : face_id,
             unmoved self f0 -> unmoved self f1 ->
             _collision_plane self (f0, f1) shyness = Ok None).
  { intros f0 f1 [b0 [C0 P0]] [b1 [C1 P1]].
    unfold _collision_plane. rewrite C0, C1, P0, P1.
    cbv beta iota zeta delta [bind].
    rewrite (existsb_none (sign_change b0 b1 b0 b1) xyz (same_boxes_no_change b0 b1)).
    rewrite (existsb_none (sign_change b1 b0 b1 b0) xyz (same_boxes_no_change b1 b0)).
    reflexivity. }
  split; [exact Hpair |].
  intro Hall. unfold solve_collisions, aggregate_bounds.
  rewrite fold_limits_skipped.
  - cbv beta iota delta [bind]. destruct (length _ =? 0)%nat; reflexivity.
  - unfold get_limits. apply Forall_forall. intros lim Hin.
    apply in_map_iff in Hin. destruct Hin as [[f0 f1] [<- Hin]].
    destruct (Hall f0 f1 Hin) as [U0 U1]. exact (Hpair f0 f1 U0 U1).
Qed.

(** X13 on the squeezed mesh with a snapshot of the same positions. *)
Lemma unmoved_faces_skipped_witness :
  _collision_plane (force still_boxes) (0, 1)%nat default_shyness = Ok None /\
  solve_collisions (force still_boxes) (Fin 1) = Ok (squeezed_sheet, RetInt 0).
Proof.
  assert (U : forall f, In f [0; 1; 2]%nat -> unmoved (force still_boxes) f).
  { intros f [<- | [<- | [<- | []]]]; eexists; split; vm_compute; reflexivity. }
  split.
  - apply (proj1 (unmoved_faces_skipped (force still_boxes) default_shyness));
      apply U; simpl; auto.
  - apply (proj2 (unmoved_faces_skipped (force still_boxes) (Fin 1))).
    intros f0 f1 Hin. vm_compute in Hin.
    destruct Hin as [E | [E | []]]; injection E as <- <-; split; apply U; simpl; auto.
Defined.

End StillProps.

(** ** The corrected positions and the bounds of the planes *)

Module RespectFacts.

Import NP Collisions Spec Wellformed TotalFacts FinalFacts.






End RespectFacts.

Module RespectProps.

Import NP Collisions Examples Spec Wellformed BoundsFacts TotalFacts OrderFacts
       PositionFacts DominateFacts RespectFacts.



End RespectProps.
